(** * toyplot.data: the Table container

    A shallow embedding of [toyplot/data.py]: the duplicate-name
    resolution of [Table.__init__], the indexing protocol
    ([__getitem__], [__setitem__], [__delitem__]), [shape], iteration,
    [metadata], [read_csv] and [contiguous], with the numpy arrays the
    table stores modelled as views into a store of buffers. *)

From Stdlib Require Import String Ascii DecimalString DecimalNat ZArith List.
From Stdlib Require Import OrdersEx PrimFloat.
From stdpp Require Import gmap strings list sorting.

Local Open Scope string_scope.
Local Open Scope list_scope.
Local Open Scope nat_scope.

(** ** Column names *)

Module Names.

(** ["%s-%s" % (key, suffix)] *)
Definition suffixed (key : string) (suffix : nat) : string :=
  key +:+ "-" +:+ NilEmpty.string_of_uint (Nat.to_uint suffix).

(** [numpy.unique(keys)]: the sorted, duplicate-free dictionary of the
    names.  Python compares strings code point by code point, which is
    [String_as_OT.compare]. *)
Fixpoint unique_insert (k : string) (l : list string) : list string :=
  match l with
  | [] => [k]
  | x :: r =>
      match String_as_OT.compare k x with
      | Lt => k :: x :: r
      | Eq => x :: r
      | Gt => x :: unique_insert k r
      end
  end.

Definition unique (keys : list string) : list string :=
  foldr unique_insert [] keys.

(** The count [numpy.unique(..., return_counts=True)] pairs with a name. *)
Definition key_count (keys : list string) (k : string) : nat :=
  length (filter (λ x, x = k) keys).

(** [numpy.flatnonzero(keys == key)]: the positions holding [key], in
    increasing order. *)
Definition flatnonzero (keys : list string) (key : string) : list nat :=
  filter (λ i, keys !! i = Some key) (seq 0 (length keys)).

(** [while "%s-%s" % (key, suffix) in reserved_keys: suffix += 1].
    The loop leaves at the first suffix whose name is free.  Every turn
    that does not leave has met one more reserved name, so it runs at
    most [size reserved] turns; [next_suffix_spec] below proves that the
    bounded loop returns exactly the first free suffix. *)
Fixpoint while_reserved (turns : nat) (reserved : gset string)
    (key : string) (suffix : nat) : nat :=
  match turns with
  | 0 => suffix
  | S turns' =>
      if decide (suffixed key suffix ∈ reserved)
      then while_reserved turns' reserved key (S suffix)
      else suffix
  end.

Definition next_suffix (reserved : gset string) (key : string)
    (suffix : nat) : nat :=
  while_reserved (size reserved) reserved key suffix.

(** The state of the renaming loops: the [keys] array, [reserved_keys]
    and the running [suffix] of the current name. *)
Record state := State {
  st_keys : list string;
  st_reserved : gset string;
  st_suffix : nat
}.

(** Body of [for i in numpy.flatnonzero(keys == key)]. *)
Definition rename_step (key : string) (st : state) (i : nat) : state :=
  if decide (key ∈ st_reserved st)
  then
    let suffix := next_suffix (st_reserved st) key (st_suffix st) in
    let name := suffixed key suffix in
    State (<[i := name]> (st_keys st)) ({[name]} ∪ st_reserved st) suffix
  else
    State (st_keys st) ({[key]} ∪ st_reserved st) (st_suffix st).

(** Body of [for key, count in zip(key_dictionary, key_counts)] for a
    name with [count > 1]: [suffix = 1], then the loop over the
    positions that hold the name now. *)
Definition rename_pass (st : state) (key : string) : state :=
  foldl (rename_step key)
        (State (st_keys st) (st_reserved st) 1)
        (flatnonzero (st_keys st) key).

(** Lines 109-132 of [Table.__init__]: the names under which the columns
    are stored. *)
Definition dedup (keys : list string) : list string :=
  let key_dictionary := unique keys in
  let reserved_keys : gset string :=
    list_to_set (filter (λ k, key_count keys k = 1) key_dictionary) in
  let duplicated := filter (λ k, key_count keys k ≠ 1) key_dictionary in
  st_keys (foldl rename_pass (State keys reserved_keys 1) duplicated).

(** *** Predicates on names, for the theorems on [dedup] *)

(** A string with the character [-] in it. *)
Fixpoint has_dash (s : string) : bool :=
  match s with
  | EmptyString => false
  | String c r => (Ascii.eqb c "-"%char) || has_dash r
  end.

(** What holds between two passes: a name is reserved or waits for its
    pass, and only names that wait are held twice. *)
Record inv (orig : list string) (later : list string) (st : state) : Prop := Inv {
  inv_held : ∀ i k, st_keys st !! i = Some k → k ∈ st_reserved st ∨ k ∈ later;
  inv_twice : ∀ i j k, i ≠ j → st_keys st !! i = Some k → st_keys st !! j = Some k → k ∈ later;
  inv_length : length (st_keys st) = length orig;
  inv_single : ∀ i k, orig !! i = Some k → key_count orig k = 1 → st_keys st !! i = Some k
}.

(** What holds inside the pass of [key] over the positions [idxs], those
    of [pre] being done. *)
Record inv_pass (orig : list string) (key : string) (later : list string) (idxs pre : list nat)
    (st : state) : Prop := InvPass {
  ip_todo : ∀ i, i ∈ idxs → i ∉ pre → st_keys st !! i = Some key;
  ip_held : ∀ i k, st_keys st !! i = Some k →
      k ∈ st_reserved st ∨ k ∈ later ∨ (k = key ∧ i ∈ idxs ∧ i ∉ pre);
  ip_twice : ∀ i j k, i ≠ j → st_keys st !! i = Some k → st_keys st !! j = Some k →
      k ∈ later ∨ (k = key ∧ ((i ∈ idxs ∧ i ∉ pre) ∨ (j ∈ idxs ∧ j ∉ pre)));
  ip_length : length (st_keys st) = length orig;
  ip_single : ∀ i k, orig !! i = Some k → key_count orig k = 1 → st_keys st !! i = Some k
}.

(** [strip_prefix p s]: what follows [p] in [s], when [s] starts with
    [p]. *)
Fixpoint strip_prefix (p s : string) : option string :=
  match p, s with
  | EmptyString, _ => Some s
  | String a p', String b s' => if Ascii.eqb a b then strip_prefix p' s' else None
  | String _ _, EmptyString => None
  end.

(** [is_suffixed_of k' k]: [k] is [suffixed k' n] for some [n]. *)
Definition is_suffixed_of (k' k : string) : bool :=
  match strip_prefix (k' +:+ "-") k with
  | Some digits =>
      match NilEmpty.uint_of_string digits with
      | Some d => String.eqb (NilEmpty.string_of_uint (Nat.to_uint (Nat.of_uint d))) digits
      | None => false
      end
  | None => false
  end.

(** The names that occur more than once, as [dedup] goes through them. *)
Definition duplicated (keys : list string) : list string :=
  filter (λ k, key_count keys k ≠ 1) (unique keys).

(** No repeated name has the form [k-n] of a repeated name [k]. *)
Definition regular (keys : list string) : bool :=
  forallb (λ k, forallb (λ k', negb (is_suffixed_of k' k)) (duplicated keys))
          (duplicated keys).

(** [p] is the first position of the name [K]. *)
Definition first_of (orig : list string) (K : string) (p : nat) : Prop :=
  ∀ q, q < p → orig !! q ≠ Some K.

(** The name at position [p], an occurrence of the repeated name [K], is
    as the renaming leaves it: [K] itself at the first occurrence, and
    at a later one [K-n] for the least [n] whose name was free, every
    smaller one being held by a name that occurs once or by an earlier
    occurrence of [K]. *)
Definition settled (orig keys : list string) (K : string) (p : nat) : Prop :=
  (first_of orig K p ∧ keys !! p = Some K) ∨
  (¬ first_of orig K p ∧
   ∃ n, 1 ≤ n ∧ keys !! p = Some (suffixed K n) ∧
     ∀ m, 1 ≤ m < n →
       ∃ q, keys !! q = Some (suffixed K m) ∧
            ((orig !! q = Some (suffixed K m) ∧ key_count orig (suffixed K m) = 1)
             ∨ (orig !! q = Some K ∧ q < p))).

(** What holds between two passes when no names collide: the names of
    [done] are settled, those of [later] untouched. *)
Record rinv (orig : list string) (done later : list string) (st : state) : Prop := RInv {
  r_keep : ∀ i k, orig !! i = Some k → k ∈ later ∨ key_count orig k = 1 →
      st_keys st !! i = Some k;
  r_done : ∀ i k, orig !! i = Some k → k ∈ done → settled orig (st_keys st) k i;
  r_res : ∀ r, r ∈ st_reserved st →
      ∃ q k, orig !! q = Some k ∧ st_keys st !! q = Some r ∧
             (key_count orig k = 1 ∨ k ∈ done);
  r_back : ∀ i k, st_keys st !! i = Some k → k ∈ later → orig !! i = Some k
}.

(** The same inside the pass of [K], the positions of [pre] being done. *)
Record rinv_pass (orig : list string) (K : string) (done later : list string)
    (pre : list nat) (st : state) : Prop := RInvPass {
  p_keep : ∀ i k, orig !! i = Some k →
      k ∈ later ∨ key_count orig k = 1 ∨ (k = K ∧ i ∉ pre) →
      st_keys st !! i = Some k;
  p_done : ∀ i k, orig !! i = Some k → k ∈ done ∨ (k = K ∧ i ∈ pre) →
      settled orig (st_keys st) k i;
  p_res : ∀ r, r ∈ st_reserved st →
      ∃ q k, orig !! q = Some k ∧ st_keys st !! q = Some r ∧
             (key_count orig k = 1 ∨ k ∈ done ∨ (k = K ∧ q ∈ pre));
  p_back : ∀ i k, st_keys st !! i = Some k → k ∈ later ∨ k = K → orig !! i = Some k;
  p_suffix : 1 ≤ st_suffix st ∧ ∀ m, 1 ≤ m < st_suffix st → suffixed K m ∈ st_reserved st;
  p_claim : K ∈ st_reserved st ↔ pre ≠ []
}.

End Names.


(** ** numpy arrays

    A column is a one-dimensional numpy array.  Basic slicing returns a
    view on the same memory, indexing with a list of positions copies,
    and [numpy.ma.array(x)] does not copy an [x] that already is an
    array, so arrays are modelled as views into a store of buffers.
    Masks and the conversion of an assigned value to the dtype of the
    array are outside the model: every array has [mask = nomask] and a
    cell is stored as it is given.  This is what numpy does with the
    sequences of [plain] below (integers of 64 bits, or floats, or texts
    that do not end with a NUL character); theorems that speak of the
    elements stored for a sequence are stated for these. *)

Inductive cell :=
  | Text (s : string)
  | Int (z : Z)
  | Float (f : float).

(** The memory of all arrays: the buffers, addressed by position. *)
Abbreviation store := (list (list cell)).

(** An array: its buffer and, for each of its elements in order, the
    position of the element in the buffer. *)
Record array := Array { buffer : nat; positions : list nat }.

(** [a.shape[0]] *)
Definition alen (a : array) : nat := length (positions a).

(** The elements of an array. *)
Definition cells (s : store) (a : array) : list cell :=
  match s !! buffer a with
  | Some b => omap (λ p, b !! p) (positions a)
  | None => []
  end.

(** A new array owning a new buffer. *)
Definition alloc (s : store) (l : list cell) : store * array :=
  (s ++ [l], Array (length s) (seq 0 (length l))).

(** Every position of the array is inside its buffer. *)
Definition valid (s : store) (a : array) : Prop :=
  ∃ b, s !! buffer a = Some b ∧ Forall (λ p, p < length b) (positions a).

(** *** Slices and index lists *)

Record slice := Slice { start : option Z; stop : option Z; step : option Z }.

(** [slice(None, None, None)] and [slice(i, i + 1)] *)
Definition slice_all : slice := Slice None None None.
Definition slice_one (i : Z) : slice := Slice (Some i) (Some (i + 1)%Z) None.

(** [range(first, last, step)] as the list of its members. *)
Definition range_count (first last step : Z) : nat :=
  if (0 <? step)%Z
  then (if (first <? last)%Z then Z.to_nat ((last - first - 1) / step + 1) else 0)
  else (if (last <? first)%Z then Z.to_nat ((first - last - 1) / (- step) + 1) else 0).

Definition range (first last step : Z) : list nat :=
  (λ k, Z.to_nat (first + Z.of_nat k * step)) <$> seq 0 (range_count first last step).

(** [slice.indices(len)] followed by [range]: the positions a slice
    selects in a sequence of [len] elements; [None] for a zero step,
    which Python refuses. *)
Definition slice_positions (sl : slice) (len : nat) : option (list nat) :=
  let n := Z.of_nat len in
  let st := default 1%Z (step sl) in
  if (st =? 0)%Z then None
  else
    let lower := if (st <? 0)%Z then (-1)%Z else 0%Z in
    let upper := if (st <? 0)%Z then (n - 1)%Z else n in
    let clip (bound : option Z) (absent : Z) :=
      match bound with
      | None => absent
      | Some b => if (b <? 0)%Z then Z.max (b + n) lower else Z.min b upper
      end in
    let first := clip (start sl) (if (st <? 0)%Z then upper else lower) in
    let last := clip (stop sl) (if (st <? 0)%Z then lower else upper) in
    Some (range first last st).

(** The position an integer of an index list selects: negative integers
    count from the end, anything outside [-len, len) is refused. *)
Definition wrap_index (len : nat) (i : Z) : option nat :=
  let n := Z.of_nat len in
  if ((0 <=? i)%Z && (i <? n)%Z)%bool then Some (Z.to_nat i)
  else if ((- n <=? i)%Z && (i <? 0)%Z)%bool then Some (Z.to_nat (i + n))
  else None.

(** ** Python values and errors *)

Inductive value_error :=
  | CannotCreate                               (* "Can't create a toyplot.data.Table from an instance of %s" *)
  | OnlyTwoDimensional                         (* "Only two-dimensional arrays are allowed." *)
  | CannotAssign (ndim : nat) (name : string)  (* "Can't assign %s-dimensional array to the '%s' column." *)
  | ExpectedReceived (expected received : nat) (* "Expected %s values, received %s." *)
  | UnsupportedKey                             (* "Unsupported key for assignment: %s" *)
  | Unpack                                     (* unpacking a tuple that has not two members *)
  | Broadcast                                  (* numpy: the value does not fit the selection *)
  | ZeroStep.                                  (* "slice step cannot be zero" *)

Inductive error :=
  | ValueError (e : value_error)
  | KeyError
  | IndexError
  | TypeError.

Inductive result (A : Type) :=
  | Ok (x : A)
  | Raise (e : error).
Arguments Ok {A} x.
Arguments Raise {A} e.

(** A value offered as a column. *)
Inductive pyvalue :=
  | VScalar (c : cell)          (* a scalar: zero dimensions *)
  | VSeq (l : list cell)        (* a list or tuple of scalars *)
  | VArray (a : array)          (* a one-dimensional array *)
  | VNested (extra : nat).      (* nested sequences or an array of [2 + extra] dimensions *)

(** An index expression.  A member of a list is an integer or a string;
    a tuple holds atoms (tuples inside tuples are not modelled). *)
Inductive elem :=
  | EInt (z : Z)
  | EStr (s : string).

Inductive atom :=
  | AStr (s : string)
  | AInt (z : Z)
  | ASlice (sl : slice)
  | ANone
  | AList (l : list elem)
  | AOther.                     (* any other object, a float for one *)

Inductive pyindex :=
  | IAtom (a : atom)
  | ITuple (l : list atom).

(** Computations on a state that may raise.  The state is returned in
    both cases: what was written before a raise stays written. *)
Definition M (S A : Type) : Type := S → S * result A.

Definition ret {S A} (x : A) : M S A := λ s, (s, Ok x).
Definition raise {S A} (e : error) : M S A := λ s, (s, Raise e).
Definition bind {S A B} (m : M S A) (k : A → M S B) : M S B :=
  λ s, match m s with
       | (s', Ok x) => k x s'
       | (s', Raise e) => (s', Raise e)
       end.

Notation "'do' x <- m ; k" := (bind m (λ x, k))
  (at level 10, x pattern, m at level 100, k at level 200).

Fixpoint mapM_ {S A B} (f : A → M S B) (l : list A) : M S (list B) :=
  match l with
  | [] => ret []
  | x :: r => do y <- f x; do ys <- mapM_ f r; ret (y :: ys)
  end.

Fixpoint forM_ {S A} (f : A → M S unit) (l : list A) : M S unit :=
  match l with
  | [] => ret tt
  | x :: r => do _ <- f x; forM_ f r
  end.

(** *** Reading and writing arrays *)

(** The view of an array on the elements at the places [ps]: the same
    buffer, nothing copied. *)
Definition view (a : array) (ps : list nat) : array :=
  Array (buffer a) (omap (λ p, positions a !! p) ps).

(** The integers of a list, when all its members are integers. *)
Definition all_ints (l : list elem) : option (list Z) :=
  mapM (λ e, match e with EInt z => Some z | EStr _ => None end) l.

(** [a[sel]] for a one-dimensional [a]: a slice gives a view, a list of
    integers a copy, an integer a scalar, [None] a new axis; a string, a
    list with a string in it and the objects of [AOther] are refused. *)
Definition array_getitem (a : array) (sel : atom) : M store pyvalue :=
  match sel with
  | ASlice sl =>
      match slice_positions sl (alen a) with
      | Some ps => ret (VArray (view a ps))
      | None => raise (ValueError ZeroStep)
      end
  | AList l =>
      match all_ints l ≫= mapM (wrap_index (alen a)) with
      | Some ps =>
          λ s, let (s', copy) := alloc s (omap (λ p, cells s a !! p) ps) in
               (s', Ok (VArray copy))
      | None => raise IndexError
      end
  | AInt i =>
      match wrap_index (alen a) i with
      | Some p =>
          λ s, match cells s a !! p with
               | Some c => (s, Ok (VScalar c))
               | None => (s, Raise IndexError)
               end
      | None => raise IndexError
      end
  | ANone => ret (VNested 0)
  | AStr _ | AOther => raise IndexError
  end.

(** Overwrite the given positions of a buffer. *)
Definition write (s : store) (buf : nat) (updates : list (nat * cell)) : store :=
  match s !! buf with
  | Some b => <[buf := foldl (λ b' u, <[u.1 := u.2]> b') b updates]> s
  | None => s
  end.

(** The cells numpy assigns to a selection of [n] elements: a scalar and
    a sequence of one element are repeated, a sequence of [n] elements is
    taken as it is, anything else does not fit. *)
Definition broadcast (s : store) (value : pyvalue) (n : nat) : option (list cell) :=
  let fit (l : list cell) :=
    if decide (length l = n) then Some l
    else match l with [c] => Some (replicate n c) | _ => None end in
  match value with
  | VScalar c => Some (replicate n c)
  | VSeq l => fit l
  | VArray v => fit (cells s v)
  | VNested _ => None
  end.

(** [a[sel] = value] for an integer or a slice [sel].  The cells are
    written as they are given: the conversion of a value to the dtype of
    the array, which can alter the value or raise, is not modelled. *)
Definition array_setitem (a : array) (sel : atom) (value : pyvalue) : M store unit :=
  let assign (ps : list nat) : M store unit :=
    λ s, match broadcast s value (length ps) with
         | Some cs =>
             (write s (buffer a) (zip (positions (view a ps)) cs), Ok tt)
         | None => (s, Raise (ValueError Broadcast))
         end in
  match sel with
  | AInt i =>
      match wrap_index (alen a) i with
      | Some p => assign [p]
      | None => raise IndexError
      end
  | ASlice sl =>
      match slice_positions sl (alen a) with
      | Some ps => assign ps
      | None => raise (ValueError ZeroStep)
      end
  | _ => raise IndexError
  end.

(** ** Table *)

(** [self._columns], an [OrderedDict] from name to array. *)
Abbreviation table := (list (string * array)).

Fixpoint columns_get (t : table) (name : string) : option array :=
  match t with
  | [] => None
  | (k, a) :: r => if decide (k = name) then Some a else columns_get r name
  end.

(** [self._columns[name] = a]: a name that is present keeps its place, a
    new name goes to the end. *)
Fixpoint columns_set (t : table) (name : string) (a : array) : table :=
  match t with
  | [] => [(name, a)]
  | (k, b) :: r =>
      if decide (k = name) then (k, a) :: r else (k, b) :: columns_set r name a
  end.

(** [del self._columns[name]] *)
Fixpoint columns_del (t : table) (name : string) : table :=
  match t with
  | [] => []
  | (k, a) :: r => if decide (k = name) then r else (k, a) :: columns_del r name
  end.

Definition keys (t : table) : list string := t.*1.
Definition values (t : table) : list array := t.*2.

(** [Table.shape] *)
Definition shape (t : table) : nat * nat :=
  (match values t with a :: _ => alen a | [] => 0 end, length t).

(** [Table.__len__] *)
Definition len (t : table) : nat :=
  match values t with a :: _ => alen a | [] => 0 end.

(** Methods that assign to [self._columns] run on the store and the
    table. *)
Abbreviation world := (store * table)%type.

Definition on_store {A} (m : M store A) : M world A :=
  λ w, let (s', r) := m w.1 in ((s', w.2), r).

Definition get_table : M world table := λ w, (w, Ok w.2).
Definition put_table (t : table) : M world unit := λ w, ((w.1, t), Ok tt).

(** The methods [m] calls on a table that starts as [t]; the table they
    leave is the result. *)
Definition with_table (t : table) (m : M world unit) : M store table :=
  λ s, match m (s, t) with
       | ((s', t'), Ok _) => (s', Ok t')
       | ((s', _), Raise e) => (s', Raise e)
       end.

(** The index of a tuple, [index[i]]. *)
Definition item {S} (l : list atom) (i : nat) : M S atom :=
  match l !! i with
  | Some a => ret a
  | None => raise IndexError
  end.

(** The loop [for column in self._columns.values()] of [__setitem__]:
    the first stored column of another shape raises. *)
Fixpoint check_shapes (columns : list array) (value : array) : result unit :=
  match columns with
  | [] => Ok tt
  | column :: rest =>
      if decide (alen column ≠ alen value)
      then Raise (ValueError (ExpectedReceived (alen column) (alen value)))
      else check_shapes rest value
  end.

(** [numpy.ma.array(value)] with the test [value.ndim != 1]: a sequence
    becomes a new array, an array is shared.  The new array holds the
    elements as they are given: the conversion of a sequence to one
    dtype is not modelled, and the elements are those numpy stores for
    the sequences of [plain]. *)
Definition ma_array (name : string) (value : pyvalue) : M store array :=
  match value with
  | VScalar _ => raise (ValueError (CannotAssign 0 name))
  | VNested extra => raise (ValueError (CannotAssign (2 + extra) name))
  | VSeq l => λ s, let (s', a) := alloc s l in (s', Ok a)
  | VArray a => ret a
  end.

(** [Table.__setitem__] *)
Definition Table_setitem (index : pyindex) (value : pyvalue) : M world unit :=
  match index with
  | IAtom (AStr name) =>
      do value <- on_store (ma_array name value);
      do t <- get_table;
      match check_shapes (values t) value with
      | Raise e => raise e
      | Ok _ => put_table (columns_set t name value)
      end
  | ITuple l =>
      do i0 <- item l 0;
      match i0 with
      | AStr column =>
          do column_slice <- item l 1;
          match column_slice with
          | AInt _ | ASlice _ =>
              match l with
              | [_; _] =>
                  do t <- get_table;
                  match columns_get t column with
                  | Some a => on_store (array_setitem a column_slice value)
                  | None => raise KeyError
                  end
              | _ => raise (ValueError Unpack)
              end
          | _ => raise (ValueError UnsupportedKey)
          end
      | _ => raise (ValueError UnsupportedKey)
      end
  | IAtom _ => raise (ValueError UnsupportedKey)
  end.

(** [Table.__delitem__]: only a name can be a key of [self._columns]. *)
Definition Table_delitem (key : pyindex) : M world unit :=
  match key with
  | IAtom (AStr name) =>
      do t <- get_table;
      match columns_get t name with
      | Some _ => put_table (columns_del t name)
      | None => raise KeyError
      end
  | IAtom (AList _) | IAtom (ASlice _) => raise TypeError
  | ITuple l =>
      if existsb (λ a, match a with AList _ | ASlice _ => true | _ => false end) l
      then raise TypeError else raise KeyError
  | _ => raise KeyError
  end.

(** Lines 109-136 of [Table.__init__]: the names are made unique, then
    each column is stored with [self[key] = value]. *)
Definition Table_store (names : list string) (columns : list pyvalue) : M store table :=
  with_table [] (forM_ (λ kv, Table_setitem (IAtom (AStr kv.1)) kv.2)
                       (zip (Names.dedup names) columns)).

(** What [Table.__getitem__] returns: a column or a part of one, a new
    table, or [None] when the method reaches its end. *)
Inductive retval :=
  | RetValue (v : pyvalue)
  | RetTable (t : table)
  | RetNone.

(** [self._columns[column][column_slice]] *)
Definition column_read (t : table) (column : string) (column_slice : atom)
    : M store pyvalue :=
  match columns_get t column with
  | Some a => array_getitem a column_slice
  | None => raise KeyError
  end.

(** A text as an array of texts gives it back: a numpy array of texts
    has elements of one width, padded with NUL characters, and an
    element is read without the NUL characters at its end. *)
Fixpoint rstrip_nul (s : string) : string :=
  match s with
  | EmptyString => EmptyString
  | String c r =>
      match rstrip_nul r with
      | EmptyString => if Ascii.eqb c Ascii.zero then EmptyString else String c EmptyString
      | r' => String c r'
      end
  end.

(** A member of a list as [numpy.array] of the list gives it back when
    the list holds a string: the [str] of an integer, a string without
    the NUL characters at its end. *)
Definition elem_str (e : elem) : string :=
  match e with
  | EStr s => rstrip_nul s
  | EInt z => NilEmpty.string_of_int (Z.to_int z)
  end.

Definition is_str (e : elem) : bool :=
  match e with EStr _ => true | EInt _ => false end.

(** [(column, self._columns[column][row_slice])] for one member of
    [columns]; an integer is not the name of a column. *)
Definition read_column (t : table) (row_slice : atom) (column : elem)
    : M store (string * pyvalue) :=
  match column with
  | EStr name => do v <- column_read t name row_slice; ret (name, v)
  | EInt _ => raise KeyError
  end.

(** Lines 161-193 of [Table.__getitem__]: [row_slice] and [columns].
    [row_slice] is an atom, [ANone] being Python's [None]; [columns] is
    [None] for Python's [None], a raise of [TypeError] for an object that
    cannot be iterated, and the members it iterates over otherwise. *)
Definition Table_selection (t : table) (index : pyindex)
    : M store (atom * option (result (list elem))) :=
  match index with
  | IAtom (AInt i) => ret (ASlice (slice_one i), Some (Ok (EStr <$> keys t)))
  | IAtom (ASlice sl) => ret (ASlice sl, Some (Ok (EStr <$> keys t)))
  | ITuple l =>
      do i0 <- item l 0;
      let row_slice := match i0 with AInt i => ASlice (slice_one i) | _ => i0 end in
      do i1 <- item l 1;
      let columns :=
        match i1 with
        | AStr name => Some (Ok [EStr name])
        | AList names => Some (Ok names)
        | ANone => None
        | AInt _ | ASlice _ | AOther => Some (Raise TypeError)
        end in
      ret (row_slice, columns)
  | IAtom (AList l) =>
      (* numpy.array(index): a list with a string in it becomes an array
         of strings, an empty list an array of floats *)
      if existsb is_str l
      then ret (ASlice slice_all, Some (Ok (EStr <$> (elem_str <$> l))))
      else match l with
           | [] => ret (AOther, Some (Ok (EStr <$> keys t)))
           | _ => ret (AList l, Some (Ok (EStr <$> keys t)))
           end
  | IAtom _ => ret (AOther, Some (Ok (EStr <$> keys t)))
  end.

(** Lines 161-196 of [Table.__getitem__]: the cases that return a table,
    and the end of the method, which returns nothing. *)
Definition Table_getitem_table (t : table) (index : pyindex) : M store retval :=
  do rc <- Table_selection t index;
  match rc with
  | (ANone, _) | (_, None) => ret RetNone
  | (_, Some (Raise e)) => raise e
  | (row_slice, Some (Ok columns)) =>
      do items <- mapM_ (read_column t row_slice) columns;
      do u <- Table_store (items.*1) (items.*2);
      ret (RetTable u)
  end.

(** [Table.__getitem__] *)
Definition Table_getitem (t : table) (index : pyindex) : M store retval :=
  match index with
  | IAtom (AStr name) =>
      do v <- column_read t name (ASlice slice_all); ret (RetValue v)
  | ITuple l =>
      do i0 <- item l 0;
      match i0 with
      | AStr name =>
          do i1 <- item l 1;
          let column_slice := match i1 with AInt i => ASlice (slice_one i) | _ => i1 end in
          match column_slice with
          | ANone => Table_getitem_table t index
          | _ => do v <- column_read t name column_slice; ret (RetValue v)
          end
      | _ => Table_getitem_table t index
      end
  | _ => Table_getitem_table t index
  end.

(** *** Construction *)

(** [sorted(data.keys())] with the values that go with the keys. *)
Fixpoint sorted_insert {A} (kv : string * A) (l : list (string * A)) : list (string * A) :=
  match l with
  | [] => [kv]
  | x :: r =>
      match String_as_OT.compare kv.1 x.1 with
      | Gt => x :: sorted_insert kv r
      | _ => kv :: x :: r
      end
  end.

Definition sorted_items {A} (l : list (string * A)) : list (string * A) :=
  foldr sorted_insert [] l.

(** The argument [index] of [Table].  [IndexFalse] is [False] or
    another false value, the empty string for one, which [if index:]
    treats alike; [IndexTrue] is [True]; a format string that is not
    empty is given as the name it makes of a level number. *)
Inductive index_arg :=
  | IndexFalse
  | IndexTrue
  | IndexFormat (key_format : nat → string).

(** The argument [data] of [Table].  A keyed source is the list of its
    items, with distinct keys; an array of [ndim] dimensions is given by
    the views of its columns, a data frame by its labelled columns and
    the values of its index levels. *)
Inductive source :=
  | SrcNone
  | SrcOrdered (items : list (string * pyvalue))
  | SrcTable (t : table)
  | SrcMapping (items : list (string * pyvalue))
  | SrcSequence (items : list (string * pyvalue))
  | SrcNdarray (ndim : nat) (columns : list array)
  | SrcFrame (columns : list (string * pyvalue)) (levels : list pyvalue)
  | SrcOther.

Definition str_nat (i : nat) : string := NilEmpty.string_of_uint (Nat.to_uint i).

(** Lines 70-107 of [Table.__init__]: the names and the values a source
    gives. *)
Definition source_items (data : source) (index : index_arg)
    : M store (list string * list pyvalue) :=
  match data with
  | SrcNone => ret ([], [])
  | SrcOrdered items => ret (items.*1, items.*2)
  | SrcTable t =>
      do columns <- mapM_ (λ key, column_read t key (ASlice slice_all)) (keys t);
      ret (keys t, columns)
  | SrcMapping items => ret ((sorted_items items).*1, (sorted_items items).*2)
  | SrcSequence items => ret (items.*1, items.*2)
  | SrcNdarray ndim columns =>
      if decide (ndim ≠ 2) then raise (ValueError OnlyTwoDimensional)
      else ret (str_nat <$> seq 0 (length columns), VArray <$> columns)
  | SrcFrame columns levels =>
      let level_keys :=
        match index with
        | IndexFalse => None
        | IndexTrue => Some (λ i, "index" +:+ str_nat i)
        | IndexFormat key_format => Some key_format
        end in
      match level_keys with
      | Some key_format =>
          ret ((key_format <$> seq 0 (length levels)) ++ columns.*1,
               levels ++ columns.*2)
      | None => ret (columns.*1, columns.*2)
      end
  | SrcOther => raise (ValueError CannotCreate)
  end.

(** [Table.__init__] *)
Definition Table_init (data : source) (index : index_arg) : M store table :=
  match data with
  | SrcNone => ret []
  | _ => do kv <- source_items data index; Table_store kv.1 kv.2
  end.

(** ** Tables that can arise *)

(** All columns have one length. *)
Definition same_length (t : table) : Prop :=
  ∀ a b, a ∈ values t → b ∈ values t → alen a = alen b.

(** The names are distinct, as the keys of a dictionary are, and all
    columns have one length. *)
Definition wf_table (t : table) : Prop := NoDup (keys t) ∧ same_length t.

(** Every column lies inside the store. *)
Definition valid_table (s : store) (t : table) : Prop :=
  Forall (valid s) (values t).

(** The table of the views of all columns on the rows [ps]. *)
Definition view_table (t : table) (ps : list nat) : table :=
  (λ ka, (ka.1, view ka.2 ps)) <$> t.

(** The rows [slice(i, i + 1)] selects among [n]. *)
Definition one_row (n : nat) (i : Z) : list nat :=
  if ((0 <=? i)%Z && (i <? Z.of_nat n)%Z)%bool then [Z.to_nat i]
  else if ((- Z.of_nat n <=? i)%Z && (i <? -1)%Z)%bool then [Z.to_nat (i + Z.of_nat n)]
  else [].

(** The length of a value of one dimension. *)
Definition value_len (v : pyvalue) : option nat :=
  match v with
  | VSeq l => Some (length l)
  | VArray a => Some (alen a)
  | VScalar _ | VNested _ => None
  end.

(** ** read_csv *)

Section ReadCsv.

(** [.astype("float64")] on one cell: numpy's conversion, which fails on
    a text that is not a number. *)
Variable to_float : cell → option float.

Definition astype_float64 (a : array) : M store array :=
  λ s, match mapM to_float (cells s a) with
       | Some fs => let (s', b) := alloc s (Float <$> fs) in (s', Ok b)
       | None => (s, Raise (ValueError Broadcast))
       end.

(** [zip] of the rows: the columns of the rows, as many as the shortest
    row has fields. *)
Definition zip_star (rows : list (list string)) : list (list string) :=
  match rows with
  | [] => []
  | r :: rest =>
      (λ j, omap (λ row, row !! j) rows)
        <$> seq 0 (foldr (λ row n, min (length row) n) (length r) rest)
  end.

(** [try: ... except: pass] *)
Definition try_pass {S} (m : M S unit) : M S unit :=
  λ s, (fst (m s), Ok tt).

(** The body of the loop of [read_csv]:
    [try: result[name] = result[name].astype("float64") except: pass]. *)
Definition convert_column (name : string) : M world unit :=
  try_pass (
    do t <- get_table;
    do column <- on_store (column_read t name (ASlice slice_all));
    match column with
    | VArray a =>
        do floats <- on_store (astype_float64 a);
        Table_setitem (IAtom (AStr name)) (VArray floats)
    | _ => raise TypeError
    end).

(** [read_csv], from the rows [csv.reader(fobj)] yields. *)
Definition read_csv (rows : list (list string)) (convert : bool) : M store table :=
  do result <- Table_store (hd EmptyString <$> zip_star rows)
                           ((λ column, VSeq (Text <$> tail column)) <$> zip_star rows);
  if convert
  then with_table result (forM_ convert_column (keys result))
  else ret result.

End ReadCsv.

(** The tables a program can hold: made by [Table], by an indexing read
    or by [read_csv], then changed by assignments and deletions, whether
    these return or raise. *)
Inductive reachable : table → Prop :=
  | reach_init data index s s' t :
      Table_init data index s = (s', Ok t) → reachable t
  | reach_getitem t index s s' u :
      reachable t → Table_getitem t index s = (s', Ok (RetTable u)) → reachable u
  | reach_read_csv to_float rows convert s s' t :
      read_csv to_float rows convert s = (s', Ok t) → reachable t
  | reach_setitem t index value s w r :
      reachable t → Table_setitem index value (s, t) = (w, r) → reachable w.2
  | reach_delitem t key s w r :
      reachable t → Table_delitem key (s, t) = (w, r) → reachable w.2.

Import Names.

(** ** Predicates and examples for the theorems *)

(** Computations that leave the table of the world as it is. *)
Definition keeps {A} (m : M world A) : Prop :=
  ∀ w w' r, m w = (w', r) → w'.2 = w.2.

(** Computations that keep the table of the world well formed. *)
Definition preserves {A} (m : M world A) : Prop :=
  ∀ w w' r, m w = (w', r) → wf_table w.2 → wf_table w'.2.


(** The arrays [Table] makes of a list of sequences, one new buffer
    each, from buffer [n] on. *)
Fixpoint arrays_from (n : nat) (ls : list (list cell)) : list array :=
  match ls with
  | [] => []
  | l :: r => Array n (seq 0 (length l)) :: arrays_from (S n) r
  end.

(** A column after the conversion: its floats when every cell converts,
    itself otherwise. *)
Definition converted (to_float : cell → option float) (cs : list cell) : list cell :=
  match mapM to_float cs with
  | Some fs => Float <$> fs
  | None => cs
  end.

(** A table of five rows and three columns: its source, and the store
    and the table [Table] makes of it. *)
Definition ex_source : source :=
  SrcSequence [("a", VSeq [Int 10; Int 20; Int 30; Int 40; Int 50]);
               ("b", VSeq [Text "p"; Text "q"; Text "r"; Text "s"; Text "t"]);
               ("c", VSeq [Int 1; Int 2; Int 3; Int 4; Int 5])].

Definition ex_store : store :=
  [[Int 10; Int 20; Int 30; Int 40; Int 50];
   [Text "p"; Text "q"; Text "r"; Text "s"; Text "t"];
   [Int 1; Int 2; Int 3; Int 4; Int 5]].

Definition ex_table : table :=
  [("a", Array 0 [0; 1; 2; 3; 4]);
   ("b", Array 1 [0; 1; 2; 3; 4]);
   ("c", Array 2 [0; 1; 2; 3; 4])].

(** A conversion that knows the four numbers of the example. *)
Definition ex_to_float (c : cell) : option float :=
  match c with
  | Text s =>
      if String.eqb s "1" then Some 1%float
      else if String.eqb s "2" then Some 2%float
      else if String.eqb s "3" then Some 3%float
      else if String.eqb s "4" then Some 4%float
      else None
  | Int _ => None
  | Float f => Some f
  end.

(** ** contiguous *)

Section Contiguous.

Context {A : Type}.

(** The comparison [itertools.groupby] makes between the key of a group
    and the next element: [==] on the elements of the array. *)
Variable eqb : A → A → bool.

(** [itertools.groupby]: the pairs [(value, group)] it yields.  A group
    starts at an element, its key, and runs as long as the next element
    is equal to the key. *)
Fixpoint groupby_from (tgtkey : A) (group : list A) (l : list A) : list (A * list A) :=
  match l with
  | [] => [(tgtkey, group)]
  | currkey :: r =>
      if eqb tgtkey currkey
      then groupby_from tgtkey (group ++ [currkey]) r
      else (tgtkey, group) :: groupby_from currkey [currkey] r
  end.

Definition groupby (l : list A) : list (A * list A) :=
  match l with
  | [] => []
  | x :: r => groupby_from x [x] r
  end.

(** The body of the loop of [contiguous], on [i], [begin], [end] and
    [values]; the new [i] is [end[-1]]. *)
Definition contiguous_step (st : nat * list nat * list nat * list A)
    (vg : A * list A) : nat * list nat * list nat * list A :=
  let '(i, begin, end_, values) := st in
  let begin := begin ++ [i] in
  let end_ := end_ ++ [i + length vg.2] in
  let values := values ++ [vg.1] in
  (default i (last end_), begin, end_, values).

(** [contiguous(a)], for the elements [a] of [numpy.array(a).ravel()]:
    the elements of the three arrays it returns. *)
Definition contiguous (a : list A) : list nat * list nat * list A :=
  let '(_, begin, end_, values) := foldl contiguous_step (0, [], [], []) (groupby a) in
  (begin, end_, values).

End Contiguous.

(** ** Iteration *)

(** [Table.__iter__], run to its end: the rows it yields for [row] in
    [numpy.arange(len(self))], each the tuple of [column[row]] over the
    columns. *)
Definition Table_iter (t : table) : M store (list (list pyvalue)) :=
  mapM_ (λ row, mapM_ (λ column, array_getitem column (AInt (Z.of_nat row))) (values t))
        (seq 0 (len t)).

(** ** Metadata *)

(** [self._metadata], a [collections.defaultdict(dict)]: the dictionary
    of every name that was asked for.  A dictionary is an object that
    its holders change in place, so [dicts] holds the dictionaries and
    [_metadata] maps a name to the place of its dictionary. *)
Record metadata := Metadata {
  dicts : list (gmap string cell);
  _metadata : gmap string nat
}.

(** [ValueError("Unknown column name '%s'" % column)] *)
Inductive metadata_error :=
  | UnknownColumnName (column : string).

(** [Table.metadata]: the place of the dictionary of a column.  Reading
    [self._metadata[column]] makes an empty dictionary for a name that
    has none. *)
Definition Table_metadata (t : table) (column : string) (m : metadata)
    : metadata * (metadata_error + nat) :=
  if decide (column ∉ keys t)
  then (m, inl (UnknownColumnName column))
  else match _metadata m !! column with
       | Some d => (m, inr d)
       | None =>
           (Metadata (dicts m ++ [∅]) (<[column := length (dicts m)]> (_metadata m)),
            inr (length (dicts m)))
       end.

(** ** Predicates for the theorems on [contiguous] *)

(** The places where the groups start, the first one starting at [i]. *)
Fixpoint starts {A} (i : nat) (gs : list (A * list A)) : list nat :=
  match gs with
  | [] => []
  | g :: r => i :: starts (i + length g.2) r
  end.

(** The places where the groups end. *)
Fixpoint ends {A} (i : nat) (gs : list (A * list A)) : list nat :=
  match gs with
  | [] => []
  | g :: r => (i + length g.2) :: ends (i + length g.2) r
  end.

(** A group is its key followed by elements equal to the key. *)
Definition run {A} (eqb : A → A → bool) (kg : A * list A) : Prop :=
  ∃ r, kg.2 = kg.1 :: r ∧ Forall (λ x, eqb kg.1 x = true) r.

(** The array that ranges describe: each value, as many times as its
    range is long. *)
Definition expand {A} (r : list nat * list nat * list A) : list A :=
  mjoin (zip_with (λ c be, replicate (be.2 - be.1) c) r.2 (zip r.1.1 r.1.2)).

(** ** Values that numpy stores as they are given *)

(** An integer of 64 bits. *)
Definition int64 (z : Z) : bool := ((- 2 ^ 63 <=? z) && (z <? 2 ^ 63))%Z.

(** A sequence that [numpy.ma.array] stores element by element as it is
    given: integers of 64 bits (dtype [int64]), or floats (dtype
    [float64]), or texts none of which ends with a NUL character. *)
Definition plain (l : list cell) : bool :=
  forallb (λ c, match c with Int z => int64 z | _ => false end) l
  || forallb (λ c, match c with Float _ => true | _ => false end) l
  || forallb (λ c, match c with Text x => String.eqb (rstrip_nul x) x | _ => false end) l.

(** ** Changes made one after the other *)

(** A change of a table by its caller: an assignment or a deletion. *)
Inductive mutation :=
  | SetItem (index : pyindex) (value : pyvalue)
  | DelItem (key : pyindex).

(** The world after a change, whether the call returns or raises. *)
Definition mutate (w : world) (m : mutation) : world :=
  match m with
  | SetItem index value => (Table_setitem index value w).1
  | DelItem key => (Table_delitem key w).1
  end.

Definition mutations (ms : list mutation) (w : world) : world := foldl mutate w ms.

(** Two tables that lie in the store and share no buffer. *)
Definition separate (s : store) (t u : table) : Prop :=
  valid_table s t ∧ valid_table s u ∧
  ∀ a b, a ∈ values t → b ∈ values u → buffer a ≠ buffer b.

(** A change that brings no array of the table [other] into the table
    changed: an array assigned as a value lies in the store and shares
    no buffer with a column of [other]. *)
Definition foreign (s : store) (other : table) (m : mutation) : Prop :=
  ∀ index v, m = SetItem index (VArray v) →
    valid s v ∧ ∀ b, b ∈ values other → buffer v ≠ buffer b.

(** No change of [ms], made one after the other from the world [w],
    brings an array of [other] into the table changed: each one is
    [foreign] in the store it is made in. *)
Fixpoint foreign_all (other : table) (ms : list mutation) (w : world) : Prop :=
  match ms with
  | [] => True
  | m :: ms' => foreign w.1 other m ∧ foreign_all other ms' (mutate w m)
  end.

(** ** Predicates for the theorems on the renaming *)

(** Every name of the state starts with the name given at its
    position. *)
Definition starts_with (orig : list string) (st : state) : Prop :=
  ∀ i k, orig !! i = Some k → ∃ tail, st_keys st !! i = Some (k +:+ tail).

(** * Theorems *)

Lemma digits_no_dash d : has_dash (NilEmpty.string_of_uint d) = false.
Proof. induction d; simpl; auto. Qed.

Lemma append_dash_inj k k' d d' :
  has_dash d = false → has_dash d' = false →
  k +:+ String "-" d = k' +:+ String "-" d' → k = k' ∧ d = d'.
Proof.
  intros Hd Hd'. revert k'. induction k as [|c k IH]; intros [|c' k']; simpl; intros E.
  - by inversion E.
  - inversion E; subst. exfalso.
    clear -Hd. induction k' as [|c k IH]; simpl in Hd.
    + discriminate.
    + apply orb_false_elim in Hd as [_ Hd]. auto.
  - inversion E; subst. exfalso.
    clear -Hd'. induction k as [|c k IH]; simpl in Hd'.
    + discriminate.
    + apply orb_false_elim in Hd' as [_ Hd']. auto.
  - inversion E; subst. destruct (IH k') as [-> ->]; auto.
Qed.

Lemma suffixed_inj k k' n n' : suffixed k n = suffixed k' n' → k = k' ∧ n = n'.
Proof.
  unfold suffixed. intros E. simpl in E.
  apply append_dash_inj in E as [-> E]; try apply digits_no_dash.
  split; [done|].
  apply Unsigned.to_uint_inj.
  assert (Some (Nat.to_uint n) = Some (Nat.to_uint n')) as [=]; [|done].
  by rewrite <- !NilEmpty.usu, E.
Qed.

Lemma append_ne k d : k +:+ String "-" d ≠ k.
Proof.
  induction k as [|c k IH]; simpl; [done|]. intros [=]. done.
Qed.

Lemma suffixed_ne k n : suffixed k n ≠ k.
Proof. apply append_ne. Qed.

Lemma suffixed_inj_suffix k : Inj (=) (=) (suffixed k).
Proof. intros n m E. by apply suffixed_inj in E as [_ ?]. Qed.

(** The bounded loop between its bounds. *)
Lemma while_reserved_spec turns (R : gset string) k s :
  let n := while_reserved turns R k s in
  s ≤ n ≤ s + turns ∧
  (∀ m, s ≤ m < n → suffixed k m ∈ R) ∧
  (n < s + turns → suffixed k n ∉ R).
Proof.
  revert s. induction turns as [|turns IH]; intros s; simpl.
  - split; [lia|]. split; intros; lia.
  - destruct (decide (suffixed k s ∈ R)) as [Hin|Hout].
    + destruct (IH (S s)) as (Hb & Hres & Hfree).
      split; [lia|]. split.
      * intros m Hm. destruct (decide (m = s)) as [->|]; [done|]. apply Hres. lia.
      * intros. apply Hfree. lia.
    + split; [lia|]. split; [intros; lia|done].
Qed.

Lemma reserved_run_size (R : gset string) k s n :
  (∀ m, s ≤ m < s + n → suffixed k m ∈ R) → n ≤ size R.
Proof.
  intros H.
  assert (list_to_set (suffixed k <$> seq s n) ⊆ R) as Hsub.
  { intros x. rewrite elem_of_list_to_set, list_elem_of_fmap.
    intros (m & -> & Hm). apply elem_of_seq in Hm. apply H. lia. }
  apply subseteq_size in Hsub.
  rewrite size_list_to_set in Hsub.
  - by rewrite length_fmap, length_seq in Hsub.
  - apply NoDup_fmap_2; [apply suffixed_inj_suffix|apply NoDup_seq].
Qed.

(** The [while] loop leaves at the first free suffix. *)
Lemma next_suffix_spec (R : gset string) k s :
  let n := next_suffix R k s in
  s ≤ n ∧ (suffixed k n ∉ R) ∧ (∀ m, s ≤ m < n → suffixed k m ∈ R).
Proof.
  unfold next_suffix.
  destruct (while_reserved_spec (size R) R k s) as (Hb & Hres & Hfree).
  split; [lia|]. split; [|done].
  destruct (decide (while_reserved (size R) R k s < s + size R)) as [|Hge]; [auto|].
  intros Hin.
  assert (S (size R) ≤ size R); [|lia].
  apply (reserved_run_size R k s). intros m Hm.
  destruct (decide (m = while_reserved (size R) R k s)) as [->|]; [done|].
  apply Hres. lia.
Qed.

(** *** The dictionary *)

Lemma elem_of_unique_insert k l x : x ∈ unique_insert k l ↔ x = k ∨ x ∈ l.
Proof.
  induction l as [|y l IH]; simpl.
  - rewrite list_elem_of_singleton, elem_of_nil. tauto.
  - destruct (String_as_OT.compare_spec k y) as [E|L|G].
    + unfold String_as_OT.eq in E. subst y. rewrite elem_of_cons. tauto.
    + rewrite !elem_of_cons. tauto.
    + rewrite !elem_of_cons, IH. tauto.
Qed.

Lemma elem_of_unique keys x : x ∈ unique keys ↔ x ∈ keys.
Proof.
  induction keys as [|k keys IH]; simpl; [done|].
  rewrite elem_of_unique_insert, elem_of_cons, IH. done.
Qed.

Lemma unique_insert_sorted k l :
  StronglySorted String_as_OT.lt l → StronglySorted String_as_OT.lt (unique_insert k l).
Proof.
  induction 1 as [|y l Hs IH Hall]; simpl.
  - repeat constructor.
  - destruct (String_as_OT.compare_spec k y) as [E|L|G].
    + by constructor.
    + constructor; [by constructor|]. constructor; [done|].
      eapply Forall_impl; [exact Hall|]. intros z Hz. simpl in Hz.
      by etransitivity.
    + constructor; [done|]. apply Forall_forall. intros z Hz.
      apply elem_of_unique_insert in Hz as [->|Hz]; [done|].
      rewrite Forall_forall in Hall. auto.
Qed.

Lemma unique_sorted keys : StronglySorted String_as_OT.lt (unique keys).
Proof.
  induction keys; simpl; [constructor|]. by apply unique_insert_sorted.
Qed.

Lemma unique_NoDup keys : NoDup (unique keys).
Proof.
  generalize (unique_sorted keys). induction 1 as [|y l Hs IH Hall]; constructor; [|done].
  intros Hin. rewrite Forall_forall in Hall. apply Hall in Hin.
  by apply (irreflexivity String_as_OT.lt y).
Qed.

(** *** Counts and positions *)

Lemma key_count_pos keys k : k ∈ keys ↔ 0 < key_count keys k.
Proof.
  unfold key_count. induction keys as [|x keys IH]; simpl.
  - rewrite elem_of_nil. split; [done|]. simpl. lia.
  - rewrite filter_cons, elem_of_cons. destruct (decide (x = k)) as [->|]; simpl.
    + split; [lia|auto].
    + rewrite <- IH. split; [intros [->|]; done|auto].
Qed.

Lemma key_count_two keys k i j :
  i ≠ j → keys !! i = Some k → keys !! j = Some k → 2 ≤ key_count keys k.
Proof.
  unfold key_count. revert i j. induction keys as [|x keys IH]; intros i j Hne Hi Hj; [done|].
  rewrite filter_cons. destruct i as [|i], j as [|j]; simpl in *; try done.
  - injection Hi as ->. rewrite decide_True by done. simpl.
    apply list_elem_of_lookup_2, key_count_pos in Hj. unfold key_count in Hj. lia.
  - injection Hj as ->. rewrite decide_True by done. simpl.
    apply list_elem_of_lookup_2, key_count_pos in Hi. unfold key_count in Hi. lia.
  - assert (2 ≤ length (filter (λ x, x = k) keys)) by (eapply (IH i j); eauto).
    destruct (decide (x = k)); simpl; lia.
Qed.

Lemma key_count_NoDup keys k : NoDup keys → k ∈ keys → key_count keys k = 1.
Proof.
  intros Hnd Hin.
  assert (0 < key_count keys k) by (by apply key_count_pos).
  destruct (decide (2 ≤ key_count keys k)) as [H2|]; [|lia].
  exfalso. clear H.
  unfold key_count in H2. induction Hnd as [|x keys Hx Hnd IH].
  - simpl in H2. lia.
  - rewrite filter_cons in H2. destruct (decide (x = k)) as [->|Hne]; simpl in H2.
    + assert (0 < key_count keys k) as Hp by (unfold key_count; lia).
      apply key_count_pos in Hp. done.
    + apply IH; [|done]. apply elem_of_cons in Hin as [->|]; done.
Qed.

Lemma elem_of_flatnonzero keys k i : i ∈ flatnonzero keys k ↔ keys !! i = Some k.
Proof.
  unfold flatnonzero. rewrite list_elem_of_filter, elem_of_seq.
  split; [tauto|]. intros H. split; [done|].
  apply lookup_lt_Some in H. lia.
Qed.

Lemma flatnonzero_NoDup keys k : NoDup (flatnonzero keys k).
Proof. apply NoDup_filter, NoDup_seq. Qed.

Lemma filter_seq_split (P : nat → Prop) `{∀ x, Decision (P x)} a n pre i rest :
  filter P (seq a n) = pre ++ i :: rest →
  Forall (λ q, q < i) pre ∧ Forall (λ q, i < q) rest.
Proof.
  revert a pre. induction n as [|n IH]; intros a pre E; simpl in E.
  - by destruct pre.
  - rewrite filter_cons in E. destruct (decide (P a)).
    + destruct pre as [|q0 pre]; simpl in E; injection E as -> E.
      * split; [constructor|]. apply Forall_forall. intros q Hq.
        assert (q ∈ filter P (seq (S i) n)) as Hq' by (by rewrite E).
        apply list_elem_of_filter in Hq' as [_ Hq']. apply elem_of_seq in Hq'. lia.
      * destruct (IH _ _ E) as [Hpre Hrest]. split; [|done].
        constructor; [|done].
        assert (i ∈ filter P (seq (S q0) n)) as Hq'.
        { rewrite E. apply elem_of_app. right. apply elem_of_cons. by left. }
        apply list_elem_of_filter in Hq' as [_ Hq']. apply elem_of_seq in Hq'. lia.
    + by apply IH in E.
Qed.

Lemma foldl_split_ind {A B} (f : A → B → A) (P : list B → A → Prop) (l : list B) (a : A) :
  P [] a →
  (∀ pre x rest st, l = pre ++ x :: rest → P pre st → P (pre ++ [x]) (f st x)) →
  P l (foldl f a l).
Proof.
  intros H0 Hstep.
  assert (∀ rest pre st, l = pre ++ rest → P pre st → P l (foldl f st rest)) as Hgen.
  { induction rest as [|x rest IH]; intros pre st E HP; simpl.
    - by rewrite E, app_nil_r.
    - apply (IH (pre ++ [x])).
      + by rewrite <- app_assoc.
      + by eapply Hstep. }
  by apply (Hgen l []).
Qed.

Section Unique.

Variable orig : list string.

Lemma rename_step_inv key later idxs pre i rest st :
  key_count orig key ≠ 1 → NoDup idxs →
  idxs = pre ++ i :: rest →
  inv_pass orig key later idxs pre st →
  inv_pass orig key later idxs (pre ++ [i]) (rename_step key st i).
Proof.
  intros Hdup Hnd E [Htodo Hheld Htwice Hlen Hsingle].
  assert (i ∈ idxs) as Hi by (rewrite E, elem_of_app, elem_of_cons; auto).
  assert (i ∉ pre) as Hipre.
  { rewrite E in Hnd. apply NoDup_app in Hnd as (_ & Hnd & _).
    intros Hin. apply (Hnd i Hin). apply elem_of_cons. by left. }
  assert (st_keys st !! i = Some key) as Hki by auto.
  assert (∀ j, (j ∉ pre ++ [i]) ↔ (j ∉ pre) ∧ j ≠ i) as Hnotin.
  { intros j. rewrite elem_of_app, list_elem_of_singleton. tauto. }
  unfold rename_step. destruct (decide (key ∈ st_reserved st)) as [Hres|Hfree].
  - destruct (next_suffix_spec (st_reserved st) key (st_suffix st)) as (_ & Hnew & _).
    set (name := suffixed key (next_suffix (st_reserved st) key (st_suffix st))) in *.
    assert (i < length (st_keys st)) as Hlt by (by eapply lookup_lt_Some).
    split; simpl.
    + intros j Hj Hjp. apply Hnotin in Hjp as [Hjp Hji].
      rewrite list_lookup_insert_ne by done. auto.
    + intros j k Hj. destruct (decide (i = j)) as [<-|Hji].
      * rewrite list_lookup_insert_eq in Hj by done. injection Hj as <-.
        left. apply elem_of_union. left. by apply elem_of_singleton.
      * rewrite list_lookup_insert_ne in Hj by done.
        destruct (Hheld j k Hj) as [?|[?|(-> & ? & ?)]].
        -- left. apply elem_of_union. by right.
        -- auto.
        -- right. right. rewrite Hnotin. auto.
    + intros j1 j2 k Hne H1 H2.
      assert (∀ j, j ≠ i → st_keys st !! j = Some name → name ∈ later) as Hfresh.
      { intros j Hji Hj. destruct (Hheld j name Hj) as [?|[?|(Hk & _)]]; [done|done|].
        by apply suffixed_ne in Hk. }
      destruct (decide (i = j1)) as [<-|Hn1]; [|destruct (decide (i = j2)) as [<-|Hn2]].
      * rewrite list_lookup_insert_eq in H1 by done. injection H1 as <-.
        rewrite list_lookup_insert_ne in H2 by done. left. eauto.
      * rewrite list_lookup_insert_eq in H2 by done. injection H2 as <-.
        rewrite list_lookup_insert_ne in H1 by done. left. eauto.
      * rewrite list_lookup_insert_ne in H1, H2 by done.
        destruct (Htwice j1 j2 k Hne H1 H2) as [?|(-> & Hor)]; [auto|].
        right. split; [done|]. rewrite !Hnotin.
        destruct Hor as [[? ?]|[? ?]]; [left|right]; repeat split; auto.
    + by rewrite length_insert.
    + intros j k Hj Hc. destruct (decide (i = j)) as [<-|Hji].
      * specialize (Hsingle _ _ Hj Hc). congruence.
      * rewrite list_lookup_insert_ne by done. auto.
  - split; simpl.
    + intros j Hj Hjp. apply Hnotin in Hjp as [Hjp Hji]. auto.
    + intros j k Hj. destruct (Hheld j k Hj) as [?|[?|(-> & ? & ?)]].
      * left. apply elem_of_union. by right.
      * auto.
      * destruct (decide (j = i)) as [->|].
        -- left. apply elem_of_union. left. by apply elem_of_singleton.
        -- right. right. rewrite Hnotin. auto.
    + intros j1 j2 k Hne H1 H2.
      destruct (Htwice j1 j2 k Hne H1 H2) as [?|(-> & Hor)]; [auto|].
      assert (∀ j, j ≠ i → st_keys st !! j = Some key → key ∈ later ∨ (j ∈ idxs ∧ j ∉ pre ++ [i])) as Hother.
      { intros j Hji Hj. destruct (Hheld j key Hj) as [?|[?|(_ & ? & ?)]]; [done|auto|].
        right. rewrite Hnotin. auto. }
      destruct (decide (j1 = i)) as [->|Hn1].
      * destruct (Hother j2) as [?|?]; auto.
      * destruct (Hother j1) as [?|?]; auto.
    + done.
    + done.
Qed.

Lemma rename_pass_inv key later st :
  key_count orig key ≠ 1 →
  inv orig (key :: later) st → inv orig later (rename_pass st key).
Proof.
  intros Hdup [Hheld Htwice Hlen Hsingle]. unfold rename_pass.
  set (idxs := flatnonzero (st_keys st) key).
  assert (inv_pass orig key later idxs idxs
            (foldl (rename_step key) (State (st_keys st) (st_reserved st) 1) idxs)) as [T H1 H2 H3 H4].
  { apply (foldl_split_ind (rename_step key) (inv_pass orig key later idxs)).
    - split; simpl; [| | |done|done].
      + intros i Hi _. by apply elem_of_flatnonzero.
      + intros i k Hi. destruct (Hheld i k Hi) as [?|Hk]; [auto|].
        apply elem_of_cons in Hk as [->|?]; [|auto].
        right. right. split; [done|]. split; [by apply elem_of_flatnonzero|apply not_elem_of_nil].
      + intros i j k Hne Hi Hj. specialize (Htwice i j k Hne Hi Hj).
        apply elem_of_cons in Htwice as [->|?]; [|auto].
        right. split; [done|]. left. split; [by apply elem_of_flatnonzero|apply not_elem_of_nil].
    - intros pre x rest st' E HP. eapply rename_step_inv; eauto. apply flatnonzero_NoDup. }
  split; [| |done|done].
  - intros i k Hi. destruct (H1 i k Hi) as [?|[?|(_ & ? & ?)]]; auto. done.
  - intros i j k Hne Hi Hj. destruct (H2 i j k Hne Hi Hj) as [?|(_ & [[? ?]|[? ?]])]; done.
Qed.

Lemma rename_passes_inv later st :
  Forall (λ key, key_count orig key ≠ 1) later →
  inv orig later st → inv orig [] (foldl rename_pass st later).
Proof.
  revert st. induction later as [|key later IH]; intros st Hall Hinv; simpl; [done|].
  apply Forall_cons in Hall as [Hk Hall].
  apply IH; [done|]. by apply rename_pass_inv.
Qed.

End Unique.

Lemma dedup_inv keys :
  ∃ st, dedup keys = st_keys st ∧ inv keys [] st.
Proof.
  unfold dedup. eexists. split; [reflexivity|].
  apply rename_passes_inv.
  - apply Forall_forall. intros k Hk. by apply list_elem_of_filter in Hk as [? _].
  - split; simpl; [| |done|done].
    + intros i k Hi. assert (k ∈ unique keys) as Hu.
      { apply elem_of_unique. by eapply list_elem_of_lookup_2. }
      destruct (decide (key_count keys k = 1)).
      * left. apply elem_of_list_to_set, list_elem_of_filter. done.
      * right. apply list_elem_of_filter. done.
    + intros i j k Hne Hi Hj. apply list_elem_of_filter. split.
      * pose proof (key_count_two keys k i j Hne Hi Hj). lia.
      * apply elem_of_unique. by eapply list_elem_of_lookup_2.
Qed.

Lemma dedup_NoDup keys : NoDup (dedup keys).
Proof.
  destruct (dedup_inv keys) as (st & -> & [_ Htwice _ _]).
  apply NoDup_alt. intros i j k Hi Hj.
  destruct (decide (i = j)) as [|Hne]; [done|].
  by apply (Htwice i j k Hne Hi) in Hj; apply elem_of_nil in Hj.
Qed.

Lemma dedup_length keys : length (dedup keys) = length keys.
Proof. by destruct (dedup_inv keys) as (st & -> & [_ _ ? _]). Qed.

Lemma dedup_single keys i k :
  keys !! i = Some k → key_count keys k = 1 → dedup keys !! i = Some k.
Proof. destruct (dedup_inv keys) as (st & -> & [_ _ _ ?]). auto. Qed.

Lemma dedup_NoDup_id keys : NoDup keys → dedup keys = keys.
Proof.
  intros Hnd. apply list_eq. intros i.
  destruct (keys !! i) as [k|] eqn:Hk.
  - apply dedup_single; [done|]. apply key_count_NoDup; [done|].
    by eapply list_elem_of_lookup_2.
  - apply lookup_ge_None. rewrite dedup_length. by apply lookup_ge_None.
Qed.

Lemma strip_prefix_app p s : strip_prefix p (p +:+ s) = Some s.
Proof. induction p as [|a p IH]; simpl; [done|]. by rewrite Ascii.eqb_refl. Qed.

Lemma is_suffixed_of_suffixed k n : is_suffixed_of k (suffixed k n) = true.
Proof.
  assert (∀ d, suffixed k n = d → strip_prefix (k +:+ "-") d
            = Some (NilEmpty.string_of_uint (Nat.to_uint n))) as E.
  { intros d <-. unfold suffixed. induction k as [|a k IH]; simpl; [done|].
    by rewrite Ascii.eqb_refl. }
  unfold is_suffixed_of. rewrite (E _ eq_refl), NilEmpty.usu, Unsigned.of_to.
  apply String.eqb_refl.
Qed.

Lemma regular_spec keys k k' n :
  regular keys = true → k ∈ duplicated keys → k' ∈ duplicated keys →
  k ≠ suffixed k' n.
Proof.
  unfold regular. rewrite forallb_forall. intros H Hk Hk' ->.
  apply list_elem_of_In in Hk, Hk'.
  specialize (H _ Hk). rewrite forallb_forall in H. specialize (H _ Hk').
  by rewrite is_suffixed_of_suffixed in H.
Qed.

Section Regular.

Variable orig : list string.
Hypothesis Hreg : regular orig = true.

Lemma duplicated_count k : k ∈ duplicated orig → key_count orig k ≠ 1.
Proof. intros H. by apply list_elem_of_filter in H as [? _]. Qed.

Lemma settled_insert keys K p i F Ki :
  settled orig keys K p → orig !! p = Some K → orig !! i = Some Ki →
  key_count orig Ki ≠ 1 → K ≠ Ki ∨ p < i →
  settled orig (<[i := F]> keys) K p.
Proof.
  intros Hs Hp Hi Hc Hor.
  assert (p ≠ i) as Hpi.
  { intros ->. destruct Hor as [?|?]; [congruence|lia]. }
  destruct Hs as [[Hf Hk]|(Hnf & n & Hn & Hk & Hmin)].
  - left. split; [done|]. by rewrite list_lookup_insert_ne.
  - right. split; [done|]. exists n. split; [done|].
    split; [by rewrite list_lookup_insert_ne|].
    intros m Hm. destruct (Hmin m Hm) as (q & Hq & Hw). exists q.
    split; [|done]. rewrite list_lookup_insert_ne; [done|].
    intros <-. destruct Hw as [[Ho Hc1]|[Ho Hlt]].
    + rewrite Ho in Hi. injection Hi as <-. done.
    + rewrite Ho in Hi. injection Hi as <-. destruct Hor; [done|lia].
Qed.

Lemma rename_step_rinv K done later idxs pre i rest st :
  K ∈ duplicated orig → (∀ k, k ∈ done → k ∈ duplicated orig) →
  (∀ k, k ∈ later → k ∈ duplicated orig) →
  K ∉ done → K ∉ later →
  (∀ q, q ∈ idxs ↔ orig !! q = Some K) →
  Forall (λ q, q < i) pre → Forall (λ q, i < q) rest →
  idxs = pre ++ i :: rest →
  rinv_pass orig K done later pre st →
  rinv_pass orig K done later (pre ++ [i]) (rename_step K st i).
Proof.
  intros HK Hdone Hlater HKd HKl Hidx Hlt Hgt E [Hkeep Hsettled Hres Hback [Hs1 Hsuf] Hclaim].
  assert (key_count orig K ≠ 1) as HcK by (by apply duplicated_count).
  assert (i ∈ idxs) as Hi by (rewrite E, elem_of_app, elem_of_cons; auto).
  assert (orig !! i = Some K) as Hoi by (by apply Hidx).
  assert (i ∉ pre) as Hipre.
  { intros Hin. rewrite Forall_forall in Hlt. apply Hlt in Hin. lia. }
  assert (st_keys st !! i = Some K) as Hki by (apply Hkeep; auto).
  assert (∀ j, j ∈ pre ++ [i] ↔ j ∈ pre ∨ j = i) as Hin.
  { intros j. rewrite elem_of_app, list_elem_of_singleton. tauto. }
  assert (pre ++ [i] ≠ []) as Hne by (by destruct pre).
  unfold rename_step. destruct (decide (K ∈ st_reserved st)) as [HKres|HKfree].
  - destruct (next_suffix_spec (st_reserved st) K (st_suffix st)) as (Hge & Hnew & Hrun).
    set (n := next_suffix (st_reserved st) K (st_suffix st)) in *.
    assert (i < length (st_keys st)) as Hilt by (by eapply lookup_lt_Some).
    assert (∀ m, 1 ≤ m < n → suffixed K m ∈ st_reserved st) as Hall.
    { intros m Hm. destruct (decide (m < st_suffix st)); [apply Hsuf; lia|apply Hrun; lia]. }
    split; simpl.
    + intros j k Hj Hor. rewrite list_lookup_insert_ne.
      * apply Hkeep; [done|]. destruct Hor as [?|[?|[-> Hnot]]]; auto.
        right. right. split; [done|]. intros ?. apply Hnot, Hin. auto.
      * intros <-. rewrite Hoi in Hj. injection Hj as <-.
        destruct Hor as [?|[?|[_ Hnot]]]; try done. apply Hnot, Hin. auto.
    + intros j k Hj Hor.
      destruct (decide (j = i)) as [->|Hji].
      * rewrite Hoi in Hj. injection Hj as <-.
        right. split.
        -- intros Hf. destruct pre as [|q pre']; [by apply Hclaim in HKres|].
           apply (Hf q).
           ++ apply Forall_cons in Hlt as [? _]. done.
           ++ apply Hidx. rewrite E. apply elem_of_cons. by left.
        -- exists n. split; [lia|]. split; [by rewrite list_lookup_insert_eq|].
           intros m Hm. destruct (Hres _ (Hall m Hm)) as (q & k & Hoq & Hkq & Hcase).
           exists q.
           assert (q ≠ i) as Hqi.
           { intros ->. rewrite Hoi in Hoq. injection Hoq as <-.
             destruct Hcase as [?|[?|[_ ?]]]; done. }
           split; [by rewrite list_lookup_insert_ne|].
           destruct Hcase as [Hc|[Hd|[-> Hqp]]].
           ++ left. assert (st_keys st !! q = Some k) as Hk' by (apply Hkeep; auto).
              rewrite Hkq in Hk'. injection Hk' as <-. done.
           ++ exfalso. destruct (Hsettled q k Hoq (or_introl Hd)) as [[_ Hk']|(_ & n' & _ & Hk' & _)].
              ** rewrite Hkq in Hk'. injection Hk' as <-.
                 apply (regular_spec orig (suffixed K m) K m Hreg); [by apply Hdone|done|done].
              ** rewrite Hkq in Hk'. injection Hk' as Hk'.
                 apply suffixed_inj in Hk' as [<- _]. done.
           ++ right. split; [done|]. rewrite Forall_forall in Hlt. auto.
      * assert (k ≠ K ∨ j < i) as Hor'.
        { destruct Hor as [Hd|[-> Hjp]]; [left; by intros ->|].
          right. apply Hin in Hjp as [Hjp|]; [|done]. rewrite Forall_forall in Hlt. auto. }
        eapply settled_insert; eauto.
        apply Hsettled; [done|]. destruct Hor as [?|[-> Hjp]]; [auto|].
        right. split; [done|]. apply Hin in Hjp as [?|?]; done.
    + intros r Hr. apply elem_of_union in Hr as [Hr|Hr].
      * apply elem_of_singleton in Hr as ->. exists i, K.
        split; [done|]. split; [by rewrite list_lookup_insert_eq|].
        right. right. split; [done|]. apply Hin. auto.
      * destruct (Hres r Hr) as (q & k & Hoq & Hkq & Hcase). exists q, k.
        split; [done|]. split.
        -- rewrite list_lookup_insert_ne; [done|]. intros <-.
           rewrite Hoi in Hoq. injection Hoq as <-.
           destruct Hcase as [?|[?|[_ ?]]]; done.
        -- destruct Hcase as [?|[?|[-> ?]]]; auto. right. right. split; [done|].
           apply Hin. auto.
    + intros j k Hj Hor. destruct (decide (i = j)) as [<-|Hji].
      * rewrite list_lookup_insert_eq in Hj by done. injection Hj as <-.
        exfalso. destruct Hor as [Hl|Hk].
        -- apply (regular_spec orig (suffixed K n) K n Hreg); [by apply Hlater|done|done].
        -- by apply suffixed_ne in Hk.
      * rewrite list_lookup_insert_ne in Hj by done. auto.
    + split; [lia|]. intros m Hm. apply elem_of_union. right. auto.
    + split; [done|]. intros _. apply elem_of_union. by right.
  - assert (pre = []) as ->.
    { destruct pre; [done|]. exfalso. apply HKfree, Hclaim. done. }
    split; simpl.
    + intros j k Hj Hor. apply Hkeep; [done|].
      destruct Hor as [?|[?|[-> Hnot]]]; auto. right. right. split; [done|]. apply not_elem_of_nil.
    + intros j k Hj Hor. destruct Hor as [Hd|[-> Hjp]]; [apply Hsettled; auto|].
      apply list_elem_of_singleton in Hjp as ->.
      left. split; [|done]. intros q Hq Hoq.
      apply Hidx in Hoq. rewrite E in Hoq. simpl in Hoq.
      apply elem_of_cons in Hoq as [->|Hoq]; [lia|].
      rewrite Forall_forall in Hgt. apply Hgt in Hoq. lia.
    + intros r Hr. apply elem_of_union in Hr as [Hr|Hr].
      * apply elem_of_singleton in Hr as ->. exists i, K.
        split; [done|]. split; [done|]. right. right. split; [done|].
        by apply list_elem_of_singleton.
      * destruct (Hres r Hr) as (q & k & Hoq & Hkq & Hcase). exists q, k.
        split; [done|]. split; [done|].
        destruct Hcase as [?|[?|[_ Hq]]]; auto. by apply elem_of_nil in Hq.
    + done.
    + split; [done|]. intros m Hm. apply elem_of_union. right. auto.
    + split; [done|]. intros _. apply elem_of_union. left. by apply elem_of_singleton.
Qed.

Lemma rename_pass_rinv K done later st :
  K ∈ duplicated orig → (∀ k, k ∈ done → k ∈ duplicated orig) →
  (∀ k, k ∈ later → k ∈ duplicated orig) →
  K ∉ done → K ∉ later →
  rinv orig done (K :: later) st →
  rinv orig (done ++ [K]) later (rename_pass st K).
Proof.
  intros HK Hdone Hlater HKd HKl [Hkeep Hsettled Hres Hback].
  assert (key_count orig K ≠ 1) as HcK by (by apply duplicated_count).
  unfold rename_pass. set (idxs := flatnonzero (st_keys st) K).
  assert (∀ q, q ∈ idxs ↔ orig !! q = Some K) as Hidx.
  { intros q. unfold idxs. rewrite elem_of_flatnonzero. split; intros Hq.
    - apply Hback; [done|]. apply elem_of_cons. by left.
    - apply Hkeep; [done|]. left. apply elem_of_cons. by left. }
  assert (rinv_pass orig K done later idxs
            (foldl (rename_step K) (State (st_keys st) (st_reserved st) 1) idxs))
    as [Pkeep Pdone Pres Pback _ _].
  { apply (foldl_split_ind (rename_step K) (rinv_pass orig K done later)).
    - split; simpl.
      + intros i k Hi Hor. apply Hkeep; [done|].
        destruct Hor as [?|[?|[-> _]]]; [left; apply elem_of_cons; auto|auto|].
        left. apply elem_of_cons. by left.
      + intros i k Hi [Hd|[_ Hin]]; [auto|]. by apply elem_of_nil in Hin.
      + intros r Hr. destruct (Hres r Hr) as (q & k & ? & ? & [?|?]); exists q, k; auto.
      + intros i k Hi Hor. apply Hback; [done|]. apply elem_of_cons.
        destruct Hor as [?| ->]; auto.
      + split; [done|]. intros; lia.
      + split; [|done]. intros HKres. exfalso.
        destruct (Hres K HKres) as (q & k & Hoq & Hkq & [Hc|Hd]).
        * assert (st_keys st !! q = Some k) as Hk' by (apply Hkeep; auto).
          rewrite Hkq in Hk'. injection Hk' as <-. done.
        * destruct (Hsettled q k Hoq Hd) as [[_ Hk']|(_ & n' & _ & Hk' & _)].
          -- rewrite Hkq in Hk'. injection Hk' as <-. done.
          -- rewrite Hkq in Hk'. injection Hk' as ->.
             apply (regular_spec orig (suffixed k n') k n' Hreg); auto.
    - intros pre x rest st' E HP.
      destruct (filter_seq_split _ _ _ _ _ _ E) as [Hlt Hgt].
      eapply rename_step_rinv; eauto. }
  split.
  - intros i k Hi Hor. apply Pkeep; [done|]. destruct Hor; auto.
  - intros i k Hi Hin. apply Pdone; [done|].
    apply elem_of_app in Hin as [?|Hin]; [auto|].
    apply list_elem_of_singleton in Hin as ->. right. split; [done|]. by apply Hidx.
  - intros r Hr. destruct (Pres r Hr) as (q & k & ? & ? & Hcase). exists q, k.
    split; [done|]. split; [done|].
    destruct Hcase as [?|[?|[-> _]]]; [auto|right; apply elem_of_app; auto|].
    right. apply elem_of_app. right. by apply list_elem_of_singleton.
  - intros i k Hi Hl. apply Pback; auto.
Qed.

Lemma rename_passes_rinv later : ∀ done st,
  NoDup (done ++ later) →
  (∀ k, k ∈ done ++ later → k ∈ duplicated orig) →
  rinv orig done later st →
  rinv orig (done ++ later) [] (foldl rename_pass st later).
Proof.
  induction later as [|K later IH]; intros done st Hnd Hdup Hinv; simpl.
  - by rewrite app_nil_r.
  - replace (done ++ K :: later) with ((done ++ [K]) ++ later) in * by (by rewrite <- app_assoc).
    apply IH; [done|done|].
    apply NoDup_app in Hnd as (Hnd1 & Hnd2 & _).
    apply NoDup_app in Hnd1 as (_ & Hnd1 & _).
    apply rename_pass_rinv.
    + apply Hdup. rewrite !elem_of_app, list_elem_of_singleton. auto.
    + intros k Hk. apply Hdup. rewrite !elem_of_app. auto.
    + intros k Hk. apply Hdup. rewrite !elem_of_app. auto.
    + intros Hin. apply (Hnd1 K Hin). by apply list_elem_of_singleton.
    + intros Hin. apply (Hnd2 K); [|done]. rewrite elem_of_app, list_elem_of_singleton. auto.
    + done.
Qed.

Lemma dedup_settled p K :
  orig !! p = Some K → key_count orig K ≠ 1 → settled orig (dedup orig) K p.
Proof.
  intros Hp Hc. unfold dedup.
  assert (rinv orig ([] ++ duplicated orig) []
            (foldl rename_pass
               (State orig (list_to_set (filter (λ k, key_count orig k = 1) (unique orig))) 1)
               (duplicated orig))) as [_ Hdone _ _].
  { apply rename_passes_rinv.
    - simpl. apply NoDup_filter, unique_NoDup.
    - done.
    - split; simpl.
      + done.
      + intros i k _ Hin. by apply elem_of_nil in Hin.
      + intros r Hr. apply elem_of_list_to_set, list_elem_of_filter in Hr as [Hc1 Hr].
        apply (proj1 (elem_of_unique _ _)) in Hr.
        apply list_elem_of_lookup_1 in Hr as [q Hq].
        exists q, r. split; [done|]. split; [done|]. by left.
      + done. }
  apply Hdone; [done|]. simpl. apply list_elem_of_filter. split; [done|].
  apply elem_of_unique. by eapply list_elem_of_lookup_2.
Qed.

End Regular.

(** ** Facts on the dictionary of columns *)

Lemma columns_get_Some t name a : columns_get t name = Some a → (name, a) ∈ t.
Proof.
  induction t as [|[k b] t IH]; simpl; [done|].
  destruct (decide (k = name)) as [->|].
  - intros [= ->]. apply elem_of_cons. by left.
  - intros H. apply elem_of_cons. right. auto.
Qed.

Lemma columns_get_None t name : columns_get t name = None ↔ name ∉ keys t.
Proof.
  unfold keys. induction t as [|[k b] t IH]; simpl.
  - split; [intros _; apply not_elem_of_nil|done].
  - rewrite not_elem_of_cons. destruct (decide (k = name)) as [->|Hne].
    + split; [done|]. intros [? _]. done.
    + rewrite IH. split; [intros; split; [congruence|done]|tauto].
Qed.

Lemma columns_get_elem t name a :
  NoDup (keys t) → (name, a) ∈ t → columns_get t name = Some a.
Proof.
  unfold keys. induction t as [|[k b] t IH]; simpl; intros Hnd Hin.
  - by apply elem_of_nil in Hin.
  - apply NoDup_cons in Hnd as [Hk Hnd].
    apply elem_of_cons in Hin as [[= -> ->]|Hin].
    + by rewrite decide_True.
    + rewrite decide_False; [auto|]. intros ->. apply Hk.
      apply list_elem_of_fmap. by exists (name, a).
Qed.

Lemma columns_set_new t name a :
  name ∉ keys t → columns_set t name a = t ++ [(name, a)].
Proof.
  unfold keys. induction t as [|[k b] t IH]; simpl; [done|].
  rewrite not_elem_of_cons. intros [Hne Hnot].
  rewrite decide_False by congruence. by rewrite IH.
Qed.

Lemma columns_set_keys t name a :
  keys (columns_set t name a) = if decide (name ∈ keys t) then keys t else keys t ++ [name].
Proof.
  unfold keys. induction t as [|[k b] t IH].
  - done.
  - cbn [columns_set]. destruct (decide (k = name)) as [->|Hne].
    + rewrite decide_True; [done|]. rewrite fmap_cons. apply elem_of_cons. by left.
    + rewrite !fmap_cons, IH. cbn [fst]. destruct (decide (name ∈ t.*1)).
      * rewrite decide_True; [done|]. apply elem_of_cons. by right.
      * rewrite decide_False; [done|]. rewrite not_elem_of_cons. split; [congruence|done].
Qed.

Lemma columns_set_values t name a b :
  b ∈ values (columns_set t name a) → b = a ∨ b ∈ values t.
Proof.
  unfold values. induction t as [|[k c] t IH]; simpl.
  - rewrite list_elem_of_singleton. auto.
  - destruct (decide (k = name)); simpl; rewrite !elem_of_cons; [tauto|].
    intros [?|?]; [auto|]. destruct IH; auto.
Qed.

Lemma columns_set_NoDup t name a : NoDup (keys t) → NoDup (keys (columns_set t name a)).
Proof.
  intros Hnd. rewrite columns_set_keys. destruct (decide (name ∈ keys t)); [done|].
  apply NoDup_app. split; [done|]. split; [|apply NoDup_singleton].
  intros x Hx Hx'. apply list_elem_of_singleton in Hx' as ->. done.
Qed.

Lemma columns_del_sub t name : columns_del t name ⊆ t.
Proof.
  induction t as [|[k c] t IH]; simpl; [done|].
  destruct (decide (k = name)).
  - intros x Hx. apply elem_of_cons. by right.
  - intros x Hx. apply elem_of_cons in Hx as [->|Hx]; apply elem_of_cons; auto.
Qed.

Lemma columns_del_NoDup t name : NoDup (keys t) → NoDup (keys (columns_del t name)).
Proof.
  unfold keys. induction t as [|[k c] t IH]; simpl; [done|].
  intros Hnd. apply NoDup_cons in Hnd as [Hk Hnd].
  destruct (decide (k = name)); [done|]. simpl.
  apply NoDup_cons. split; [|auto]. intros Hin. apply Hk.
  apply list_elem_of_fmap in Hin as (x & -> & Hx). apply list_elem_of_fmap.
  exists x. split; [done|]. by apply columns_del_sub in Hx.
Qed.

(** ** The shapes of the columns *)

Lemma check_shapes_Ok columns value :
  check_shapes columns value = Ok tt ↔ Forall (λ c, alen c = alen value) columns.
Proof.
  induction columns as [|c columns IH]; simpl.
  - split; [constructor|done].
  - destruct (decide (alen c ≠ alen value)) as [Hne|He].
    + split; [done|]. intros H. apply Forall_cons in H as [? _]. done.
    + rewrite IH, Forall_cons. split; [|tauto]. intros. split; [|done].
      destruct (decide (alen c = alen value)); [done|]. by destruct He.
Qed.

Lemma check_shapes_cases columns value :
  check_shapes columns value = Ok tt ∨
  ∃ c, c ∈ columns ∧ alen c ≠ alen value ∧
       check_shapes columns value = Raise (ValueError (ExpectedReceived (alen c) (alen value))).
Proof.
  induction columns as [|c columns IH]; simpl; [by left|].
  destruct (decide (alen c ≠ alen value)) as [Hne|He].
  - right. exists c. split; [apply elem_of_cons; by left|done].
  - destruct IH as [?|(c' & ? & ? & ?)]; [by left|]. right. exists c'.
    split; [apply elem_of_cons; by right|done].
Qed.

Lemma wf_nil : wf_table [].
Proof. split; [constructor|]. intros a b Ha. by apply elem_of_nil in Ha. Qed.

Lemma columns_set_wf t name a :
  wf_table t → Forall (λ c, alen c = alen a) (values t) → wf_table (columns_set t name a).
Proof.
  intros [Hnd Hsame] Hall. split; [by apply columns_set_NoDup|].
  rewrite Forall_forall in Hall.
  assert (∀ b, b ∈ values (columns_set t name a) → alen b = alen a) as Hb.
  { intros b Hb. apply columns_set_values in Hb as [->|Hb]; auto. }
  intros b c Hb' Hc'. rewrite (Hb b), (Hb c); done.
Qed.

Lemma columns_del_wf t name : wf_table t → wf_table (columns_del t name).
Proof.
  intros [Hnd Hsame]. split; [by apply columns_del_NoDup|].
  assert (∀ b, b ∈ values (columns_del t name) → b ∈ values t) as Hsub.
  { unfold values. intros b Hb. apply list_elem_of_fmap in Hb as (x & -> & Hx).
    apply list_elem_of_fmap. exists x. split; [done|]. by apply columns_del_sub in Hx. }
  intros b c Hb Hc. apply Hsame; auto.
Qed.

(** ** Assignment and deletion keep a table well formed *)

Ltac run_in H :=
  unfold bind, raise, ret, item, on_store, get_table, put_table in H; simpl in H.

Lemma keeps_ret {A} (x : A) : keeps (ret x).
Proof. by intros w w' r [= <- <-]. Qed.

Lemma keeps_raise {A} e : keeps (@raise world A e).
Proof. by intros w w' r [= <- <-]. Qed.

Lemma keeps_item l i : keeps (@item world l i).
Proof. unfold item. destruct (l !! i); [apply keeps_ret|apply keeps_raise]. Qed.

Lemma keeps_get_table : keeps get_table.
Proof. by intros w w' r [= <- <-]. Qed.

Lemma keeps_on_store {A} (m : M store A) : keeps (on_store m).
Proof.
  intros w w' r. unfold on_store. destruct (m w.1) as [s' r'] eqn:E.
  by intros [= <- <-].
Qed.

Lemma keeps_bind {A B} (m : M world A) (k : A → M world B) :
  keeps m → (∀ x, keeps (k x)) → keeps (bind m k).
Proof.
  intros Hm Hk w w' r. unfold bind. destruct (m w) as [w1 [x|e]] eqn:E.
  - intros H. apply Hk in H. apply Hm in E. congruence.
  - intros [= <- <-]. by apply Hm in E.
Qed.

Lemma Table_setitem_table index value w w' r :
  Table_setitem index value w = (w', r) →
  w'.2 = w.2 ∨
  ∃ name a, index = IAtom (AStr name) ∧ r = Ok tt ∧
            Forall (λ c, alen c = alen a) (values w.2) ∧
            w'.2 = columns_set w.2 name a.
Proof.
  destruct index as [[name| | | | |]|l];
    try (intros H; left; by apply keeps_raise in H).
  - destruct w as [s t]. unfold Table_setitem. intros H. run_in H.
    destruct (ma_array name value s) as [s1 [a|e]] eqn:Ema; simpl in H;
      [|injection H as <- <-; by left].
    destruct (check_shapes (values t) a) as [[]|e] eqn:Ecs; simpl in H;
      injection H as <- <-; [|by left].
    right. exists name, a. split; [done|]. split; [done|]. split; [|done].
    by apply check_shapes_Ok.
  - intros H. left. revert H. apply keeps_bind; [apply keeps_item|].
    intros i0. destruct i0; try apply keeps_raise.
    apply keeps_bind; [apply keeps_item|].
    intros i1. destruct i1; try apply keeps_raise;
      destruct l as [|? [|? [|? ?]]]; try apply keeps_raise;
      (apply keeps_bind; [apply keeps_get_table|]);
      intros t'; destruct (columns_get t' s);
      try apply keeps_on_store; apply keeps_raise.
Qed.

Lemma Table_setitem_wf index value w w' r :
  Table_setitem index value w = (w', r) → wf_table w.2 → wf_table w'.2.
Proof.
  intros H Hwf. apply Table_setitem_table in H as [->|(name & a & _ & _ & Hall & ->)]; [done|].
  by apply columns_set_wf.
Qed.

Lemma Table_delitem_wf key w w' r :
  Table_delitem key w = (w', r) → wf_table w.2 → wf_table w'.2.
Proof.
  destruct w as [s t]. unfold Table_delitem. intros H Hwf.
  destruct key as [[name| | | | |]|l]; run_in H;
    try (injection H as <- <-; done).
  - destruct (columns_get t name); injection H as <- <-; [|done].
    simpl. by apply columns_del_wf.
  - destruct (existsb _ l); by injection H as <- <-.
Qed.

Lemma forM_cons_run {S A} (f : A → M S unit) x l w :
  forM_ f (x :: l) w =
  match f x w with
  | (w1, Ok _) => forM_ f l w1
  | (w1, Raise e) => (w1, Raise e)
  end.
Proof. reflexivity. Qed.

Lemma forM_setitem_wf (kvs : list (string * pyvalue)) w w' r :
  forM_ (λ kv, Table_setitem (IAtom (AStr kv.1)) kv.2) kvs w = (w', r) →
  wf_table w.2 → wf_table w'.2.
Proof.
  revert w. induction kvs as [|kv kvs IH]; intros w H Hwf.
  - by injection H as <- <-.
  - rewrite forM_cons_run in H.
    destruct (Table_setitem (IAtom (AStr kv.1)) kv.2 w) as [w1 [[]|e]] eqn:E.
    + eapply IH; [exact H|]. eapply Table_setitem_wf; eauto.
    + injection H as <- <-. eapply Table_setitem_wf; eauto.
Qed.

Lemma Table_store_wf names columns s s' t :
  Table_store names columns s = (s', Ok t) → wf_table t.
Proof.
  unfold Table_store, with_table.
  destruct (forM_ _ _ _) as [[s1 t1] [[]|e]] eqn:E; intros [= <- <-].
  apply forM_setitem_wf in E; [done|apply wf_nil].
Qed.

Lemma Table_setitem_name_Ok name value w w' :
  Table_setitem (IAtom (AStr name)) value w = (w', Ok tt) →
  ∃ a s1, ma_array name value w.1 = (s1, Ok a) ∧
          w' = (s1, columns_set w.2 name a) ∧
          Forall (λ c, alen c = alen a) (values w.2).
Proof.
  destruct w as [s t]. unfold Table_setitem. intros H. run_in H.
  destruct (ma_array name value s) as [s1 [a|e]] eqn:Ema; simpl in H; [|done].
  destruct (check_shapes (values t) a) as [[]|e] eqn:Ecs; simpl in H; [|done].
  injection H as <-. exists a, s1. split; [done|]. split; [done|].
  by apply check_shapes_Ok.
Qed.

Lemma forM_setitem_keys (kvs : list (string * pyvalue)) w w' :
  forM_ (λ kv, Table_setitem (IAtom (AStr kv.1)) kv.2) kvs w = (w', Ok tt) →
  NoDup (keys w.2 ++ kvs.*1) →
  keys w'.2 = keys w.2 ++ kvs.*1.
Proof.
  revert w. induction kvs as [|kv kvs IH]; intros w H Hnd.
  - injection H as <-. by rewrite app_nil_r.
  - rewrite forM_cons_run in H.
    destruct (Table_setitem (IAtom (AStr kv.1)) kv.2 w) as [w1 [[]|e]] eqn:E; [|done].
    apply Table_setitem_name_Ok in E as (a & s1 & _ & -> & _).
    rewrite fmap_cons in Hnd.
    assert (kv.1 ∉ keys w.2) as Hnew.
    { apply NoDup_app in Hnd as (_ & Hnd & _). intros Hin.
      apply (Hnd _ Hin). apply elem_of_cons. by left. }
    apply IH in H; simpl in *.
    + rewrite H, columns_set_keys, decide_False by done.
      by rewrite <- app_assoc.
    + rewrite columns_set_keys, decide_False by done.
      by rewrite <- app_assoc.
Qed.

Lemma Table_store_keys names columns s s' t :
  Table_store names columns s = (s', Ok t) →
  length names ≤ length columns →
  keys t = dedup names.
Proof.
  unfold Table_store, with_table.
  destruct (forM_ _ _ _) as [[s1 t1] [[]|e]] eqn:E; intros [= <- <-] Hlen.
  apply forM_setitem_keys in E; simpl in *.
  - rewrite E. apply fst_zip. by rewrite dedup_length.
  - rewrite fst_zip by (by rewrite dedup_length). apply dedup_NoDup.
Qed.

(** ** Slices *)

Lemma range_empty first last : (last ≤ first)%Z → range first last 1 = [].
Proof.
  intros H. unfold range, range_count. simpl.
  destruct (first <? last)%Z eqn:E; [|done]. apply Z.ltb_lt in E. lia.
Qed.

Lemma range_unit first last :
  (0 ≤ first)%Z → (first ≤ last)%Z →
  range first last 1 = seq (Z.to_nat first) (Z.to_nat (last - first)).
Proof.
  intros H0 H. destruct (decide (first = last)) as [->|Hne].
  - rewrite range_empty by lia. by rewrite Z.sub_diag.
  - unfold range, range_count. simpl.
    destruct (first <? last)%Z eqn:E; [|apply Z.ltb_ge in E; lia].
    rewrite Z.div_1_r.
    replace (Z.to_nat (last - first - 1 + 1)) with (Z.to_nat (last - first)) by lia.
    apply list_eq. intros k. rewrite list_lookup_fmap.
    destruct (decide (k < Z.to_nat (last - first))) as [Hk|Hk].
    + rewrite !lookup_seq_lt by done. simpl. f_equal. lia.
    + rewrite !lookup_seq_ge by lia. done.
Qed.

Lemma slice_positions_all n : slice_positions slice_all n = Some (seq 0 n).
Proof.
  unfold slice_positions, slice_all. simpl. f_equal.
  rewrite range_unit by lia. f_equal. lia.
Qed.

Lemma slice_positions_one n i : slice_positions (slice_one i) n = Some (one_row n i).
Proof.
  unfold slice_positions, slice_one, one_row. simpl. f_equal.
  destruct (0 <=? i)%Z eqn:E0; destruct (i <? Z.of_nat n)%Z eqn:E1;
    destruct (- Z.of_nat n <=? i)%Z eqn:E2; destruct (i <? -1)%Z eqn:E3;
    destruct (i <? 0)%Z eqn:E4; destruct (i + 1 <? 0)%Z eqn:E5; simpl;
    repeat match goal with
           | H : (_ <=? _)%Z = true |- _ => apply Z.leb_le in H
           | H : (_ <=? _)%Z = false |- _ => apply Z.leb_gt in H
           | H : (_ <? _)%Z = true |- _ => apply Z.ltb_lt in H
           | H : (_ <? _)%Z = false |- _ => apply Z.ltb_ge in H
           end; try lia.
  all: try (rewrite range_empty by lia; reflexivity).
  all: rewrite range_unit by lia.
  all: match goal with
       | |- seq ?a ?b = [?c] => replace b with 1 by lia; replace a with c by lia; reflexivity
       | |- seq ?a ?b = [] => replace b with 0 by lia; reflexivity
       end.
Qed.

(** ** Views *)

Lemma omap_lookup_seq {A} (l : list A) k n :
  k + n ≤ length l → omap (λ p, l !! p) (seq k n) = take n (drop k l).
Proof.
  revert k. induction n as [|n IH]; intros k Hk; simpl; [done|].
  destruct (l !! k) as [x|] eqn:E.
  - rewrite IH by lia. rewrite (drop_S l x k E). done.
  - apply lookup_ge_None in E. lia.
Qed.

Lemma view_all a : view a (seq 0 (alen a)) = a.
Proof.
  destruct a as [b ps]. unfold view, alen. simpl. f_equal.
  rewrite omap_lookup_seq by (simpl; lia). by rewrite drop_0, firstn_all.
Qed.

Lemma alen_view_same a b ps : alen a = alen b → alen (view a ps) = alen (view b ps).
Proof.
  unfold alen, view. simpl. intros H. induction ps as [|p ps IH]; simpl; [done|].
  destruct (positions a !! p) as [x|] eqn:Ea; destruct (positions b !! p) as [y|] eqn:Eb;
    simpl.
  - f_equal. exact IH.
  - apply lookup_lt_Some in Ea. apply lookup_ge_None in Eb. lia.
  - apply lookup_lt_Some in Eb. apply lookup_ge_None in Ea. lia.
  - exact IH.
Qed.

Lemma cells_lookup s a b i :
  s !! buffer a = Some b → Forall (λ p, p < length b) (positions a) →
  cells s a !! i = positions a !! i ≫= (λ p, b !! p).
Proof.
  unfold cells. intros -> Hall. revert i.
  induction Hall as [|p ps Hp Hall IH]; intros i; simpl; [done|].
  destruct (b !! p) as [c|] eqn:E; [|apply lookup_ge_None in E; lia].
  destruct i; simpl; [done|apply IH].
Qed.

Lemma cells_length s a : valid s a → length (cells s a) = alen a.
Proof.
  intros (b & Hb & Hall). unfold cells, alen. rewrite Hb.
  induction Hall as [|p ps Hp Hall IH]; simpl; [done|].
  destruct (b !! p) as [c|] eqn:E; [|apply lookup_ge_None in E; lia].
  simpl. f_equal. exact IH.
Qed.

Lemma cells_view s a ps :
  valid s a → cells s (view a ps) = omap (λ p, cells s a !! p) ps.
Proof.
  intros (b & Hb & Hall). unfold cells at 1. simpl. rewrite Hb.
  induction ps as [|p ps IH]; simpl; [done|].
  rewrite (cells_lookup s a b p Hb Hall).
  destruct (positions a !! p) as [x|]; simpl; [|exact IH].
  destruct (b !! x); simpl; [f_equal|]; exact IH.
Qed.

Lemma valid_view s a ps : valid s a → valid s (view a ps).
Proof.
  intros (b & Hb & Hall). exists b. split; [done|]. simpl.
  apply Forall_forall. intros x Hx. apply list_elem_of_omap in Hx as (p & _ & Hp).
  rewrite Forall_forall in Hall. apply Hall. by eapply list_elem_of_lookup_2.
Qed.

Lemma keys_view_table t ps : keys (view_table t ps) = keys t.
Proof. unfold keys, view_table. rewrite <- list_fmap_compose. done. Qed.

Lemma values_view_table t ps : values (view_table t ps) = (λ a, view a ps) <$> values t.
Proof. unfold values, view_table. rewrite <- !list_fmap_compose. done. Qed.

Lemma view_table_app t1 t2 ps :
  view_table (t1 ++ t2) ps = view_table t1 ps ++ view_table t2 ps.
Proof. apply fmap_app. Qed.

(** Storing the views of the columns of a table, under their names,
    gives the table of the views and writes nothing. *)
Lemma forM_setitem_views ps s rest : ∀ pre,
  wf_table (pre ++ rest) →
  forM_ (λ kv, Table_setitem (IAtom (AStr kv.1)) kv.2)
        ((λ ka, (ka.1, VArray (view ka.2 ps))) <$> rest) (s, view_table pre ps)
  = ((s, view_table (pre ++ rest) ps), Ok tt).
Proof.
  induction rest as [|[k a] rest IH]; intros pre Hwf.
  - by rewrite app_nil_r.
  - rewrite fmap_cons, forM_cons_run. cbn [fst snd].
    assert (Table_setitem (IAtom (AStr k)) (VArray (view a ps)) (s, view_table pre ps)
            = ((s, view_table (pre ++ [(k, a)]) ps), Ok tt)) as ->.
    { unfold Table_setitem. unfold bind, on_store, ma_array, ret, get_table, put_table. simpl.
      destruct Hwf as [Hnd Hsame].
      assert (check_shapes (values (view_table pre ps)) (view a ps) = Ok tt) as ->.
      { apply check_shapes_Ok. rewrite values_view_table. apply Forall_forall.
        intros c Hc. apply list_elem_of_fmap in Hc as (c' & -> & Hc').
        apply alen_view_same. apply Hsame.
        - unfold values. rewrite fmap_app. apply elem_of_app. by left.
        - unfold values. rewrite fmap_app. apply elem_of_app. right.
          apply elem_of_cons. by left. }
      rewrite columns_set_new.
      - by rewrite view_table_app.
      - rewrite keys_view_table. unfold keys in *. rewrite fmap_app in Hnd.
        apply NoDup_app in Hnd as (_ & Hnd & _). intros Hin. apply (Hnd _ Hin).
        apply elem_of_cons. by left. }
    replace (pre ++ (k, a) :: rest) with ((pre ++ [(k, a)]) ++ rest) in * by (by rewrite <- app_assoc).
    by apply IH.
Qed.

Lemma Table_store_views t ps s :
  wf_table t →
  Table_store (keys t) ((λ a, VArray (view a ps)) <$> values t) s
  = (s, Ok (view_table t ps)).
Proof.
  intros Hwf. unfold Table_store, with_table.
  rewrite dedup_NoDup_id by apply Hwf.
  replace (zip (keys t) ((λ a, VArray (view a ps)) <$> values t))
    with ((λ ka : string * array, (ka.1, VArray (view ka.2 ps))) <$> t).
  - pose proof (forM_setitem_views ps s t [] Hwf) as E.
    change (view_table [] ps) with (@nil (string * array)) in E.
    change ([] ++ t) with t in E.
    enough (∀ x : world * result unit, x = ((s, view_table t ps), Ok tt) →
              (let (w, r) := x in
               let (s', t0) := w in
               match r with Ok _ => (s', Ok t0) | Raise e => (s', Raise e) end)
              = (s, Ok (view_table t ps))) as G by (apply G, E).
    by intros x ->.
  - unfold keys, values. clear. induction t as [|[k a] t IH]; simpl; [done|].
    f_equal. exact IH.
Qed.

(** ** Reading *)

Lemma len_of t a : same_length t → a ∈ values t → alen a = len t.
Proof.
  unfold len. intros Hsame Ha. destruct (values t) as [|b bs] eqn:E.
  - by apply elem_of_nil in Ha.
  - apply Hsame; rewrite E; [done|]. apply elem_of_cons. by left.
Qed.

Lemma shape_len t : shape t = (len t, length t).
Proof. done. Qed.

Lemma mapM_cons_run {S A B} (f : A → M S B) x l s :
  mapM_ f (x :: l) s =
  match f x s with
  | (s1, Ok y) =>
      match mapM_ f l s1 with
      | (s2, Ok ys) => (s2, Ok (y :: ys))
      | (s2, Raise e) => (s2, Raise e)
      end
  | (s1, Raise e) => (s1, Raise e)
  end.
Proof.
  simpl. unfold bind. destruct (f x s) as [s1 [y|e]]; [|done].
  destruct (mapM_ f l s1) as [s2 [ys|e]]; done.
Qed.


Lemma mapM_read_views t sl ps s rest :
  (∀ k a, (k, a) ∈ rest →
     columns_get t k = Some a ∧ slice_positions sl (alen a) = Some ps) →
  mapM_ (read_column t (ASlice sl)) (EStr <$> rest.*1) s
  = (s, Ok ((λ ka, (ka.1, VArray (view ka.2 ps))) <$> rest)).
Proof.
  induction rest as [|[k a] rest IH]; intros H; [done|].
  rewrite !fmap_cons, mapM_cons_run.
  destruct (H k a) as [Hget Hsl]; [apply elem_of_cons; by left|].
  unfold read_column at 1. unfold bind, column_read, ret. cbn [fst snd].
  rewrite Hget. unfold array_getitem. rewrite Hsl. unfold ret.
  rewrite IH; [done|]. intros k' a' Hin. apply H. apply elem_of_cons. by right.
Qed.

Lemma Table_getitem_table_unfold t row_slice columns s :
  row_slice ≠ ANone →
  (do items <- mapM_ (read_column t row_slice) columns;
   do u <- Table_store (items.*1) (items.*2);
   ret (RetTable u)) s
  = match mapM_ (read_column t row_slice) columns s with
    | (s1, Ok items) =>
        match Table_store (items.*1) (items.*2) s1 with
        | (s2, Ok u) => (s2, Ok (RetTable u))
        | (s2, Raise e) => (s2, Raise e)
        end
    | (s1, Raise e) => (s1, Raise e)
    end.
Proof.
  intros _. unfold bind. destruct (mapM_ _ columns s) as [s1 [items|e]]; [|done].
  destruct (Table_store _ _ s1) as [s2 [u|e]]; done.
Qed.

(** A slice as the whole index: the views of all columns. *)
Lemma Table_getitem_slice t sl ps s :
  wf_table t → slice_positions sl (len t) = Some ps →
  Table_getitem t (IAtom (ASlice sl)) s = (s, Ok (RetTable (view_table t ps))).
Proof.
  intros Hwf Hsl. unfold Table_getitem, Table_getitem_table, Table_selection.
  unfold bind at 1. unfold ret at 1.
  rewrite Table_getitem_table_unfold by done.
  unfold keys at 1. rewrite (mapM_read_views t sl ps s t).
  - replace (((λ ka : string * array, (ka.1, VArray (view ka.2 ps))) <$> t).*1) with (keys t).
    + replace (((λ ka : string * array, (ka.1, VArray (view ka.2 ps))) <$> t).*2)
        with ((λ a, VArray (view a ps)) <$> values t).
      * by rewrite Table_store_views.
      * unfold values. rewrite <- !list_fmap_compose. done.
    + unfold keys. rewrite <- !list_fmap_compose. done.
  - intros k a Hin. destruct Hwf as [Hnd Hsame]. split; [by apply columns_get_elem|].
    rewrite (len_of t a); [done|done|]. apply list_elem_of_fmap. by exists (k, a).
Qed.

(** An integer as the whole index: the row slice [i, i + 1). *)
Lemma Table_getitem_int t i s :
  wf_table t →
  Table_getitem t (IAtom (AInt i)) s = (s, Ok (RetTable (view_table t (one_row (len t) i)))).
Proof.
  intros Hwf.
  change (Table_getitem t (IAtom (AInt i)) s)
    with (Table_getitem t (IAtom (ASlice (slice_one i))) s).
  apply Table_getitem_slice; [done|apply slice_positions_one].
Qed.

Lemma column_read_one t name a p s :
  columns_get t name = Some a →
  column_read t name (ASlice (slice_one p)) s
  = (s, Ok (VArray (view a (one_row (alen a) p)))).
Proof.
  intros H. unfold column_read. rewrite H. unfold array_getitem.
  by rewrite slice_positions_one.
Qed.

Lemma one_row_in n i :
  (0 ≤ i < Z.of_nat n)%Z → one_row n i = [Z.to_nat i].
Proof.
  intros H. unfold one_row.
  destruct (0 <=? i)%Z eqn:E0; [|apply Z.leb_gt in E0; lia].
  destruct (i <? Z.of_nat n)%Z eqn:E1; [done|apply Z.ltb_ge in E1; lia].
Qed.

Lemma one_row_back n i :
  (- Z.of_nat n ≤ i < -1)%Z → one_row n i = [Z.to_nat (i + Z.of_nat n)].
Proof.
  intros H. unfold one_row.
  destruct (0 <=? i)%Z eqn:E0; [apply Z.leb_le in E0; lia|]. simpl.
  destruct (- Z.of_nat n <=? i)%Z eqn:E1; [|apply Z.leb_gt in E1; lia].
  destruct (i <? -1)%Z eqn:E2; [done|apply Z.ltb_ge in E2; lia].
Qed.

Lemma one_row_out n i :
  (Z.of_nat n ≤ i ∨ i = -1 ∨ i < - Z.of_nat n)%Z → one_row n i = [].
Proof.
  intros H. unfold one_row.
  destruct (0 <=? i)%Z eqn:E0; destruct (i <? Z.of_nat n)%Z eqn:E1;
    destruct (- Z.of_nat n <=? i)%Z eqn:E2; destruct (i <? -1)%Z eqn:E3; simpl; try done;
    repeat match goal with
           | H : (_ <=? _)%Z = true |- _ => apply Z.leb_le in H
           | H : (_ <=? _)%Z = false |- _ => apply Z.leb_gt in H
           | H : (_ <? _)%Z = true |- _ => apply Z.ltb_lt in H
           | H : (_ <? _)%Z = false |- _ => apply Z.ltb_ge in H
           end; lia.
Qed.

Lemma view_single s a p :
  valid s a → p < alen a →
  ∃ c, cells s a !! p = Some c ∧ cells s (view a [p]) = [c] ∧ alen (view a [p]) = 1.
Proof.
  intros Hv Hp. pose proof (cells_length s a Hv) as Hlen.
  destruct (cells s a !! p) as [c|] eqn:E; [|apply lookup_ge_None in E; lia].
  exists c. split; [done|]. split.
  - rewrite cells_view by done. simpl. by rewrite E.
  - unfold alen, view. simpl.
    destruct (positions a !! p) eqn:E'; [done|]. apply lookup_ge_None in E'. unfold alen in Hp. lia.
Qed.

Lemma len_view_table t ps n :
  (∀ a, a ∈ values t → alen (view a ps) = n) → t ≠ [] → len (view_table t ps) = n.
Proof.
  intros H Ht. destruct t as [|[k a] t]; [done|]. unfold len. simpl.
  apply H. apply elem_of_cons. by left.
Qed.

Lemma length_view_table t ps : length (view_table t ps) = length t.
Proof. apply length_fmap. Qed.

(** ** Every table that arises is well formed *)

Lemma keeps_preserves {A} (m : M world A) : keeps m → preserves m.
Proof. intros H w w' r E Hwf. apply H in E. by rewrite E. Qed.

Lemma preserves_bind {A B} (m : M world A) (k : A → M world B) :
  preserves m → (∀ x, preserves (k x)) → preserves (bind m k).
Proof.
  intros Hm Hk w w' r. unfold bind. destruct (m w) as [w1 [x|e]] eqn:E.
  - intros H Hwf. eapply Hk; [exact H|]. eapply Hm; eauto.
  - intros [= <- <-] Hwf. eapply Hm; eauto.
Qed.

Lemma preserves_setitem index value : preserves (Table_setitem index value).
Proof. intros w w' r. apply Table_setitem_wf. Qed.

Lemma preserves_try_pass (m : M world unit) : preserves m → preserves (try_pass m).
Proof.
  intros Hm w w' r. unfold try_pass. destruct (m w) as [w1 r1] eqn:E.
  intros [= <- <-]. eauto.
Qed.

Lemma preserves_forM {A} (f : A → M world unit) l :
  (∀ x, preserves (f x)) → preserves (forM_ f l).
Proof.
  intros Hf. induction l as [|x l IH]; intros w w' r H Hwf.
  - by injection H as <- <-.
  - rewrite forM_cons_run in H. destruct (f x w) as [w1 [[]|e]] eqn:E.
    + eapply IH; [exact H|]. eapply Hf; eauto.
    + injection H as <- <-. eapply Hf; eauto.
Qed.

Lemma Table_init_wf data index s s' t :
  Table_init data index s = (s', Ok t) → wf_table t.
Proof.
  unfold Table_init. intros H.
  assert ((do kv <- source_items data index; Table_store kv.1 kv.2) s = (s', Ok t) → wf_table t) as G.
  { unfold bind. destruct (source_items data index s) as [s1 [kv|e]]; [|done].
    apply Table_store_wf. }
  destruct data; by apply G.
Qed.

Lemma Table_getitem_RetTable t index s s' u :
  Table_getitem t index s = (s', Ok (RetTable u)) →
  Table_getitem_table t index s = (s', Ok (RetTable u)).
Proof.
  unfold Table_getitem. destruct index as [[name| | | | |]|l]; try done.
  - unfold bind, ret. destruct (column_read _ _ _ _) as [? [?|?]]; done.
  - unfold bind at 1. unfold item at 1.
    destruct (l !! 0) as [i0|] eqn:E0; [|done]. unfold ret at 1.
    destruct i0; try done.
    unfold bind at 1. unfold item at 1.
    destruct (l !! 1) as [i1|] eqn:E1; [|done]. unfold ret at 1.
    destruct i1; try done; unfold bind, ret;
      destruct (column_read _ _ _ _) as [? [?|?]]; done.
Qed.

Lemma Table_selection_store t index s s' r :
  Table_selection t index s = (s', r) → s' = s.
Proof.
  unfold Table_selection. destruct index as [[name| | | |l|]|l]; try (by intros [= <- <-]).
  - destruct (existsb is_str l); [by intros [= <- <-]|].
    destruct l; by intros [= <- <-].
  - unfold bind, item, ret, raise.
    destruct (l !! 0); [|by intros [= <- <-]].
    destruct (l !! 1); by intros [= <- <-].
Qed.

(** What [Table.__getitem__] did when it returned a table. *)
Lemma Table_getitem_inv t index s s' u :
  Table_getitem t index s = (s', Ok (RetTable u)) →
  ∃ row_slice columns s1 items,
    Table_selection t index s = (s, Ok (row_slice, Some (Ok columns))) ∧
    mapM_ (read_column t row_slice) columns s = (s1, Ok items) ∧
    Table_store (items.*1) (items.*2) s1 = (s', Ok u).
Proof.
  intros H. apply Table_getitem_RetTable in H. unfold Table_getitem_table in H.
  unfold bind at 1 in H.
  destruct (Table_selection t index s) as [s0 [[rs cols]|e]] eqn:Esel; [|done].
  pose proof (Table_selection_store _ _ _ _ _ Esel) as ->.
  assert (∀ columns,
            (do items <- mapM_ (read_column t rs) columns;
             do u <- Table_store (items.*1) (items.*2);
             ret (RetTable u)) s = (s', Ok (RetTable u)) →
            ∃ s1 items, mapM_ (read_column t rs) columns s = (s1, Ok items) ∧
                        Table_store (items.*1) (items.*2) s1 = (s', Ok u)) as G.
  { intros columns. unfold bind, ret.
    destruct (mapM_ _ columns s) as [s1 [items|e]]; [|done].
    destruct (Table_store _ _ s1) as [s2 [u'|e]] eqn:E; [|done].
    intros [= <- <-]. eauto. }
  destruct cols as [[cols|e]|].
  - exists rs, cols. destruct rs; try done;
      destruct (G cols H) as (s1 & items & ? & ?); eauto.
  - destruct rs; done.
  - destruct rs; done.
Qed.

Lemma Table_getitem_wf t index s s' u :
  Table_getitem t index s = (s', Ok (RetTable u)) → wf_table u.
Proof.
  intros H. apply Table_getitem_inv in H as (? & ? & ? & ? & _ & _ & H).
  by apply Table_store_wf in H.
Qed.

Lemma preserves_convert_column to_float name : preserves (convert_column to_float name).
Proof.
  apply preserves_try_pass.
  apply preserves_bind; [apply keeps_preserves, keeps_get_table|]. intros t0.
  apply preserves_bind; [apply keeps_preserves, keeps_on_store|]. intros column.
  destruct column; try apply keeps_preserves, keeps_raise.
  apply preserves_bind; [apply keeps_preserves, keeps_on_store|]. intros floats.
  apply preserves_setitem.
Qed.

Lemma read_csv_wf to_float rows convert s s' t :
  read_csv to_float rows convert s = (s', Ok t) → wf_table t.
Proof.
  unfold read_csv. unfold bind at 1.
  destruct (Table_store _ _ s) as [s1 [result|e]] eqn:E; [|done].
  apply Table_store_wf in E. destruct convert; [|by intros [= <- <-]].
  unfold with_table.
  destruct (forM_ _ _ _) as [[s2 t2] [[]|e]] eqn:E2; intros [= <- <-].
  eapply (preserves_forM _ _) in E2; [by apply E2|].
  apply preserves_convert_column.
Qed.

Lemma reachable_wf t : reachable t → wf_table t.
Proof.
  induction 1 as [data index s s' t H|t index s s' u _ _ H|tf rows convert s s' t H
                 |t index value s w r _ IH H|t key s w r _ IH H].
  - by eapply Table_init_wf.
  - by eapply Table_getitem_wf.
  - by eapply read_csv_wf.
  - eapply Table_setitem_wf; eauto.
  - eapply Table_delitem_wf; eauto.
Qed.

(** C2: in every table that can arise, all columns have the same length;
    [shape] is [(0, 0)] for a table without columns and otherwise the
    length of any column with the number of columns. *)
Theorem C2_reachable_shape t :
  reachable t →
  same_length t ∧
  (values t = [] → shape t = (0, 0)) ∧
  (∀ a, a ∈ values t → shape t = (alen a, length (keys t))).
Proof.
  intros Hr. apply reachable_wf in Hr as [_ Hsame].
  split; [done|]. split.
  - intros Hv. unfold shape. rewrite Hv. f_equal.
    unfold values in Hv. by apply fmap_nil_inv in Hv as ->.
  - intros a Ha. rewrite shape_len, (len_of t a) by done.
    unfold keys. by rewrite length_fmap.
Qed.

(** ** Assigning a column of another length *)

Lemma cells_alloc s l a : valid s a → cells (s ++ [l]) a = cells s a.
Proof.
  intros (b & Hb & _). unfold cells. by rewrite (lookup_app_l_Some _ _ _ _ Hb), Hb.
Qed.

Lemma check_shapes_first c columns value :
  alen c ≠ alen value →
  check_shapes (c :: columns) value
  = Raise (ValueError (ExpectedReceived (alen c) (alen value))).
Proof. intros H. simpl. by rewrite decide_True. Qed.

(** C3: on a table with a column, assigning under a name a value of one
    dimension whose length is not the row count raises "Expected ...
    values, received ..." with the two counts, and leaves the table and
    the elements of every array as they were. *)
Theorem C3_length_mismatch t s name value m :
  values t ≠ [] → value_len value = Some m → m ≠ len t →
  ∃ s', Table_setitem (IAtom (AStr name)) value (s, t)
        = ((s', t), Raise (ValueError (ExpectedReceived (len t) m)))
      ∧ ∀ a, valid s a → cells s' a = cells s a.
Proof.
  intros Hne Hlen Hm. unfold Table_setitem, len in *.
  destruct (values t) as [|c columns] eqn:Ev; [done|].
  destruct value as [c0|l|v|n]; try done; injection Hlen as <-.
  - exists (s ++ [l]). split; [|intros a; apply cells_alloc].
    unfold bind, on_store, ma_array, get_table, alloc, raise. simpl. rewrite Ev.
    assert (alen (Array (length s) (seq 0 (length l))) = length l) as Hl.
    { unfold alen. simpl. apply length_seq. }
    rewrite check_shapes_first by (rewrite Hl; lia). by rewrite Hl.
  - exists s. split; [|done].
    unfold bind, on_store, ma_array, get_table, ret, raise. simpl. rewrite Ev.
    rewrite check_shapes_first; [done|]. lia.
Qed.

(** ** Integers as indices *)

Lemma columns_get_view_table t ps name a :
  columns_get t name = Some a → columns_get (view_table t ps) name = Some (view a ps).
Proof.
  induction t as [|[k b] t IH]; simpl; [done|].
  destruct (decide (k = name)); [by intros [= ->]|auto].
Qed.

Lemma columns_get_values t name a : columns_get t name = Some a → a ∈ values t.
Proof.
  intros H. apply columns_get_Some in H. apply list_elem_of_fmap. by exists (name, a).
Qed.

(** C5, amended: [table[i]] is the table of all columns restricted to
    the row slice [i, i + 1); when [i] is the position of a row this is
    the one row at that position, so that a table of 5 rows and 3
    columns gives one of 1 row and 3 columns for [i = 0]. *)
Theorem C5_integer_index t s i :
  reachable t →
  Table_getitem t (IAtom (AInt i)) s = Table_getitem t (IAtom (ASlice (slice_one i))) s ∧
  ∃ u, Table_getitem t (IAtom (AInt i)) s = (s, Ok (RetTable u)) ∧
       keys u = keys t ∧
       (∀ name a, columns_get t name = Some a →
          columns_get u name = Some (view a (one_row (alen a) i))) ∧
       ((0 ≤ i < Z.of_nat (len t))%Z →
          (values t ≠ [] → shape u = (1, length t)) ∧
          ∀ name a, columns_get t name = Some a → valid s a →
            ∃ b c, columns_get u name = Some b ∧
                   cells s a !! Z.to_nat i = Some c ∧ cells s b = [c]) ∧
       ((Z.of_nat (len t) ≤ i ∨ i = -1)%Z → ∀ b, b ∈ values u → alen b = 0) ∧
       (shape t = (5, 3) → i = 0%Z → shape u = (1, 3)).
Proof.
  intros Hr. pose proof (reachable_wf t Hr) as Hwf. destruct (Hwf) as [Hnd Hsame].
  split; [done|]. exists (view_table t (one_row (len t) i)).
  split; [by apply Table_getitem_int|]. split; [apply keys_view_table|].
  assert (∀ name a, columns_get t name = Some a → alen a = len t) as Hlen.
  { intros name a Ha. apply len_of; [done|]. by eapply columns_get_values. }
  assert ((0 ≤ i < Z.of_nat (len t))%Z → values t ≠ [] →
          shape (view_table t (one_row (len t) i)) = (1, length t)) as Hshape.
  { intros Hi Hne. rewrite shape_len, length_view_table. f_equal.
    apply len_view_table; [|by intros ->]. intros a Ha.
    rewrite one_row_in by done. unfold alen, view. simpl.
    destruct (positions a !! Z.to_nat i) eqn:E; [done|].
    apply lookup_ge_None in E. rewrite <- (len_of t a Hsame Ha) in Hi. unfold alen in Hi. lia. }
  split; [|split; [|split]].
  - intros name a Ha. rewrite (Hlen name a Ha). by apply columns_get_view_table.
  - intros Hi. split; [by apply Hshape|]. intros name a Ha Hv.
    destruct (view_single s a (Z.to_nat i) Hv) as (c & Hc & Hcells & _).
    { rewrite (Hlen name a Ha). lia. }
    exists (view a [Z.to_nat i]), c. split; [|done].
    rewrite <- (one_row_in (len t) i Hi). by apply columns_get_view_table.
  - intros Hi b Hb. rewrite one_row_out, values_view_table in Hb by tauto.
    by apply list_elem_of_fmap in Hb as (a & -> & _).
  - intros Hs ->. rewrite shape_len in Hs. injection Hs as Hl Hc.
    rewrite <- Hc. apply Hshape; [lia|].
    intros Hv. unfold values in Hv. apply fmap_nil_inv in Hv. by rewrite Hv in Hc.
Qed.

(** C6, amended: [table[name, p]] is the slice [p, p + 1) of the column,
    a view on it; when [p] is a position of the column it holds the one
    element at that position, and so it does for a position counted from
    the end other than [-1]; at [-1] and outside the column the slice is
    empty. *)
Theorem C6_name_position t s name a p :
  columns_get t name = Some a →
  Table_getitem t (ITuple [AStr name; AInt p]) s
  = (s, Ok (RetValue (VArray (view a (one_row (alen a) p))))) ∧
  ((0 ≤ p < Z.of_nat (alen a))%Z → valid s a →
     ∃ c, cells s a !! Z.to_nat p = Some c ∧
          cells s (view a (one_row (alen a) p)) = [c]) ∧
  ((- Z.of_nat (alen a) ≤ p < -1)%Z → valid s a →
     ∃ c, cells s a !! Z.to_nat (p + Z.of_nat (alen a)) = Some c ∧
          cells s (view a (one_row (alen a) p)) = [c]) ∧
  ((Z.of_nat (alen a) ≤ p ∨ p = -1 ∨ p < - Z.of_nat (alen a))%Z →
     alen (view a (one_row (alen a) p)) = 0).
Proof.
  intros Ha. split; [|split; [|split]].
  - unfold Table_getitem, bind, item, ret. simpl.
    by rewrite (column_read_one t name a p s Ha).
  - intros Hp Hv. rewrite one_row_in by done.
    destruct (view_single s a (Z.to_nat p) Hv) as (c & Hc & Hcells & _); [lia|eauto].
  - intros Hp Hv. rewrite one_row_back by done.
    destruct (view_single s a (Z.to_nat (p + Z.of_nat (alen a))) Hv)
      as (c & Hc & Hcells & _); [lia|eauto].
  - intros Hp. by rewrite one_row_out.
Qed.

(** C7, at an index no case of [__getitem__] accepts: a tuple whose
    second member is [None] makes the method reach its end, and it
    returns [None] without raising; so does a tuple whose first member is
    [None]. *)
Theorem C7_unsupported_returns_None t s name :
  Table_getitem t (ITuple [AInt 0; ANone]) s = (s, Ok RetNone) ∧
  Table_getitem t (ITuple [ANone; AStr name]) s = (s, Ok RetNone) ∧
  Table_getitem t (ITuple [AStr name; ANone]) s = (s, Ok RetNone).
Proof. done. Qed.

(** C10: an integer that is no position of a row does not raise: from
    the row count on, and at [-1], [table[i]] is the table of all
    columns with no row. *)
Theorem C10_out_of_range t s i :
  reachable t → values t ≠ [] →
  (Z.of_nat (len t) ≤ i ∨ i = -1)%Z →
  ∃ u, Table_getitem t (IAtom (AInt i)) s = (s, Ok (RetTable u)) ∧
       keys u = keys t ∧ shape u = (0, length t) ∧
       ∀ a, a ∈ values u → alen a = 0.
Proof.
  intros Hr Hne Hi. pose proof (reachable_wf t Hr) as Hwf.
  exists (view_table t (one_row (len t) i)).
  split; [by apply Table_getitem_int|]. split; [apply keys_view_table|].
  rewrite one_row_out by tauto. split.
  - rewrite shape_len, length_view_table. f_equal.
    apply len_view_table; [done|]. by intros ->.
  - intros a Ha. rewrite values_view_table in Ha.
    by apply list_elem_of_fmap in Ha as (b & -> & _).
Qed.

(** ** The names of the table an index returns *)




Lemma rstrip_nul_fmap (names : list string) :
  Forall (λ k, rstrip_nul k = k) names → rstrip_nul <$> names = names.
Proof. induction 1 as [|k names Hk _ IH]; [done|]. rewrite fmap_cons. by f_equal. Qed.


(** ** The names of a constructed table *)

Lemma mapM_length {S A B} (f : A → M S B) l s s' ys :
  mapM_ f l s = (s', Ok ys) → length ys = length l.
Proof.
  revert s ys. induction l as [|x l IH]; intros s ys H.
  - by injection H as <- <-.
  - rewrite mapM_cons_run in H. destruct (f x s) as [s1 [y|e]]; [|done].
    destruct (mapM_ f l s1) as [s2 [ys'|e]] eqn:E; [|done].
    injection H as <- <-. simpl. f_equal. eauto.
Qed.

Lemma source_items_length data index s s1 names columns :
  source_items data index s = (s1, Ok (names, columns)) → length names = length columns.
Proof.
  destruct data as [|items|t|items|items|ndim cols|cols levels|]; simpl.
  - by intros [= <- <- <-].
  - intros [= <- <- <-]. by rewrite !length_fmap.
  - unfold bind, ret. destruct (mapM_ _ (keys t) s) as [s2 [ys|e]] eqn:E; [|done].
    intros [= <- <- <-]. apply mapM_length in E. done.
  - intros [= <- <- <-]. by rewrite !length_fmap.
  - intros [= <- <- <-]. by rewrite !length_fmap.
  - destruct (decide (ndim ≠ 2)); [done|]. intros [= <- <- <-]. by rewrite !length_fmap, length_seq.
  - destruct index; intros [= <- <- <-];
      rewrite ?length_app, !length_fmap, ?length_seq; done.
  - done.
Qed.

Lemma Table_init_keys data index s s1 s' names columns t :
  source_items data index s = (s1, Ok (names, columns)) →
  Table_init data index s = (s', Ok t) →
  keys t = dedup names.
Proof.
  intros Hitems Hinit.
  assert ((do kv <- source_items data index; Table_store kv.1 kv.2) s = (s', Ok t)) as H.
  { by destruct data. }
  unfold bind in H. rewrite Hitems in H. simpl in H.
  apply Table_store_keys in H; [done|].
  apply source_items_length in Hitems. lia.
Qed.

(** C1, amended: the names of a constructed table are those [dedup]
    makes of the names of the source.  They are all distinct; a name
    that occurs once in the source is stored as it is; and when no
    repeated name has the form [k-n] of another repeated name [k], the
    first occurrence of a repeated name keeps it and each later
    occurrence is stored as [base-n] for the least [n >= 1] such that
    every [base-m] with [1 <= m < n] is taken, by a name that occurs
    once in the source or by an earlier occurrence of [base].  The
    sequence [("x",[1]),("x",[2])] gives the columns [x] and [x-1]. *)
Theorem C1_unique_names data index s s1 s' names columns t :
  source_items data index s = (s1, Ok (names, columns)) →
  Table_init data index s = (s', Ok t) →
  keys t = dedup names ∧
  NoDup (keys t) ∧
  length (keys t) = length names ∧
  (∀ i k, names !! i = Some k → key_count names k = 1 → keys t !! i = Some k) ∧
  (regular names = true →
     ∀ p K, names !! p = Some K → key_count names K ≠ 1 →
       (first_of names K p → keys t !! p = Some K) ∧
       (¬ first_of names K p →
          ∃ n, 1 ≤ n ∧ keys t !! p = Some (suffixed K n) ∧
               ∀ m, 1 ≤ m < n →
                 ∃ q, keys t !! q = Some (suffixed K m) ∧
                      ((names !! q = Some (suffixed K m) ∧
                        key_count names (suffixed K m) = 1)
                       ∨ (names !! q = Some K ∧ q < p)))) ∧
  (∀ s0, ∃ s2 u,
     Table_init (SrcSequence [("x", VSeq [Int 1]); ("x", VSeq [Int 2])]) IndexFalse s0
     = (s2, Ok u) ∧ keys u = ["x"; "x-1"]).
Proof.
  intros Hitems Hinit. rewrite (Table_init_keys _ _ _ _ _ _ _ _ Hitems Hinit).
  split; [done|]. split; [apply dedup_NoDup|]. split; [apply dedup_length|].
  split; [apply dedup_single|]. split.
  - intros Hreg p K Hp Hc.
    destruct (dedup_settled names Hreg p K Hp Hc) as [[Hf Hk]|(Hnf & n & Hn & Hk & Hmin)].
    + split; [done|]. by intros Hnf.
    + split; [by intros Hf|]. intros _. eauto.
  - intros s0. eexists _, _. split; reflexivity.
Qed.

(** ** What a call writes *)

Lemma valid_prefix s s' a : s `prefix_of` s' → valid s a → valid s' a.
Proof.
  intros [extra ->] (b & Hb & Hall). exists b. split; [|done].
  by apply lookup_app_l_Some.
Qed.

Lemma cells_prefix s s' a : s `prefix_of` s' → valid s a → cells s' a = cells s a.
Proof.
  intros [extra ->] (b & Hb & Hall). unfold cells.
  by rewrite (lookup_app_l_Some _ _ _ _ Hb), Hb.
Qed.

Lemma valid_buffer s a : valid s a → buffer a < length s.
Proof. intros (b & Hb & _). by eapply lookup_lt_Some. Qed.

Lemma valid_alloc s l : valid (s ++ [l]) (Array (length s) (seq 0 (length l))).
Proof.
  exists l. split.
  - cbn [buffer]. by rewrite lookup_app_r, Nat.sub_diag by lia.
  - cbn [positions]. apply Forall_forall. intros p Hp. apply elem_of_seq in Hp. lia.
Qed.

Lemma cells_alloc_new s l : cells (s ++ [l]) (Array (length s) (seq 0 (length l))) = l.
Proof.
  unfold cells. cbn [buffer positions]. rewrite lookup_app_r, Nat.sub_diag by lia.
  cbn [lookup list_lookup].
  rewrite omap_lookup_seq by (simpl; lia). by rewrite drop_0, firstn_all.
Qed.

Lemma write_other s buf updates buf' :
  buf' ≠ buf → write s buf updates !! buf' = s !! buf'.
Proof.
  intros H. unfold write. destruct (s !! buf); [|done].
  by rewrite list_lookup_insert_ne.
Qed.

Lemma write_length s buf updates : length (write s buf updates) = length s.
Proof. unfold write. destruct (s !! buf); [|done]. by rewrite length_insert. Qed.

Lemma cells_write s buf updates b :
  buffer b ≠ buf → cells (write s buf updates) b = cells s b.
Proof. intros H. unfold cells. by rewrite write_other. Qed.

Lemma array_setitem_frame a sel value s s' r b :
  array_setitem a sel value s = (s', r) → buffer b ≠ buffer a → cells s' b = cells s b.
Proof.
  intros H Hb. unfold array_setitem in H.
  assert (∀ ps, (λ s0 : store,
              match broadcast s0 value (length ps) with
              | Some cs => (write s0 (buffer a) (zip (positions (view a ps)) cs), Ok tt)
              | None => (s0, Raise (ValueError Broadcast))
              end) s = (s', r) → cells s' b = cells s b) as G.
  { intros ps. simpl. destruct (broadcast s value (length ps)); intros [= <- <-]; [|done].
    by apply cells_write. }
  destruct sel; try (by injection H as <- <-).
  - destruct (wrap_index (alen a) z); [by apply (G [n])|by injection H as <- <-].
  - destruct (slice_positions sl (alen a)) as [ps|]; [by apply (G ps)|by injection H as <- <-].
Qed.

Local Arguments array_setitem : simpl never.
Local Arguments array_getitem : simpl never.

Lemma item_world l i (w w' : world) r :
  item l i w = (w', r) → w' = w.
Proof. unfold item. destruct (l !! i); by intros [= <- <-]. Qed.

Lemma inplace_frame column cs value s t (w' : world) (r : result unit) b :
  (do t0 <- get_table;
   match columns_get t0 column with
   | Some a => on_store (array_setitem a cs value)
   | None => raise KeyError
   end) (s, t) = (w', r) →
  (∀ a, a ∈ values t → buffer a ≠ buffer b) →
  cells w'.1 b = cells s b.
Proof.
  unfold bind, get_table. cbn [fst snd]. intros H Hother.
  destruct (columns_get t column) as [arr|] eqn:Ea; [|by injection H as <-].
  unfold on_store in H. cbn [fst snd] in H.
  destruct (array_setitem arr cs value s) as [s1 r1] eqn:E. injection H as <- <-.
  eapply array_setitem_frame; [exact E|].
  intros Hb. apply (Hother arr); [by eapply columns_get_values|done].
Qed.

(** An assignment writes only into the buffers of the columns of the
    table it is made on, or into new buffers. *)
Lemma Table_setitem_frame index value s t w' r b :
  Table_setitem index value (s, t) = (w', r) →
  valid s b → (∀ a, a ∈ values t → buffer a ≠ buffer b) →
  cells w'.1 b = cells s b.
Proof.
  intros H Hv Hother. unfold Table_setitem in H.
  destruct index as [[name| | | | |]|l]; try (by injection H as <-).
  - run_in H. destruct value as [c|l|v|n]; simpl in H; try (by injection H as <-).
    + destruct (check_shapes _ _); injection H as <-; simpl; by apply cells_alloc.
    + destruct (check_shapes _ _); by injection H as <-.
  - unfold bind at 1 in H. destruct (item l 0 (s, t)) as [w0 [i0|e]] eqn:E0;
      apply item_world in E0 as ->; [|by injection H as <-].
    destruct i0 as [column| | | | |]; try (by injection H as <-).
    unfold bind at 1 in H. destruct (item l 1 (s, t)) as [w1 [i1|e]] eqn:E1;
      apply item_world in E1 as ->; [|by injection H as <-].
    destruct i1 as [|z|sl| | |]; try (by injection H as <-).
    + destruct l as [|x1 [|x2 [|x3 l']]]; try (by injection H as <-).
      by eapply inplace_frame.
    + destruct l as [|x1 [|x2 [|x3 l']]]; try (by injection H as <-).
      by eapply inplace_frame.
Qed.

Lemma Table_setitem_name_frame name value s t w' r b :
  Table_setitem (IAtom (AStr name)) value (s, t) = (w', r) →
  valid s b → cells w'.1 b = cells s b.
Proof.
  intros H Hv. unfold Table_setitem in H. run_in H.
  destruct value as [c|l|v|n]; simpl in H; try (by injection H as <-).
  - destruct (check_shapes _ _); injection H as <-; simpl; by apply cells_alloc.
  - destruct (check_shapes _ _); by injection H as <-.
Qed.

Lemma Table_delitem_store key s t w' r : Table_delitem key (s, t) = (w', r) → w'.1 = s.
Proof.
  unfold Table_delitem.
  destruct key as [[name| | | | |]|l]; try (by intros [= <-]).
  - unfold bind, get_table, put_table, raise. simpl.
    destruct (columns_get t name); by intros [= <-].
  - destruct (existsb _ l); by intros [= <-].
Qed.

(** ** What an indexing read returns: views and copies *)

Lemma array_getitem_array a sel s s' v :
  valid s a → array_getitem a sel s = (s', Ok v) →
  s `prefix_of` s' ∧
  ∀ b, v = VArray b → valid s' b ∧ ∀ l, sel = AList l → length s ≤ buffer b.
Proof.
  intros Hv. unfold array_getitem. destruct sel as [name|i|sl| |l|].
  - done.
  - destruct (wrap_index (alen a) i); [|done].
    destruct (cells s a !! n); [|done]. intros [= <- <-]. done.
  - destruct (slice_positions sl (alen a)) as [ps|]; [|done].
    intros [= <- <-]. split; [done|]. intros b [= <-]. split; [by apply valid_view|done].
  - intros [= <- <-]. done.
  - destruct (all_ints l ≫= mapM (wrap_index (alen a))) as [ps|]; [|done].
    unfold alloc. intros [= <- <-]. split; [by apply prefix_app_r|].
    intros b [= <-]. split; [apply valid_alloc|]. intros _ _. simpl. lia.
  - done.
Qed.

Lemma valid_table_prefix s s' t : s `prefix_of` s' → valid_table s t → valid_table s' t.
Proof.
  intros Hp Hv. eapply Forall_impl; [exact Hv|]. intros a. by apply valid_prefix.
Qed.

Lemma read_column_array t rs col s s' kv :
  valid_table s t → read_column t rs col s = (s', Ok kv) →
  s `prefix_of` s' ∧
  ∀ b, kv.2 = VArray b → valid s' b ∧ ∀ l, rs = AList l → length s ≤ buffer b.
Proof.
  intros Hv. destruct col as [z|name]; [done|]. unfold read_column, bind, column_read.
  destruct (columns_get t name) as [a|] eqn:Ea; [|done].
  destruct (array_getitem a rs s) as [s1 [v|e]] eqn:E; [|done].
  intros [= <- <-]. eapply array_getitem_array; [|exact E].
  unfold valid_table in Hv. rewrite Forall_forall in Hv. apply Hv.
  by eapply columns_get_values.
Qed.

Lemma mapM_read_arrays t rs cols : ∀ s s' items,
  valid_table s t → mapM_ (read_column t rs) cols s = (s', Ok items) →
  s `prefix_of` s' ∧
  ∀ b, VArray b ∈ items.*2 → valid s' b ∧ ∀ l, rs = AList l → length s ≤ buffer b.
Proof.
  induction cols as [|c cols IH]; intros s s' items Hv H.
  - injection H as <- <-. split; [done|]. intros b Hb. by apply elem_of_nil in Hb.
  - rewrite mapM_cons_run in H.
    destruct (read_column t rs c s) as [s1 [kv|e]] eqn:E1; [|done].
    destruct (mapM_ _ cols s1) as [s2 [kvs|e]] eqn:E2; [|done].
    injection H as <- <-.
    apply read_column_array in E1 as [Hp1 Hkv]; [|done].
    apply IH in E2 as [Hp2 Hkvs]; [|by eapply valid_table_prefix].
    split; [by etransitivity|]. intros b Hb. rewrite fmap_cons in Hb.
    apply elem_of_cons in Hb as [Hb|Hb].
    + destruct (Hkv b) as [Hvb Hfresh]; [done|]. split; [by eapply valid_prefix|done].
    + destruct (Hkvs b Hb) as [Hvb Hfresh]. split; [done|].
      intros l Hl. specialize (Hfresh l Hl). apply prefix_length in Hp1. lia.
Qed.

Lemma ma_array_array name value s s1 a :
  ma_array name value s = (s1, Ok a) →
  s `prefix_of` s1 ∧ (value = VArray a ∨ (length s ≤ buffer a ∧ valid s1 a)).
Proof.
  destruct value as [c|l|v|n]; simpl; try done.
  - intros [= <- <-]. split; [by apply prefix_app_r|]. right. split; [simpl; lia|apply valid_alloc].
  - intros [= <- <-]. split; [done|by left].
Qed.

Lemma forM_setitem_arrays (kvs : list (string * pyvalue)) : ∀ s t s' t',
  forM_ (λ kv, Table_setitem (IAtom (AStr kv.1)) kv.2) kvs (s, t) = ((s', t'), Ok tt) →
  s `prefix_of` s' ∧
  ∀ b, b ∈ values t' →
    b ∈ values t ∨ VArray b ∈ kvs.*2 ∨ (length s ≤ buffer b ∧ valid s' b).
Proof.
  induction kvs as [|kv kvs IH]; intros s t s' t' H.
  - injection H as <- <-. split; [done|]. auto.
  - rewrite forM_cons_run in H.
    destruct (Table_setitem (IAtom (AStr kv.1)) kv.2 (s, t)) as [[s1 t1] [[]|e]] eqn:E; [|done].
    apply Table_setitem_name_Ok in E as (a & s1' & Hma & [= -> ->] & _). simpl in Hma.
    apply ma_array_array in Hma as [Hp1 Ha].
    apply IH in H as [Hp2 Hb]. split; [by etransitivity|].
    intros b Hin. rewrite fmap_cons, elem_of_cons.
    destruct (Hb b Hin) as [Hold|[Hnew|[Hlen Hvb]]].
    + apply columns_set_values in Hold as [->|?]; [|auto].
      destruct Ha as [->|[Hlen Hva]]; [auto|].
      right. right. split; [done|]. by eapply valid_prefix.
    + auto.
    + right. right. split; [|done]. apply prefix_length in Hp1. lia.
Qed.

Lemma Table_getitem_arrays t index s s' u :
  valid_table s t → Table_getitem t index s = (s', Ok (RetTable u)) →
  s `prefix_of` s' ∧
  ∀ b, b ∈ values u →
    valid s' b ∧
    ∀ l cols, Table_selection t index s = (s, Ok (AList l, cols)) → length s ≤ buffer b.
Proof.
  intros Hv H. apply Table_getitem_inv in H as (rs & cols & s1 & items & Hsel & Hread & Hstore).
  apply mapM_read_arrays in Hread as [Hp1 Hitems]; [|done].
  unfold Table_store, with_table in Hstore.
  destruct (forM_ _ _ (s1, [])) as [[s2 t2] [[]|e]] eqn:E; [|done].
  injection Hstore as <- <-.
  apply forM_setitem_arrays in E as [Hp2 Hcols].
  split; [by etransitivity|]. intros b Hb.
  destruct (Hcols b Hb) as [Hnil|[Hitem|[Hlen Hvb]]].
  - by apply elem_of_nil in Hnil.
  - assert (VArray b ∈ items.*2) as Hin.
    { apply list_elem_of_fmap in Hitem as ([k v] & Hv' & Hkv). simpl in Hv'. subst v.
      apply elem_of_zip_r in Hkv. done. }
    destruct (Hitems b Hin) as [Hvb Hfresh]. split; [by eapply valid_prefix|].
    intros l cols' Hsel'. rewrite Hsel in Hsel'. injection Hsel' as -> _. by apply (Hfresh l).
  - split; [done|]. intros _ _ _. apply prefix_length in Hp1. lia.
Qed.

(** *** Tables that share no buffer *)

Lemma foldl_insert_length (b : list cell) (updates : list (nat * cell)) :
  length (foldl (λ b' u, <[u.1 := u.2]> b') b updates) = length b.
Proof.
  revert b. induction updates as [|u updates IH]; intros b; simpl; [done|].
  by rewrite IH, length_insert.
Qed.

Lemma write_valid s buf updates a : valid s a → valid (write s buf updates) a.
Proof.
  intros (b & Hb & Hall). unfold write. destruct (s !! buf) as [b0|] eqn:E; [|by exists b].
  destruct (decide (buffer a = buf)) as [<-|Hne].
  - rewrite E in Hb. injection Hb as ->. eexists. split.
    + apply list_lookup_insert_eq. by eapply lookup_lt_Some.
    + by rewrite foldl_insert_length.
  - exists b. split; [|done]. by rewrite list_lookup_insert_ne.
Qed.

Lemma array_setitem_valid a sel value s s' r b :
  array_setitem a sel value s = (s', r) → valid s b → valid s' b.
Proof.
  intros H Hb. unfold array_setitem in H.
  assert (∀ ps, (λ s0 : store,
              match broadcast s0 value (length ps) with
              | Some cs => (write s0 (buffer a) (zip (positions (view a ps)) cs), Ok tt)
              | None => (s0, Raise (ValueError Broadcast))
              end) s = (s', r) → valid s' b) as G.
  { intros ps. simpl. destruct (broadcast s value (length ps)); intros [= <- <-]; [|done].
    by apply write_valid. }
  destruct sel; try (by injection H as <- <-).
  - destruct (wrap_index (alen a) z); [by apply (G [n])|by injection H as <- <-].
  - destruct (slice_positions sl (alen a)) as [ps|]; [by apply (G ps)|by injection H as <- <-].
Qed.

Lemma inplace_valid column cs value s t (w' : world) (r : result unit) b :
  (do t0 <- get_table;
   match columns_get t0 column with
   | Some a => on_store (array_setitem a cs value)
   | None => raise KeyError
   end) (s, t) = (w', r) →
  valid s b → valid w'.1 b.
Proof.
  unfold bind, get_table. cbn [fst snd]. intros H Hb.
  destruct (columns_get t column) as [arr|] eqn:Ea; [|by injection H as <-].
  unfold on_store in H. cbn [fst snd] in H.
  destruct (array_setitem arr cs value s) as [s1 r1] eqn:E. injection H as <- <-.
  by eapply array_setitem_valid.
Qed.

(** An assignment leaves every array of the store in the store. *)
Lemma Table_setitem_valid index value s t w' r b :
  Table_setitem index value (s, t) = (w', r) → valid s b → valid w'.1 b.
Proof.
  intros H Hv. unfold Table_setitem in H.
  destruct index as [[name| | | | |]|l]; try (by injection H as <-).
  - run_in H. destruct value as [c|l|v|n]; simpl in H; try (by injection H as <-).
    + destruct (check_shapes _ _); injection H as <-; simpl;
        (eapply valid_prefix; [by apply prefix_app_r|done]).
    + destruct (check_shapes _ _); by injection H as <-.
  - unfold bind at 1 in H. destruct (item l 0 (s, t)) as [w0 [i0|e]] eqn:E0;
      apply item_world in E0 as ->; [|by injection H as <-].
    destruct i0 as [column| | | | |]; try (by injection H as <-).
    unfold bind at 1 in H. destruct (item l 1 (s, t)) as [w1 [i1|e]] eqn:E1;
      apply item_world in E1 as ->; [|by injection H as <-].
    destruct i1 as [|z|sl| | |]; try (by injection H as <-).
    + destruct l as [|x1 [|x2 [|x3 l']]]; try (by injection H as <-).
      by eapply inplace_valid.
    + destruct l as [|x1 [|x2 [|x3 l']]]; try (by injection H as <-).
      by eapply inplace_valid.
Qed.

Lemma Table_delitem_sub key s t w' r :
  Table_delitem key (s, t) = (w', r) → w'.2 ⊆ t.
Proof.
  unfold Table_delitem.
  destruct key as [[name| | | | |]|l]; try (by intros [= <-]).
  - unfold bind, get_table, put_table, raise. simpl.
    destruct (columns_get t name); intros [= <-]; [apply columns_del_sub|done].
  - destruct (existsb _ l); by intros [= <-].
Qed.

Lemma separate_sym s t u : separate s t u → separate s u t.
Proof.
  intros (Ht & Hu & Hd). split; [done|]. split; [done|].
  intros a b Ha Hb Heq. by apply (Hd b a).
Qed.

(** A change of one of two tables that share no buffer, by a value that
    is no array of the other, leaves them without a shared buffer and
    changes no element of the other. *)
Lemma mutate_separate s self other m :
  separate s self other → foreign s other m →
  separate (mutate (s, self) m).1 (mutate (s, self) m).2 other ∧
  (∀ b, valid s b → valid (mutate (s, self) m).1 b) ∧
  (∀ b, b ∈ values other → cells (mutate (s, self) m).1 b = cells s b).
Proof.
  intros (Hvs & Hvo & Hd) Hm.
  pose proof Hvs as Hvs'. pose proof Hvo as Hvo'.
  unfold valid_table in Hvs', Hvo'. rewrite Forall_forall in Hvs', Hvo'.
  destruct m as [index value|key]; unfold mutate.
  - destruct (Table_setitem index value (s, self)) as [w' r] eqn:E. cbn [fst].
    assert (∀ b, valid s b → valid w'.1 b) as Hkeep.
    { intros b. by eapply Table_setitem_valid. }
    split; [|split; [done|]].
    + split; [|split].
      * apply Forall_forall. intros a Ha.
        destruct (Table_setitem_table _ _ _ _ _ E) as [Heq|(name & a0 & -> & -> & _ & Heq)];
          simpl in Heq.
        { rewrite Heq in Ha. auto. }
        apply Table_setitem_name_Ok in E as (a1 & s1 & Hma & -> & _). simpl in *.
        apply columns_set_values in Ha as [->|Ha]; [|auto].
        apply ma_array_array in Hma as [Hp [->|[_ Hva]]]; [|done].
        destruct (Hm _ _ eq_refl) as [Hva _]. by eapply valid_prefix.
      * apply Forall_forall. intros b Hb. auto.
      * intros a b Ha Hb.
        destruct (Table_setitem_table _ _ _ _ _ E) as [Heq|(name & a0 & -> & -> & _ & Heq)];
          simpl in Heq.
        { rewrite Heq in Ha. auto. }
        apply Table_setitem_name_Ok in E as (a1 & s1 & Hma & -> & _). simpl in *.
        apply columns_set_values in Ha as [->|Ha]; [|auto].
        apply ma_array_array in Hma as [Hp [->|[Hlen _]]].
        -- destruct (Hm _ _ eq_refl) as [_ Hne]. auto.
        -- specialize (Hvo' b Hb). apply valid_buffer in Hvo'. lia.
    + intros b Hb. eapply Table_setitem_frame; [exact E|auto|].
      intros a Ha Heq. by apply (Hd a b).
  - destruct (Table_delitem key (s, self)) as [w' r] eqn:E. cbn [fst].
    pose proof (Table_delitem_store _ _ _ _ _ E) as Hs.
    pose proof (Table_delitem_sub _ _ _ _ _ E) as Hsub. rewrite Hs.
    assert (∀ a, a ∈ values w'.2 → a ∈ values self) as Hin.
    { intros a Ha. apply list_elem_of_fmap in Ha as (x & -> & Hx).
      apply list_elem_of_fmap. exists x. split; [done|]. by apply Hsub. }
    split; [|split; [done|done]]. split; [|split; [done|]].
    + apply Forall_forall. intros a Ha. auto.
    + intros a b Ha Hb. auto.
Qed.

Lemma mutations_separate ms : ∀ s self other,
  separate s self other → foreign_all other ms (s, self) →
  separate (mutations ms (s, self)).1 (mutations ms (s, self)).2 other ∧
  (∀ b, b ∈ values other → cells (mutations ms (s, self)).1 b = cells s b).
Proof.
  unfold mutations. induction ms as [|m ms IH]; intros s self other Hsep Hall.
  - by split.
  - destruct Hall as [Hm Hall]. cbn [fst] in Hm. simpl.
    destruct (mutate_separate s self other m Hsep Hm) as (Hsep' & Hkeep & Hcells).
    destruct (mutate (s, self) m) as [s1 self1] eqn:E. simpl in *.
    destruct (IH s1 self1 other Hsep' Hall) as [Hsep2 Hcells2].
    split; [done|]. intros b Hb. rewrite Hcells2 by done. auto.
Qed.

(** C8, amended: the table an indexing read returns lies in the store
    with the table read.  Assigning a whole column to a table, or
    deleting one, changes no element of the store, at any time.  When
    the rows were selected by a list of positions the returned columns
    are copies: the two tables share no buffer, and the next assignment
    to one table, in place or not, changes no element of the other.
    Tables that share no buffer stay so through every sequence of
    assignments and deletions on one of them in which no array that
    shares a buffer with the other is assigned as a value, and no
    element of the other changes; as the two tables share no buffer at
    the end, the same holds for the changes made next, on either
    table. *)
Theorem C8_views_and_copies t index s s1 u :
  valid_table s t → Table_getitem t index s = (s1, Ok (RetTable u)) →
  valid_table s1 t ∧ valid_table s1 u ∧
  (∀ self other name value w' r,
     (self = t ∧ other = u) ∨ (self = u ∧ other = t) →
     Table_setitem (IAtom (AStr name)) value (s1, self) = (w', r) →
     ∀ a, a ∈ values other → cells w'.1 a = cells s1 a) ∧
  (∀ self key w' r,
     self = t ∨ self = u → Table_delitem key (s1, self) = (w', r) → w'.1 = s1) ∧
  (∀ l columns, Table_selection t index s = (s, Ok (AList l, columns)) →
     ∀ self other index' value w' r,
       (self = t ∧ other = u) ∨ (self = u ∧ other = t) →
       Table_setitem index' value (s1, self) = (w', r) →
       ∀ a, a ∈ values other → cells w'.1 a = cells s1 a) ∧
  (∀ s0 self name value w' r,
     Table_setitem (IAtom (AStr name)) value (s0, self) = (w', r) →
     ∀ a, valid s0 a → cells w'.1 a = cells s0 a) ∧
  (∀ s0 self key w' r, Table_delitem key (s0, self) = (w', r) → w'.1 = s0) ∧
  (∀ l columns, Table_selection t index s = (s, Ok (AList l, columns)) →
     separate s1 t u ∧ separate s1 u t) ∧
  (∀ s0 self other ms,
     separate s0 self other → foreign_all other ms (s0, self) →
     separate (mutations ms (s0, self)).1 (mutations ms (s0, self)).2 other ∧
     separate (mutations ms (s0, self)).1 other (mutations ms (s0, self)).2 ∧
     ∀ a, a ∈ values other → cells (mutations ms (s0, self)).1 a = cells s0 a).
Proof.
  intros Hv H. destruct (Table_getitem_arrays t index s s1 u Hv H) as [Hp Hu].
  assert (valid_table s1 t) as Hvt by (by eapply valid_table_prefix).
  assert (valid_table s1 u) as Hvu.
  { apply Forall_forall. intros b Hb. by apply Hu. }
  split; [done|]. split; [done|].
  split; [|split; [|split; [|split; [|split; [|split]]]]].
  - intros self other name value w' r Hor Hset a Ha.
    eapply Table_setitem_name_frame; [exact Hset|].
    unfold valid_table in *. rewrite Forall_forall in Hvt, Hvu.
    destruct Hor as [[_ ->]|[_ ->]]; auto.
  - intros self key w' r _. apply Table_delitem_store.
  - intros l columns Hsel self other index' value w' r Hor Hset a Ha.
    unfold valid_table in *. rewrite Forall_forall in Hvt, Hvu, Hv.
    eapply Table_setitem_frame; [exact Hset| |].
    + destruct Hor as [[_ ->]|[_ ->]]; auto.
    + intros b Hb Heq. destruct Hor as [[-> ->]|[-> ->]].
      * destruct (Hu a Ha) as [_ Hfresh]. specialize (Hfresh l columns Hsel).
        apply Hv, valid_buffer in Hb. lia.
      * destruct (Hu b Hb) as [_ Hfresh]. specialize (Hfresh l columns Hsel).
        apply Hv, valid_buffer in Ha. lia.
  - intros s0 self name value w' r Hset a Ha. by eapply Table_setitem_name_frame.
  - intros s0 self key w' r. apply Table_delitem_store.
  - intros l columns Hsel.
    assert (separate s1 t u) as Hsep; [|split; [done|by apply separate_sym]].
    split; [done|]. split; [done|]. intros a b Ha Hb Heq.
    destruct (Hu b Hb) as [_ Hfresh]. specialize (Hfresh l columns Hsel).
    unfold valid_table in Hv. rewrite Forall_forall in Hv.
    apply Hv, valid_buffer in Ha. lia.
  - intros s0 self other ms Hsep Hall.
    destruct (mutations_separate ms s0 self other Hsep Hall) as [Hsep' Hcells].
    split; [done|]. split; [by apply separate_sym|done].
Qed.

(** C8 as stated fails: the table read with a slice holds views, and an
    element assigned through the parent shows in it. *)
Lemma C8_counterexample :
  ¬ (∀ t index s s1 u index' value w' r,
       reachable t → valid_table s t →
       Table_getitem t index s = (s1, Ok (RetTable u)) →
       Table_setitem index' value (s1, t) = (w', r) →
       ∀ a, a ∈ values u → cells w'.1 a = cells s1 a).
Proof.
  intros H.
  specialize (H [("a", Array 0 [0; 1; 2])]
                (IAtom (ASlice (Slice (Some 0%Z) (Some 2%Z) None)))
                [[Int 1; Int 2; Int 3]] [[Int 1; Int 2; Int 3]]
                [("a", Array 0 [0; 1])]
                (ITuple [AStr "a"; AInt 0]) (VScalar (Int 99))
                ([[Int 99; Int 2; Int 3]], [("a", Array 0 [0; 1; 2])]) (Ok tt)).
  assert (cells [[Int 99; Int 2; Int 3]] (Array 0 [0; 1]) = cells [[Int 1; Int 2; Int 3]] (Array 0 [0; 1])) as E; [|done].
  apply H.
  - by apply (reach_init (SrcSequence [("a", VSeq [Int 1; Int 2; Int 3])]) IndexFalse [] [[Int 1; Int 2; Int 3]]).
  - repeat constructor. exists [Int 1; Int 2; Int 3]. split; [done|]. repeat constructor.
  - reflexivity.
  - reflexivity.
  - apply elem_of_cons. by left.
Qed.

(** The condition on the arrays assigned is needed: a column of the
    other table assigned as a column is shared from then on, and an
    element assigned in place after that shows in the other table. *)
Example mutations_shared_array :
  let t := [("a", Array 0 [0; 1; 2])] in
  let u := [("a", Array 1 [0; 1; 2])] in
  let s1 := [[Int 1; Int 2; Int 3]; [Int 1; Int 2; Int 3]] in
  let ms := [SetItem (IAtom (AStr "b")) (VArray (Array 1 [0; 1; 2]));
             SetItem (ITuple [AStr "b"; AInt 0]) (VScalar (Int 99))] in
  Table_getitem t (IAtom (AList [EInt 0; EInt 1; EInt 2])) [[Int 1; Int 2; Int 3]]
    = (s1, Ok (RetTable u)) ∧
  separate s1 t u ∧
  ¬ foreign_all u ms (s1, t) ∧
  mutations ms (s1, t)
    = ([[Int 1; Int 2; Int 3]; [Int 99; Int 2; Int 3]],
       [("a", Array 0 [0; 1; 2]); ("b", Array 1 [0; 1; 2])]) ∧
  cells (mutations ms (s1, t)).1 (Array 1 [0; 1; 2]) = [Int 99; Int 2; Int 3] ∧
  cells s1 (Array 1 [0; 1; 2]) = [Int 1; Int 2; Int 3].
Proof.
  simpl. split; [reflexivity|]. split; [|split; [|split; [reflexivity|split; reflexivity]]].
  - split; [|split].
    + repeat constructor. eexists. split; [reflexivity|]. repeat constructor.
    + repeat constructor. eexists. split; [reflexivity|]. repeat constructor.
    + intros a b Ha Hb. apply list_elem_of_singleton in Ha as ->.
      apply list_elem_of_singleton in Hb as ->. done.
  - intros [Hm _]. destruct (Hm _ _ eq_refl) as [_ Hne].
    apply (Hne (Array 1 [0; 1; 2])); [|done]. apply list_elem_of_singleton. done.
Qed.

(** ** read_csv *)

Lemma forM_setitem_seqs L (ls : list (list cell)) : ∀ (names : list string) s (t : table),
  length names = length ls → NoDup (keys t ++ names) →
  Forall (λ l, length l = L) ls → Forall (λ a, alen a = L) (values t) →
  forM_ (λ kv, Table_setitem (IAtom (AStr kv.1)) kv.2) (zip names (VSeq <$> ls)) (s, t)
  = ((s ++ ls, t ++ zip names (arrays_from (length s) ls)), Ok tt).
Proof.
  induction ls as [|l ls IH]; intros names s t Hlen Hnd Hls Ht.
  - destruct names; [|done]. simpl. by rewrite !app_nil_r.
  - destruct names as [|k names]; [done|]. simpl in Hlen.
    apply Forall_cons in Hls as [Hl Hls].
    assert (k ∉ keys t) as Hk.
    { apply NoDup_app in Hnd as (_ & Hnd & _). intros Hin. apply (Hnd _ Hin).
      apply elem_of_cons. by left. }
    rewrite fmap_cons. cbn [zip zip_with]. rewrite forM_cons_run. cbn [fst snd].
    assert (Table_setitem (IAtom (AStr k)) (VSeq l) (s, t)
            = ((s ++ [l], t ++ [(k, Array (length s) (seq 0 (length l)))]), Ok tt)) as ->.
    { unfold Table_setitem, bind, on_store, ma_array, alloc, get_table, put_table. cbn [fst snd].
      assert (check_shapes (values t) (Array (length s) (seq 0 (length l))) = Ok tt) as ->.
      { apply check_shapes_Ok. eapply Forall_impl; [exact Ht|]. intros a ->.
        unfold alen. simpl. by rewrite length_seq. }
      by rewrite columns_set_new. }
    rewrite IH.
    + rewrite <- !app_assoc, length_app. simpl.
      replace (length s + 1) with (S (length s)) by lia. done.
    + lia.
    + unfold keys in *. rewrite fmap_app. simpl. rewrite <- app_assoc. done.
    + done.
    + unfold values. rewrite fmap_app. apply Forall_app. split; [done|].
      repeat constructor. unfold alen. simpl. by rewrite length_seq.
Qed.

Lemma Table_store_seqs L names (ls : list (list cell)) s :
  length names = length ls → Forall (λ l, length l = L) ls →
  Table_store names (VSeq <$> ls) s
  = (s ++ ls, Ok (zip (dedup names) (arrays_from (length s) ls))).
Proof.
  intros Hlen Hls. unfold Table_store, with_table.
  rewrite (forM_setitem_seqs L); try done.
  - by rewrite dedup_length.
  - apply dedup_NoDup.
Qed.

Lemma arrays_from_lookup n ls j l :
  ls !! j = Some l → arrays_from n ls !! j = Some (Array (n + j) (seq 0 (length l))).
Proof.
  revert n j. induction ls as [|l0 ls IH]; intros n j H; [done|].
  destruct j as [|j]; simpl in *.
  - injection H as ->. by rewrite Nat.add_0_r.
  - rewrite (IH (S n) j H). do 2 f_equal. lia.
Qed.

Lemma arrays_from_length n ls : length (arrays_from n ls) = length ls.
Proof. revert n. induction ls; intros n; simpl; [done|]. by rewrite IHls. Qed.

Lemma arrays_from_spec n s ls a :
  n = length s → a ∈ arrays_from n ls →
  valid (s ++ ls) a ∧ ∃ j l, ls !! j = Some l ∧ a = Array (n + j) (seq 0 (length l))
                           ∧ cells (s ++ ls) a = l.
Proof.
  revert n s. induction ls as [|l ls IH]; intros n s Hn Ha; [by apply elem_of_nil in Ha|].
  simpl in Ha. apply elem_of_cons in Ha as [->|Ha].
  - subst n. replace (s ++ l :: ls) with ((s ++ [l]) ++ ls) by (by rewrite <- app_assoc).
    split.
    + eapply valid_prefix; [|apply valid_alloc]. by apply prefix_app_r.
    + exists 0, l. split; [done|]. split; [by rewrite Nat.add_0_r|].
      rewrite (cells_prefix (s ++ [l])); [apply cells_alloc_new| |apply valid_alloc].
      by apply prefix_app_r.
  - replace (s ++ l :: ls) with ((s ++ [l]) ++ ls) by (by rewrite <- app_assoc).
    destruct (IH (S n) (s ++ [l])) as (Hv & j & l' & Hj & -> & Hc); [|done|].
    { rewrite length_app. simpl. lia. }
    split; [done|]. exists (S j), l'. split; [done|]. split; [|done].
    f_equal. lia.
Qed.

(** *** The columns of the rows *)

Lemma foldr_min_le (rest : list (list string)) n0 j :
  j < foldr (λ row n, min (length row) n) n0 rest →
  j < n0 ∧ Forall (λ row, j < length row) rest.
Proof.
  induction rest as [|r rest IH]; simpl; [by split|].
  intros H. destruct IH as [H0 Hall]; [lia|]. split; [done|].
  constructor; [lia|done].
Qed.

Lemma omap_lookup_length (rows : list (list string)) j :
  Forall (λ row, j < length row) rows →
  length (omap (λ row, row !! j) rows) = length rows.
Proof.
  induction 1 as [|row rows Hj Hall IH]; simpl; [done|].
  destruct (row !! j) eqn:E; [|apply lookup_ge_None in E; lia].
  simpl. f_equal. exact IH.
Qed.

Lemma zip_star_length rows column :
  column ∈ zip_star rows → length column = length rows.
Proof.
  unfold zip_star. destruct rows as [|r rest]; [by intros H; apply elem_of_nil in H|].
  intros H. apply list_elem_of_fmap in H as (j & -> & Hj).
  apply elem_of_seq in Hj as [_ Hj]. simpl in Hj.
  apply foldr_min_le in Hj as [H0 Hall].
  apply omap_lookup_length. by constructor.
Qed.

(** *** The loop of conversions *)

Section Convert.

Variable to_float : cell → option float.

Lemma columns_get_set t k b k' :
  k ∈ keys t →
  columns_get (columns_set t k b) k' = if decide (k = k') then Some b else columns_get t k'.
Proof.
  unfold keys. induction t as [|[k0 a0] t IH]; [by intros H; apply elem_of_nil in H|].
  rewrite fmap_cons. cbn [fst columns_set columns_get]. intros Hin.
  destruct (decide (k0 = k)) as [->|Hne].
  - cbn [columns_get]. destruct (decide (k = k')); done.
  - apply elem_of_cons in Hin as [->|Hin]; [done|].
    cbn [columns_get]. destruct (decide (k0 = k')) as [->|].
    + by rewrite decide_False by congruence.
    + by apply IH.
Qed.

Lemma columns_set_keys_in t k b : k ∈ keys t → keys (columns_set t k b) = keys t.
Proof. intros H. by rewrite columns_set_keys, decide_True. Qed.

Lemma convert_column_run k s t a :
  columns_get t k = Some a → valid s a →
  Forall (λ c, alen c = alen a) (values t) →
  convert_column to_float k (s, t)
  = match mapM to_float (cells s a) with
    | Some fs =>
        ((s ++ [Float <$> fs],
          columns_set t k (Array (length s) (seq 0 (length fs)))), Ok tt)
    | None => ((s, t), Ok tt)
    end.
Proof.
  intros Ha Hv Hall. unfold convert_column, try_pass.
  unfold bind at 1. unfold get_table at 1. cbn [fst snd].
  unfold bind at 1. unfold on_store at 1. cbn [fst snd].
  unfold column_read. rewrite Ha. unfold array_getitem.
  rewrite slice_positions_all, view_all. unfold ret at 1.
  unfold bind at 1. unfold on_store at 1. cbn [fst snd]. unfold astype_float64.
  destruct (mapM to_float (cells s a)) as [fs|] eqn:E; [|done].
  unfold alloc. rewrite length_fmap.
  unfold Table_setitem, bind, on_store, ma_array, ret, get_table, put_table. cbn [fst snd].
  assert (check_shapes (values t) (Array (length s) (seq 0 (length fs))) = Ok tt) as ->; [|done].
  apply check_shapes_Ok. eapply Forall_impl; [exact Hall|]. intros c ->.
  unfold alen at 2. simpl. rewrite length_seq.
  apply length_mapM in E. rewrite <- E. symmetry. by apply cells_length.
Qed.

Lemma convert_loop ns : ∀ s t,
  NoDup ns → (∀ k, k ∈ ns → k ∈ keys t) →
  wf_table t → valid_table s t →
  ∃ s' t', forM_ (convert_column to_float) ns (s, t) = ((s', t'), Ok tt) ∧
    keys t' = keys t ∧
    ∀ k a, columns_get t k = Some a →
      ∃ a', columns_get t' k = Some a' ∧
            cells s' a' = if decide (k ∈ ns) then converted to_float (cells s a) else cells s a.
Proof.
  induction ns as [|k ns IH]; intros s t Hnd Hin Hwf Hv.
  - exists s, t. split; [done|]. split; [done|]. intros k a Ha. exists a. split; [done|].
    rewrite decide_False; [done|apply not_elem_of_nil].
  - apply NoDup_cons in Hnd as [Hk Hnd].
    assert (k ∈ keys t) as Hkt by (apply Hin, elem_of_cons; by left).
    destruct (columns_get t k) as [a|] eqn:Ea; [|by apply columns_get_None in Ea].
    pose proof (columns_get_values _ _ _ Ea) as Hav.
    unfold valid_table in Hv. pose proof Hv as Hv'. rewrite Forall_forall in Hv'.
    assert (Forall (λ c, alen c = alen a) (values t)) as Hall.
    { apply Forall_forall. intros c Hc. by apply Hwf. }
    rewrite forM_cons_run, (convert_column_run k s t a Ea (Hv' a Hav) Hall).
    destruct (mapM to_float (cells s a)) as [fs|] eqn:E.
    + set (b := Array (length s) (seq 0 (length fs))).
      destruct (IH (s ++ [Float <$> fs]) (columns_set t k b)) as (s' & t' & Hrun & Hkeys & Hcols).
      * done.
      * intros k' Hk'. rewrite columns_set_keys_in by done. apply Hin, elem_of_cons. by right.
      * apply columns_set_wf; [done|]. eapply Forall_impl; [exact Hall|].
        intros c ->. unfold b, alen at 2. simpl. rewrite length_seq.
        apply length_mapM in E. rewrite <- E. symmetry. apply cells_length. by apply Hv'.
      * apply Forall_forall. intros c Hc. apply columns_set_values in Hc as [->|Hc].
        -- unfold b. rewrite <- (length_fmap Float). apply valid_alloc.
        -- eapply valid_prefix; [by apply prefix_app_r|]. by apply Hv'.
      * exists s', t'. split; [done|]. split; [by rewrite Hkeys, columns_set_keys_in|].
        intros k' a0 Ha0. destruct (decide (k = k')) as [<-|Hne].
        -- rewrite Ea in Ha0. injection Ha0 as <-.
           destruct (Hcols k b) as (a' & Ha' & Hc').
           { by rewrite columns_get_set, decide_True. }
           exists a'. split; [done|]. rewrite Hc', decide_False by done.
           rewrite decide_True by (apply elem_of_cons; by left).
           unfold converted. rewrite E. unfold b. rewrite <- (length_fmap Float).
           apply cells_alloc_new.
        -- destruct (Hcols k' a0) as (a' & Ha' & Hc').
           { by rewrite columns_get_set, decide_False. }
           exists a'. split; [done|]. rewrite Hc'.
           assert (cells (s ++ [Float <$> fs]) a0 = cells s a0) as ->.
           { apply cells_alloc. apply Hv'. by eapply columns_get_values. }
           destruct (decide (k' ∈ ns)).
           ++ rewrite decide_True; [done|]. apply elem_of_cons. by right.
           ++ rewrite decide_False; [done|]. rewrite not_elem_of_cons. split; [congruence|done].
    + destruct (IH s t) as (s' & t' & Hrun & Hkeys & Hcols); try done.
      { intros k' Hk'. apply Hin, elem_of_cons. by right. }
      exists s', t'. split; [done|]. split; [done|].
      intros k' a0 Ha0. destruct (Hcols k' a0 Ha0) as (a' & Ha' & Hc').
      exists a'. split; [done|]. rewrite Hc'.
      destruct (decide (k = k')) as [<-|Hne].
      * rewrite Ea in Ha0. injection Ha0 as <-.
        rewrite decide_False by done. rewrite decide_True by (apply elem_of_cons; by left).
        unfold converted. by rewrite E.
      * destruct (decide (k' ∈ ns)).
        -- rewrite decide_True; [done|]. apply elem_of_cons. by right.
        -- rewrite decide_False; [done|]. rewrite not_elem_of_cons. split; [congruence|done].
Qed.

End Convert.

Lemma lookup_of_get (t : table) j k a :
  NoDup (keys t) → keys t !! j = Some k → columns_get t k = Some a → t !! j = Some (k, a).
Proof.
  intros Hnd Hj Ha. apply columns_get_Some, list_elem_of_lookup_1 in Ha as [i Hi].
  assert (keys t !! i = Some k) as Hi'.
  { unfold keys. by rewrite list_lookup_fmap, Hi. }
  by rewrite <- (NoDup_lookup _ _ _ _ Hnd Hi' Hj).
Qed.

Lemma cells_arrays_from s (ls : list (list cell)) j l :
  ls !! j = Some l → cells (s ++ ls) (Array (length s + j) (seq 0 (length l))) = l.
Proof.
  intros H. unfold cells. cbn [buffer positions].
  rewrite lookup_app_r by lia. replace (length s + j - length s) with j by lia.
  rewrite H. rewrite omap_lookup_seq by (simpl; lia). by rewrite drop_0, firstn_all.
Qed.

(** C9: with conversion, [read_csv] returns a table for every input;
    its names are those [dedup] makes of the header; a column all of
    whose values convert holds their floats, and a column with a value
    that does not convert holds its texts as they were read.  The rows
    of ["a,b\n1,2\n3,4\n"] give [a = [1.0, 3.0]] and [b = [2.0, 4.0]]. *)
Theorem C9_read_csv_convert (to_float : cell → option float) rows s :
  (∃ s' t,
     read_csv to_float rows true s = (s', Ok t) ∧
     keys t = dedup (hd EmptyString <$> zip_star rows) ∧
     ∀ j column, zip_star rows !! j = Some column →
       ∃ name a, t !! j = Some (name, a) ∧
         (∀ fs, mapM to_float (Text <$> tail column) = Some fs →
                cells s' a = Float <$> fs) ∧
         (mapM to_float (Text <$> tail column) = None →
                cells s' a = Text <$> tail column)) ∧
  (to_float (Text "1") = Some 1%float → to_float (Text "2") = Some 2%float →
   to_float (Text "3") = Some 3%float → to_float (Text "4") = Some 4%float →
   rows = [["a"; "b"]; ["1"; "2"]; ["3"; "4"]] →
   ∃ s' a b,
     read_csv to_float rows true s = (s', Ok [("a", a); ("b", b)]) ∧
     cells s' a = [Float 1; Float 3] ∧ cells s' b = [Float 2; Float 4]).
Proof.
  assert (∃ s' t,
     read_csv to_float rows true s = (s', Ok t) ∧
     keys t = dedup (hd EmptyString <$> zip_star rows) ∧
     ∀ j column, zip_star rows !! j = Some column →
       ∃ name a, t !! j = Some (name, a) ∧
         cells s' a = converted to_float (Text <$> tail column)) as G.
  { set (cols := zip_star rows).
    set (names := hd EmptyString <$> cols).
    set (ls := (λ column : list string, Text <$> tail column) <$> cols).
    assert (Table_store names ((λ column, VSeq (Text <$> tail column)) <$> cols) s
            = (s ++ ls, Ok (zip (dedup names) (arrays_from (length s) ls)))) as Hstore.
    { replace ((λ column, VSeq (Text <$> tail column)) <$> cols) with (VSeq <$> ls)
        by (unfold ls; by rewrite <- list_fmap_compose).
      apply (Table_store_seqs (pred (length rows))).
      - unfold names, ls. by rewrite !length_fmap.
      - apply Forall_forall. intros l Hl. apply list_elem_of_fmap in Hl as (c & -> & Hc).
        apply zip_star_length in Hc. rewrite length_fmap. destruct c; simpl in *; lia. }
    set (t0 := zip (dedup names) (arrays_from (length s) ls)) in *.
    assert (length (dedup names) = length (arrays_from (length s) ls)) as Hlen.
    { rewrite dedup_length, arrays_from_length. unfold names, ls. by rewrite !length_fmap. }
    assert (keys t0 = dedup names) as Hkeys0 by (apply fst_zip; lia).
    assert (values t0 = arrays_from (length s) ls) as Hvals0 by (apply snd_zip; lia).
    assert (wf_table t0) as Hwf0 by (by eapply Table_store_wf).
    assert (valid_table (s ++ ls) t0) as Hv0.
    { unfold valid_table. rewrite Hvals0. apply Forall_forall. intros a Ha.
      by apply (arrays_from_spec (length s) s ls a eq_refl) in Ha as [? _]. }
    destruct (convert_loop to_float (keys t0) (s ++ ls) t0) as (s' & t' & Hrun & Hkeys & Hcols);
      try done.
    { apply Hwf0. }
    exists s', t'. split.
    - unfold read_csv. unfold bind at 1. fold cols. fold names. rewrite Hstore.
      unfold with_table. by rewrite Hrun.
    - split; [by rewrite Hkeys, Hkeys0|].
      intros j column Hj.
      assert (ls !! j = Some (Text <$> tail column)) as Hlj.
      { unfold ls. by rewrite list_lookup_fmap, Hj. }
      destruct (dedup names !! j) as [k|] eqn:Hk.
      2:{ apply lookup_ge_None in Hk. apply lookup_lt_Some in Hlj.
          rewrite arrays_from_length in Hlen. lia. }
      set (aj := Array (length s + j) (seq 0 (length (Text <$> tail column)))).
      assert (t0 !! j = Some (k, aj)) as Ht0j.
      { unfold t0. apply lookup_zip_with_Some. exists k, aj. split; [done|].
        split; [done|]. by apply arrays_from_lookup. }
      assert (columns_get t0 k = Some aj) as Hget.
      { apply columns_get_elem; [apply Hwf0|]. by eapply list_elem_of_lookup_2. }
      destruct (Hcols k aj Hget) as (a' & Ha' & Hc').
      exists k, a'. split.
      + apply lookup_of_get; [rewrite Hkeys; apply Hwf0| |done].
        rewrite Hkeys, Hkeys0. done.
      + rewrite Hc', decide_True.
        * unfold aj. by rewrite cells_arrays_from.
        * rewrite Hkeys0. by eapply list_elem_of_lookup_2. }
  split.
  - destruct G as (s' & t & Hrun & Hkeys & Hcols). exists s', t.
    split; [done|]. split; [done|]. intros j column Hj.
    destruct (Hcols j column Hj) as (name & a & Ht & Hc). exists name, a.
    split; [done|]. unfold converted in Hc.
    split; [intros fs E|intros E]; by rewrite E in Hc.
  - intros H1 H2 H3 H4 ->. destruct G as (s' & t & Hrun & Hkeys & Hcols).
    destruct (Hcols 0 ["a"; "1"; "3"] eq_refl) as (n0 & a & Ht0 & Hc0).
    destruct (Hcols 1 ["b"; "2"; "4"] eq_refl) as (n1 & b & Ht1 & Hc1).
    exists s', a, b. unfold converted in Hc0, Hc1. simpl in Hc0, Hc1.
    rewrite H1, H3 in Hc0. rewrite H2, H4 in Hc1. simpl in Hc0, Hc1.
    split; [|done]. rewrite Hrun. do 2 f_equal.
    assert (keys t = ["a"; "b"]) as Hk by (rewrite Hkeys; reflexivity).
    destruct t as [|[k0 a0] [|[k1 a1] [|? ?]]]; try done.
    simpl in *. by injection Hk as -> ->; injection Ht0 as _ ->; injection Ht1 as _ ->.
Qed.

(** C1 as stated fails: when a repeated name has the form [k-n] of
    another repeated name, its first occurrence does not keep it.  The
    names [a, a, a-1, a-1] are stored as [a, a-1-1, a-1-2, a-1-3]. *)
Lemma C1_counterexample :
  ¬ (∀ data index s s1 s' names columns t,
       source_items data index s = (s1, Ok (names, columns)) →
       Table_init data index s = (s', Ok t) →
       ∀ p K, names !! p = Some K → key_count names K ≠ 1 →
              first_of names K p → keys t !! p = Some K).
Proof.
  intros H.
  specialize (H (SrcSequence [("a", VSeq [Int 1]); ("a", VSeq [Int 2]);
                              ("a-1", VSeq [Int 3]); ("a-1", VSeq [Int 4])])
                IndexFalse [] [] [[Int 1]; [Int 2]; [Int 3]; [Int 4]]
                ["a"; "a"; "a-1"; "a-1"]
                [VSeq [Int 1]; VSeq [Int 2]; VSeq [Int 3]; VSeq [Int 4]]
                [("a", Array 0 [0]); ("a-1-1", Array 1 [0]);
                 ("a-1-2", Array 2 [0]); ("a-1-3", Array 3 [0])]
                eq_refl eq_refl 2 "a-1" eq_refl).
  assert (Some "a-1-2" = Some "a-1") as E; [|done].
  apply H.
  - vm_compute. lia.
  - intros q Hq. destruct q as [|[|q]]; [done|done|lia].
Qed.

(** C5 as stated fails: the row slice [i, i + 1) holds no row when [i]
    is [-1]; [table[-1]] on the table of five rows has no row. *)
Lemma C5_counterexample :
  ¬ (∀ t s i,
       reachable t → values t ≠ [] →
       ∃ s' u, Table_getitem t (IAtom (AInt i)) s = (s', Ok (RetTable u)) ∧ len u = 1).
Proof.
  intros H.
  destruct (H ex_table ex_store (-1)%Z) as (s' & u & Hget & Hlen).
  - by apply (reach_init ex_source IndexFalse [] ex_store).
  - discriminate.
  - vm_compute in Hget. injection Hget as <- <-. discriminate Hlen.
Qed.

(** C6 as stated fails: the slice [p, p + 1) holds no element when [p]
    is [-1], or lies outside the column; [table["a", -1]] is empty. *)
Lemma C6_counterexample :
  ¬ (∀ t s name a p,
       columns_get t name = Some a → valid s a →
       ∃ s' b c, Table_getitem t (ITuple [AStr name; AInt p]) s
                 = (s', Ok (RetValue (VArray b))) ∧ cells s' b = [c]).
Proof.
  intros H.
  destruct (H ex_table ex_store "a" (Array 0 [0; 1; 2; 3; 4]) (-1)%Z eq_refl)
    as (s' & b & c & Hget & Hcells).
  - eexists. split; [reflexivity|]. repeat constructor.
  - vm_compute in Hget. injection Hget as <- <-. discriminate Hcells.
Qed.


(** ** The theorems at the example *)

Lemma C1_witness :
  source_items (SrcSequence [("x", VSeq [Int 1]); ("x", VSeq [Int 2])]) IndexFalse []
    = ([], Ok (["x"; "x"], [VSeq [Int 1]; VSeq [Int 2]])) ∧
  Table_init (SrcSequence [("x", VSeq [Int 1]); ("x", VSeq [Int 2])]) IndexFalse []
    = ([[Int 1]; [Int 2]], Ok [("x", Array 0 [0]); ("x-1", Array 1 [0])]) ∧
  regular ["x"; "x"] = true ∧
  NoDup (keys [("x", Array 0 [0]); ("x-1", Array 1 [0])]).
Proof.
  split; [reflexivity|]. split; [reflexivity|]. split; [reflexivity|].
  exact (proj1 (proj2 (C1_unique_names
           (SrcSequence [("x", VSeq [Int 1]); ("x", VSeq [Int 2])]) IndexFalse
           [] [] [[Int 1]; [Int 2]] ["x"; "x"] [VSeq [Int 1]; VSeq [Int 2]]
           [("x", Array 0 [0]); ("x-1", Array 1 [0])] eq_refl eq_refl))).
Defined.

Lemma C2_witness : reachable ex_table ∧ same_length ex_table ∧ shape ex_table = (5, 3).
Proof.
  assert (reachable ex_table) as Hr.
  { apply (reach_init ex_source IndexFalse [] ex_store). reflexivity. }
  split; [exact Hr|]. split.
  - exact (proj1 (C2_reachable_shape ex_table Hr)).
  - apply (proj2 (proj2 (C2_reachable_shape ex_table Hr)) (Array 0 [0; 1; 2; 3; 4])).
    apply elem_of_cons. left. reflexivity.
Defined.

Lemma C3_witness :
  len ex_table = 5 ∧
  ∃ s', Table_setitem (IAtom (AStr "d")) (VSeq [Int 7]) (ex_store, ex_table)
        = ((s', ex_table), Raise (ValueError (ExpectedReceived 5 1)))
      ∧ ∀ a, valid ex_store a → cells s' a = cells ex_store a.
Proof.
  split; [reflexivity|].
  apply (C3_length_mismatch ex_table ex_store "d" (VSeq [Int 7]) 1).
  - discriminate.
  - reflexivity.
  - discriminate.
Defined.


Lemma C5_witness :
  reachable ex_table ∧
  ∃ u, Table_getitem ex_table (IAtom (AInt 0)) ex_store = (ex_store, Ok (RetTable u)) ∧
       keys u = keys ex_table ∧ shape u = (1, 3).
Proof.
  assert (reachable ex_table) as Hr.
  { apply (reach_init ex_source IndexFalse [] ex_store). reflexivity. }
  split; [exact Hr|].
  destruct (proj2 (C5_integer_index ex_table ex_store 0 Hr)) as (u & Hu & Hk & _ & _ & _ & Hs).
  exists u. split; [exact Hu|]. split; [exact Hk|]. apply Hs; reflexivity.
Defined.

Lemma C6_witness :
  columns_get ex_table "a" = Some (Array 0 [0; 1; 2; 3; 4]) ∧
  Table_getitem ex_table (ITuple [AStr "a"; AInt 2]) ex_store
    = (ex_store, Ok (RetValue (VArray (Array 0 [2])))) ∧
  cells ex_store (Array 0 [2]) = [Int 30].
Proof.
  split; [reflexivity|]. split.
  - exact (proj1 (C6_name_position ex_table ex_store "a" (Array 0 [0; 1; 2; 3; 4]) 2 eq_refl)).
  - reflexivity.
Defined.

Lemma C8_witness :
  valid_table ex_store ex_table ∧
  Table_getitem ex_table (IAtom (AList [EInt 4; EInt 0])) ex_store
    = (ex_store ++ [[Int 50; Int 10]; [Text "t"; Text "p"]; [Int 5; Int 1]],
       Ok (RetTable [("a", Array 3 [0; 1]); ("b", Array 4 [0; 1]); ("c", Array 5 [0; 1])])) ∧
  valid_table (ex_store ++ [[Int 50; Int 10]; [Text "t"; Text "p"]; [Int 5; Int 1]])
              [("a", Array 3 [0; 1]); ("b", Array 4 [0; 1]); ("c", Array 5 [0; 1])].
Proof.
  assert (valid_table ex_store ex_table) as Hv.
  { repeat constructor; eexists; (split; [reflexivity|]); repeat constructor. }
  split; [exact Hv|]. split; [reflexivity|].
  exact (proj1 (proj2 (C8_views_and_copies ex_table (IAtom (AList [EInt 4; EInt 0]))
           ex_store _ _ Hv eq_refl))).
Defined.

Lemma C9_witness :
  ∃ s' a b,
    read_csv ex_to_float [["a"; "b"]; ["1"; "2"]; ["3"; "4"]] true []
      = (s', Ok [("a", a); ("b", b)]) ∧
    cells s' a = [Float 1; Float 3] ∧ cells s' b = [Float 2; Float 4].
Proof.
  apply (proj2 (C9_read_csv_convert ex_to_float [["a"; "b"]; ["1"; "2"]; ["3"; "4"]] []));
    reflexivity.
Defined.

Lemma C10_witness :
  reachable ex_table ∧
  ∃ u, Table_getitem ex_table (IAtom (AInt 7)) ex_store = (ex_store, Ok (RetTable u)) ∧
       keys u = keys ex_table ∧ shape u = (0, length ex_table) ∧
       ∀ a, a ∈ values u → alen a = 0.
Proof.
  assert (reachable ex_table) as Hr.
  { apply (reach_init ex_source IndexFalse [] ex_store). reflexivity. }
  split; [exact Hr|].
  apply (C10_out_of_range ex_table ex_store 7 Hr).
  - discriminate.
  - left. discriminate.
Defined.

(** ** contiguous *)

Section ContiguousFacts.

Context {A : Type}.
Variable eqb : A → A → bool.

Lemma groupby_from_join tgtkey group (l : list A) :
  mjoin ((groupby_from eqb tgtkey group l).*2) = group ++ l.
Proof.
  revert tgtkey group. induction l as [|x l IH]; intros tgtkey group; simpl.
  - by rewrite app_nil_r.
  - destruct (eqb tgtkey x); simpl.
    + by rewrite IH, <- app_assoc.
    + by rewrite IH.
Qed.

Lemma groupby_join (a : list A) : mjoin ((groupby eqb a).*2) = a.
Proof. destruct a as [|x a]; [done|]. apply groupby_from_join. Qed.

Lemma groupby_from_run tgtkey group (l : list A) :
  run eqb (tgtkey, group) → Forall (run eqb) (groupby_from eqb tgtkey group l).
Proof.
  revert tgtkey group. induction l as [|x l IH]; intros tgtkey group Hrun; simpl.
  - by constructor.
  - destruct (eqb tgtkey x) eqn:E.
    + apply IH. destruct Hrun as (r & Hg & Hr). simpl in *. exists (r ++ [x]).
      simpl. split; [by rewrite Hg|]. apply Forall_app. split; [done|]. by constructor.
    + constructor; [done|]. apply IH. exists []. by split.
Qed.

Lemma groupby_run (a : list A) : Forall (run eqb) (groupby eqb a).
Proof.
  destruct a as [|x a]; [constructor|]. apply groupby_from_run. exists []. by split.
Qed.

Lemma groupby_from_head tgtkey group (l : list A) :
  ∃ g rest, groupby_from eqb tgtkey group l = (tgtkey, g) :: rest.
Proof.
  revert group. induction l as [|x l IH]; intros group; simpl; [eauto|].
  destruct (eqb tgtkey x); eauto.
Qed.

(** The keys of two groups that follow each other are not equal. *)
Lemma groupby_from_next tgtkey group (l : list A) j kg kg' :
  groupby_from eqb tgtkey group l !! j = Some kg →
  groupby_from eqb tgtkey group l !! S j = Some kg' →
  eqb kg.1 kg'.1 = false.
Proof.
  revert tgtkey group j. induction l as [|x l IH]; intros tgtkey group j; simpl.
  - by destruct j.
  - destruct (eqb tgtkey x) eqn:E; [apply IH|].
    destruct j as [|j]; simpl; [|apply IH].
    intros [= <-]. destruct (groupby_from_head x [x] l) as (g & rest & ->).
    by intros [= <-].
Qed.

Lemma groupby_next (a : list A) j kg kg' :
  groupby eqb a !! j = Some kg → groupby eqb a !! S j = Some kg' →
  eqb kg.1 kg'.1 = false.
Proof. destruct a as [|x a]; [done|]. apply groupby_from_next. Qed.

Lemma groupby_nil (a : list A) : groupby eqb a = [] ↔ a = [].
Proof.
  destruct a as [|x a]; [done|]. simpl.
  destruct (groupby_from_head x [x] a) as (g & rest & ->). done.
Qed.

Lemma foldl_contiguous_step (gs : list (A * list A)) : ∀ i b e v,
  foldl contiguous_step (i, b, e, v) gs
  = (i + length (mjoin (gs.*2)), b ++ starts i gs, e ++ ends i gs, v ++ gs.*1).
Proof.
  induction gs as [|g gs IH]; intros i b e v; simpl.
  - by rewrite Nat.add_0_r, !app_nil_r.
  - rewrite last_snoc. simpl. rewrite IH, length_app, <- !app_assoc. simpl.
    by rewrite Nat.add_assoc.
Qed.

Lemma contiguous_groups (a : list A) :
  contiguous eqb a = (starts 0 (groupby eqb a), ends 0 (groupby eqb a), (groupby eqb a).*1).
Proof. unfold contiguous. by rewrite foldl_contiguous_step. Qed.

Lemma starts_length (gs : list (A * list A)) i : length (starts i gs) = length gs.
Proof. revert i. induction gs; intros i; simpl; [done|]. by rewrite IHgs. Qed.

Lemma ends_length (gs : list (A * list A)) i : length (ends i gs) = length gs.
Proof. revert i. induction gs; intros i; simpl; [done|]. by rewrite IHgs. Qed.

Lemma starts_ends (gs : list (A * list A)) i :
  gs ≠ [] → starts i gs ++ [i + length (mjoin (gs.*2))] = i :: ends i gs.
Proof.
  revert i. induction gs as [|g gs IH]; intros i Hne; [done|]. simpl. f_equal.
  destruct gs as [|g' gs].
  - simpl. by rewrite app_nil_r.
  - rewrite length_app, Nat.add_assoc. by apply IH.
Qed.

(** The group that a range comes from, and where it lies in the array. *)
Lemma starts_lookup (gs : list (A * list A)) : ∀ i k x,
  starts i gs !! k = Some x →
  ∃ kg, gs !! k = Some kg ∧ ends i gs !! k = Some (x + length kg.2) ∧ i ≤ x ∧
        (∀ q, q < length kg.2 → mjoin (gs.*2) !! (x - i + q) = kg.2 !! q) ∧
        (∀ c, mjoin (gs.*2) !! (x - i + length kg.2) = Some c →
              ∃ kg', gs !! S k = Some kg' ∧ ((kg'.2 = [] ∨ head kg'.2 = Some c))).
Proof.
  induction gs as [|g gs IH]; intros i k x H; [done|].
  destruct k as [|k]; simpl in H.
  - injection H as <-. exists g. split; [done|]. split; [done|]. split; [done|].
    rewrite Nat.sub_diag. simpl. split.
    + intros q Hq. by rewrite lookup_app_l.
    + intros c Hc. rewrite lookup_app_r, Nat.sub_diag in Hc by lia.
      destruct gs as [|g' gs]; [done|]. exists g'. split; [done|].
      simpl in Hc. destruct g'.2 as [|y r]; [by left|right]. simpl in Hc. done.
  - destruct (IH _ _ _ H) as (kg & Hk & He & Hi & Hin & Hnext).
    exists kg. split; [done|]. split; [done|]. split; [lia|]. simpl.
    split.
    + intros q Hq. rewrite lookup_app_r by lia.
      replace (x - i + q - length g.2) with (x - (i + length g.2) + q) by lia. auto.
    + intros c Hc. rewrite lookup_app_r in Hc by lia.
      replace (x - i + length kg.2 - length g.2)
        with (x - (i + length g.2) + length kg.2) in Hc by lia. auto.
Qed.

(** X1: The ranges of [contiguous] tile the array: the three arrays have one
    length, an empty array has no range, the first range begins at 0,
    each range begins where the one before it ends, the last one ends
    with the array, and no range is empty. *)
Theorem contiguous_tiling (a : list A) :
  length (contiguous eqb a).1.1 = length (contiguous eqb a).2 ∧
  length (contiguous eqb a).1.2 = length (contiguous eqb a).2 ∧
  ((contiguous eqb a).2 = [] ↔ a = []) ∧
  (a = [] ∨ (contiguous eqb a).1.1 ++ [length a] = 0 :: (contiguous eqb a).1.2) ∧
  ∀ k x y, (contiguous eqb a).1.1 !! k = Some x → (contiguous eqb a).1.2 !! k = Some y → x < y.
Proof.
  rewrite contiguous_groups. simpl.
  split; [by rewrite starts_length, length_fmap|].
  split; [by rewrite ends_length, length_fmap|].
  split.
  { split; [|by intros ->]. intros H. apply fmap_nil_inv in H. by apply groupby_nil. }
  split.
  - destruct a as [|c a]; [by left|right].
    rewrite <- (starts_ends (groupby eqb (c :: a)) 0) by (by rewrite groupby_nil).
    by rewrite groupby_join.
  - intros k x y Hx Hy. apply starts_lookup in Hx as (kg & Hk & He & _).
    rewrite He in Hy. injection Hy as <-.
    pose proof (groupby_run a) as Hrun. rewrite Forall_forall in Hrun.
    destruct (Hrun kg) as (r & Hr & _); [by eapply list_elem_of_lookup_2|].
    rewrite Hr. simpl. lia.
Qed.

(** X2: A range of [contiguous] is a maximal run: its value is the element
    at its beginning, every further element inside it is equal to its value, and
    the element that follows it, if there is one, is not. *)
Theorem contiguous_runs (a : list A) k x y c :
  (contiguous eqb a).1.1 !! k = Some x →
  (contiguous eqb a).1.2 !! k = Some y →
  (contiguous eqb a).2 !! k = Some c →
  a !! x = Some c ∧
  (∀ p, x < p < y → ∃ c', a !! p = Some c' ∧ eqb c c' = true) ∧
  (∀ c', a !! y = Some c' → eqb c c' = false).
Proof.
  rewrite contiguous_groups. simpl. intros Hx Hy Hc.
  apply starts_lookup in Hx as (kg & Hk & He & _ & Hin & Hnext).
  rewrite He in Hy. injection Hy as <-.
  rewrite list_lookup_fmap, Hk in Hc. injection Hc as <-.
  rewrite groupby_join, Nat.sub_0_r in Hin, Hnext.
  pose proof (groupby_run a) as Hrun. rewrite Forall_forall in Hrun.
  destruct (Hrun kg) as (r & Hr & Hall); [by eapply list_elem_of_lookup_2|].
  split; [|split].
  - rewrite <- (Nat.add_0_r x), Hin, Hr; [done|]. rewrite Hr. simpl. lia.
  - intros p Hp. replace p with (x + (p - x)) by lia. rewrite Hin by lia.
    destruct (kg.2 !! (p - x)) as [c'|] eqn:E; [|apply lookup_ge_None in E; lia].
    exists c'. split; [done|]. rewrite Hr in E. destruct (p - x) as [|q] eqn:Eq; simpl in E.
    + lia.
    + rewrite Forall_forall in Hall. apply Hall. by eapply list_elem_of_lookup_2.
  - intros c' Hc'. destruct (Hnext c' Hc') as (kg' & Hk' & Hhead).
    destruct (Hrun kg') as (r' & Hr' & _); [by eapply list_elem_of_lookup_2|].
    rewrite Hr' in Hhead. destruct Hhead as [?|[= <-]]; [done|].
    by eapply groupby_next.
Qed.

Lemma expand_groups (gs : list (A * list A)) : ∀ i,
  Forall (λ kg, kg.2 = replicate (length kg.2) kg.1) gs →
  zip_with (λ c (be : nat * nat), replicate (be.2 - be.1) c) (gs.*1) (zip (starts i gs) (ends i gs))
  = gs.*2.
Proof.
  induction gs as [|g gs IH]; intros i Hall; [done|].
  apply Forall_cons in Hall as [Hg Hall]. simpl. rewrite IH by done.
  f_equal. rewrite Hg at 2. f_equal. lia.
Qed.

(** X3: When [==] holds between equal elements only, the ranges of
    [contiguous] are a run-length encoding: repeating each value over
    its range gives the array back. *)
Theorem contiguous_expand (a : list A) :
  (∀ x y, eqb x y = true → x = y) → expand (contiguous eqb a) = a.
Proof.
  intros Heq. rewrite contiguous_groups. unfold expand. cbn [fst snd].
  rewrite expand_groups; [apply groupby_join|].
  eapply Forall_impl; [apply groupby_run|]. intros [k g] (r & Hr & Hall). simpl in *.
  subst g. simpl. f_equal. clear -Hall Heq.
  induction Hall as [|x r Hx Hall IH]; simpl; [done|].
  f_equal; [symmetry; by apply Heq|done].
Qed.

End ContiguousFacts.

Lemma contiguous_runs_witness :
  [5; 5; 7]%Z !! 0 = Some 5%Z ∧
  (∀ p, 0 < p < 2 → ∃ c', [5; 5; 7]%Z !! p = Some c' ∧ (5 =? c')%Z = true) ∧
  (∀ c', [5; 5; 7]%Z !! 2 = Some c' → (5 =? c')%Z = false).
Proof. apply (contiguous_runs Z.eqb [5; 5; 7]%Z 0 0 2 5%Z); reflexivity. Defined.

Lemma contiguous_expand_witness :
  contiguous Z.eqb [5; 5; 7; 5]%Z = ([0; 2; 3], [2; 3; 4], [5; 7; 5]%Z) ∧
  expand (contiguous Z.eqb [5; 5; 7; 5]%Z) = [5; 5; 7; 5]%Z.
Proof.
  split; [reflexivity|].
  apply (contiguous_expand Z.eqb [5; 5; 7; 5]%Z).
  intros x y H. apply Z.eqb_eq. exact H.
Defined.

(** ** Iteration *)

Lemma array_getitem_row s a (r : nat) :
  valid s a → r < alen a →
  ∃ c, cells s a !! r = Some c ∧
       array_getitem a (AInt (Z.of_nat r)) s = (s, Ok (VScalar c)).
Proof.
  intros Hv Hr. pose proof (cells_length s a Hv) as Hlen.
  destruct (cells s a !! r) as [c|] eqn:E; [|apply lookup_ge_None in E; lia].
  exists c. split; [done|]. unfold array_getitem, wrap_index.
  destruct (0 <=? Z.of_nat r)%Z eqn:E0; [|apply Z.leb_gt in E0; lia].
  destruct (Z.of_nat r <? Z.of_nat (alen a))%Z eqn:E1; [|apply Z.ltb_ge in E1; lia].
  simpl. by rewrite Nat2Z.id, E.
Qed.

(** The tuple of one row. *)
Lemma mapM_row s (r : nat) (columns : list array) :
  Forall (λ a, valid s a ∧ r < alen a) columns →
  ∃ row,
    mapM_ (λ column, array_getitem column (AInt (Z.of_nat r))) columns s = (s, Ok row) ∧
    Forall2 (λ a v, ∃ c, cells s a !! r = Some c ∧ v = VScalar c) columns row.
Proof.
  induction 1 as [|a columns [Hv Hr] Hall (row & Hrow & Hcs)].
  - exists []. split; [done|constructor].
  - destruct (array_getitem_row s a r Hv Hr) as (c & Hc & Hget).
    exists (VScalar c :: row). split.
    + by rewrite mapM_cons_run, Hget, Hrow.
    + constructor; eauto.
Qed.

Lemma mapM_rows s (columns : list array) (rs : list nat) :
  Forall (λ r, Forall (λ a, valid s a ∧ r < alen a) columns) rs →
  ∃ rows,
    mapM_ (λ row, mapM_ (λ column, array_getitem column (AInt (Z.of_nat row))) columns) rs s
      = (s, Ok rows) ∧
    Forall2 (λ r row, Forall2 (λ a v, ∃ c, cells s a !! r = Some c ∧ v = VScalar c) columns row)
            rs rows.
Proof.
  induction 1 as [|r rs Hr Hall (rows & Hrows & Hcs)].
  - exists []. split; [done|constructor].
  - destruct (mapM_row s r columns Hr) as (row & Hrow & Hc).
    exists (row :: rows). split.
    + by rewrite mapM_cons_run, Hrow, Hrows.
    + by constructor.
Qed.

Lemma Table_iter_Forall2 t s :
  same_length t → valid_table s t →
  ∃ rows, Table_iter t s = (s, Ok rows) ∧
    Forall2 (λ r row, Forall2 (λ a v, ∃ c, cells s a !! r = Some c ∧ v = VScalar c)
                              (values t) row)
            (seq 0 (len t)) rows.
Proof.
  intros Hsame Hv. apply mapM_rows. apply Forall_forall. intros r Hr.
  apply elem_of_seq in Hr. apply Forall_forall. intros a Ha. split.
  - unfold valid_table in Hv. rewrite Forall_forall in Hv. auto.
  - rewrite (len_of t a Hsame Ha). lia.
Qed.

(** X4: Iterating over a table whose columns have one length and lie in the
    store yields one tuple for each row, in order, and writes nothing:
    the tuple of row [r] holds, for each column in the order of the
    columns, the element [r] of the column. *)
Theorem Table_iter_rows t s :
  same_length t → valid_table s t →
  ∃ rows, Table_iter t s = (s, Ok rows) ∧ length rows = len t ∧
    ∀ r row, rows !! r = Some row →
      length row = length t ∧
      ∀ j a, values t !! j = Some a →
        ∃ c, cells s a !! r = Some c ∧ row !! j = Some (VScalar c).
Proof.
  intros Hsame Hv. destruct (Table_iter_Forall2 t s Hsame Hv) as (rows & Hrun & Hall).
  exists rows. split; [done|].
  pose proof (Forall2_length _ _ _ Hall) as Hlen. rewrite length_seq in Hlen.
  split; [done|]. intros r row Hrow.
  assert (seq 0 (len t) !! r = Some r) as Hr.
  { apply lookup_lt_Some in Hrow. rewrite lookup_seq_lt; [done|lia]. }
  pose proof (Forall2_lookup_lr _ _ _ _ _ _ Hall Hr Hrow) as Hcols.
  split.
  - rewrite <- (Forall2_length _ _ _ Hcols). unfold values. by rewrite length_fmap.
  - intros j a Ha. destruct (Forall2_lookup_l _ _ _ _ _ Hcols Ha) as (v & Hv' & c & Hc & ->).
    eauto.
Qed.

Lemma Table_iter_rows_witness :
  Table_iter ex_table ex_store
  = (ex_store, Ok [[VScalar (Int 10); VScalar (Text "p"); VScalar (Int 1)];
                   [VScalar (Int 20); VScalar (Text "q"); VScalar (Int 2)];
                   [VScalar (Int 30); VScalar (Text "r"); VScalar (Int 3)];
                   [VScalar (Int 40); VScalar (Text "s"); VScalar (Int 4)];
                   [VScalar (Int 50); VScalar (Text "t"); VScalar (Int 5)]]) ∧
  ∃ rows, Table_iter ex_table ex_store = (ex_store, Ok rows) ∧ length rows = len ex_table.
Proof.
  split; [reflexivity|].
  destruct (Table_iter_rows ex_table ex_store) as (rows & Hrun & Hlen & _).
  - intros a b Ha Hb. repeat (apply elem_of_cons in Ha as [->|Ha]; [|]);
      try (by apply elem_of_nil in Ha);
      repeat (apply elem_of_cons in Hb as [->|Hb]; [|]);
      try (by apply elem_of_nil in Hb); reflexivity.
  - repeat constructor; eexists; (split; [reflexivity|]); repeat constructor.
  - exists rows. split; [exact Hrun|exact Hlen].
Defined.

(** ** The rows of a file, read and iterated *)

Lemma foldr_min_width (rest : list (list string)) w :
  Forall (λ row, length row = w) rest →
  foldr (λ row n, min (length row) n) w rest = w.
Proof. induction 1 as [|row rest Hrow Hall IH]; simpl; [done|]. rewrite IH. lia. Qed.

Lemma omap_lookup_column (rows : list (list string)) j r :
  Forall (λ row, j < length row) rows →
  omap (λ row, row !! j) rows !! r = rows !! r ≫= (λ row, row !! j).
Proof.
  intros Hall. revert r. induction Hall as [|row rows Hj Hall IH]; intros r; simpl; [done|].
  destruct (row !! j) as [x|] eqn:E; [|apply lookup_ge_None in E; lia].
  destruct r as [|r]; simpl; [done|apply IH].
Qed.

Lemma zip_star_rect header data w :
  Forall (λ row, length row = w) (header :: data) →
  zip_star (header :: data) = (λ j, omap (λ row, row !! j) (header :: data)) <$> seq 0 w.
Proof.
  intros Hall. apply Forall_cons in Hall as [Hh Hd]. unfold zip_star.
  by rewrite Hh, foldr_min_width.
Qed.

Lemma zip_star_header header data w :
  Forall (λ row, length row = w) (header :: data) →
  hd EmptyString <$> zip_star (header :: data) = header.
Proof.
  intros Hall. rewrite (zip_star_rect header data w Hall).
  apply Forall_cons in Hall as [Hh Hd]. apply list_eq. intros j.
  rewrite !list_lookup_fmap. destruct (decide (j < w)) as [Hj|Hj].
  - rewrite lookup_seq_lt by done. simpl.
    destruct (header !! j) as [x|] eqn:E; [done|]. apply lookup_ge_None in E. lia.
  - rewrite lookup_seq_ge by lia. simpl. symmetry. apply lookup_ge_None. lia.
Qed.

(** X5: [read_csv] without conversion, then iteration, give back the rows
    of the file after the header, when all rows have the same number of
    fields and at least one, and no field after the header ends with a
    NUL character (numpy does not keep one at the end of a text): each
    tuple holds the texts of the fields of its row.  The names of the
    table are those [dedup] makes of the header. *)
Theorem read_csv_iter (to_float : cell → option float)
    (header : list string) (data : list (list string)) w s :
  0 < w → Forall (λ row, length row = w) (header :: data) →
  Forall (Forall (λ x, rstrip_nul x = x)) data →
  ∃ s' t,
    read_csv to_float (header :: data) false s = (s', Ok t) ∧
    keys t = dedup header ∧
    Table_iter t s' = (s', Ok ((λ row : list string, (λ x, VScalar (Text x)) <$> row) <$> data)).
Proof.
  intros Hw Hall _.
  set (cols := zip_star (header :: data)).
  set (ls := (λ column : list string, Text <$> tail column) <$> cols).
  assert (hd EmptyString <$> cols = header) as Hnames by (by eapply zip_star_header).
  assert (length cols = w) as Hcols.
  { unfold cols. rewrite (zip_star_rect header data w Hall). by rewrite length_fmap, length_seq. }
  pose proof Hall as Hall'. apply Forall_cons in Hall' as [Hh Hd].
  assert (∀ j, j < w → ls !! j = Some (Text <$> omap (λ row, row !! j) data)) as Hls.
  { intros j Hj. unfold ls, cols. rewrite (zip_star_rect header data w Hall).
    rewrite !list_lookup_fmap, lookup_seq_lt by done. simpl.
    destruct (header !! j) as [x|] eqn:E; [done|]. apply lookup_ge_None in E. lia. }
  assert (Forall (λ row, ∀ j, j < w → j < length row) data) as Hd'.
  { eapply Forall_impl; [exact Hd|]. simpl. intros row -> j Hj. done. }
  assert (Table_store header ((λ column, VSeq (Text <$> tail column)) <$> cols) s
          = (s ++ ls, Ok (zip (dedup header) (arrays_from (length s) ls)))) as Hstore.
  { replace ((λ column, VSeq (Text <$> tail column)) <$> cols) with (VSeq <$> ls)
      by (unfold ls; by rewrite <- list_fmap_compose).
    apply (Table_store_seqs (length data)).
    - unfold ls. rewrite length_fmap. lia.
    - apply Forall_forall. intros l Hl. apply list_elem_of_fmap in Hl as (c & -> & Hc).
      apply zip_star_length in Hc. rewrite length_fmap. destruct c; simpl in *; lia. }
  set (t := zip (dedup header) (arrays_from (length s) ls)) in *.
  assert (length (dedup header) = length (arrays_from (length s) ls)) as Hlen.
  { rewrite dedup_length, arrays_from_length. unfold ls. rewrite length_fmap. lia. }
  assert (keys t = dedup header) as Hkeys by (apply fst_zip; lia).
  assert (values t = arrays_from (length s) ls) as Hvals by (apply snd_zip; lia).
  assert (wf_table t) as Hwf by (by eapply Table_store_wf).
  assert (valid_table (s ++ ls) t) as Hv.
  { unfold valid_table. rewrite Hvals. apply Forall_forall. intros a Ha.
    by apply (arrays_from_spec (length s) s ls a eq_refl) in Ha as [? _]. }
  assert (len t = length data) as Hlent.
  { pose proof (arrays_from_lookup (length s) ls 0 _ (Hls 0 Hw)) as H0.
    unfold len. rewrite Hvals. destruct (arrays_from (length s) ls) as [|a rest]; [done|].
    injection H0 as ->. unfold alen. cbn [positions].
    rewrite length_seq, length_fmap. apply omap_lookup_length.
    eapply Forall_impl; [exact Hd'|]. simpl. auto. }
  exists (s ++ ls), t. split.
  { unfold read_csv. unfold bind at 1. fold cols. rewrite Hnames, Hstore. done. }
  split; [done|].
  destruct (Table_iter_Forall2 t (s ++ ls)) as (rows & Hrun & Hrows); [apply Hwf|done|].
  rewrite Hrun. do 2 f_equal.
  pose proof (Forall2_length _ _ _ Hrows) as Hlenr. rewrite length_seq in Hlenr.
  apply list_eq. intros r. rewrite list_lookup_fmap.
  destruct (data !! r) as [row_r|] eqn:Er; simpl.
  2:{ apply lookup_ge_None. apply lookup_ge_None in Er. lia. }
  pose proof (lookup_lt_Some _ _ _ Er) as Hr.
  destruct (rows !! r) as [row|] eqn:Erow; [|apply lookup_ge_None in Erow; lia].
  f_equal.
  assert (seq 0 (len t) !! r = Some r) as Hseq by (rewrite lookup_seq_lt; [done|lia]).
  pose proof (Forall2_lookup_lr _ _ _ _ _ _ Hrows Hseq Erow) as Hcs.
  pose proof (Forall2_length _ _ _ Hcs) as Hlenrow.
  rewrite Hvals, arrays_from_length in Hlenrow.
  assert (length ls = w) as Hlsw by (unfold ls; by rewrite length_fmap).
  assert (length row_r = w) as Hroww.
  { rewrite Forall_forall in Hd. apply Hd. by eapply list_elem_of_lookup_2. }
  apply list_eq. intros j. rewrite list_lookup_fmap.
  destruct (decide (j < w)) as [Hj|Hj].
  - pose proof (arrays_from_lookup (length s) ls j _ (Hls j Hj)) as Ha.
    rewrite <- Hvals in Ha.
    destruct (Forall2_lookup_l _ _ _ _ _ Hcs Ha) as (v & Hv' & c & Hc & ->).
    rewrite Hv'. rewrite (cells_arrays_from s ls j _ (Hls j Hj)) in Hc.
    rewrite list_lookup_fmap, omap_lookup_column, Er in Hc.
    + simpl in Hc. destruct (row_r !! j) as [x|]; simpl in *; [|done].
      by injection Hc as <-.
    + eapply Forall_impl; [exact Hd'|]. simpl. auto.
  - rewrite (proj2 (lookup_ge_None row j)) by lia.
    rewrite (proj2 (lookup_ge_None row_r j)) by lia. done.
Qed.

Lemma read_csv_iter_witness :
  ∃ s' t,
    read_csv ex_to_float [["a"; "b"]; ["1"; "x"]; ["3"; "4"]] false [] = (s', Ok t) ∧
    keys t = dedup ["a"; "b"] ∧
    Table_iter t s' = (s', Ok [[VScalar (Text "1"); VScalar (Text "x")];
                               [VScalar (Text "3"); VScalar (Text "4")]]).
Proof.
  apply (read_csv_iter ex_to_float ["a"; "b"] [["1"; "x"]; ["3"; "4"]] 2 []).
  - lia.
  - repeat constructor.
  - repeat constructor.
Defined.

(** ** Assigning, reading and deleting columns *)

Lemma columns_get_set_any t k b k' :
  columns_get (columns_set t k b) k' = if decide (k = k') then Some b else columns_get t k'.
Proof.
  induction t as [|[x a] t IH]; simpl.
  - done.
  - destruct (decide (x = k)) as [->|Hx]; simpl.
    + destruct (decide (k = k')); [done|done].
    + destruct (decide (x = k')) as [->|Hx'].
      * by rewrite decide_False.
      * exact IH.
Qed.

Lemma columns_get_del t k k' :
  NoDup (keys t) →
  columns_get (columns_del t k) k' = if decide (k = k') then None else columns_get t k'.
Proof.
  unfold keys. induction t as [|[x a] t IH]; simpl; intros Hnd.
  - by destruct (decide (k = k')).
  - apply NoDup_cons in Hnd as [Hx Hnd]. destruct (decide (x = k)) as [->|Hxk].
    + destruct (decide (k = k')) as [<-|Hkk']; [|done].
      by apply columns_get_None.
    + simpl. destruct (decide (x = k')) as [->|Hx'].
      * by rewrite decide_False by congruence.
      * by apply IH.
Qed.

Lemma filter_all {A} (P : A → Prop) `{∀ x, Decision (P x)} (l : list A) :
  (∀ x, x ∈ l → P x) → filter P l = l.
Proof.
  induction l as [|x l IH]; intros Hall; [done|].
  rewrite filter_cons_True by (apply Hall, elem_of_cons; by left).
  f_equal. apply IH. intros y Hy. apply Hall, elem_of_cons. by right.
Qed.

Lemma columns_del_keys t k :
  NoDup (keys t) → keys (columns_del t k) = filter (λ x, x ≠ k) (keys t).
Proof.
  unfold keys. induction t as [|[x a] t IH]; simpl; intros Hnd; [done|].
  apply NoDup_cons in Hnd as [Hx Hnd]. destruct (decide (x = k)) as [->|Hxk].
  - rewrite filter_cons_False by (intros H; by apply H).
    symmetry. apply filter_all. intros y Hy ->. done.
  - rewrite filter_cons_True by done. simpl. f_equal. by apply IH.
Qed.

Lemma columns_del_set_new t k a : k ∉ keys t → columns_del (columns_set t k a) k = t.
Proof.
  unfold keys. induction t as [|[x b] t IH]; simpl; intros Hk.
  - by rewrite decide_True.
  - apply not_elem_of_cons in Hk as [Hne Hk].
    rewrite decide_False by congruence. simpl. rewrite decide_False by congruence.
    f_equal. by apply IH.
Qed.

Lemma Table_getitem_name t name a s :
  columns_get t name = Some a →
  Table_getitem t (IAtom (AStr name)) s = (s, Ok (RetValue (VArray a))).
Proof.
  intros H. unfold Table_getitem, bind, column_read. rewrite H.
  unfold array_getitem. rewrite slice_positions_all. unfold ret. by rewrite view_all.
Qed.

(** X6: A sequence assigned under a name is accepted exactly when its length
    is that of every column of the table.  It is then stored in a new
    array: reading the name gives that array back, as long as the
    sequence and, for a sequence that numpy stores as it is given
    ([plain]), with the elements assigned; a name the table has keeps
    its place, a new name goes to the end; the other columns and all
    elements in the store stay. *)
Theorem Table_setitem_getitem name l s t :
  (Forall (λ c, alen c = length l) (values t) ↔
   ∃ w, Table_setitem (IAtom (AStr name)) (VSeq l) (s, t) = (w, Ok tt)) ∧
  ∀ w, Table_setitem (IAtom (AStr name)) (VSeq l) (s, t) = (w, Ok tt) →
    ∃ a, Table_getitem w.2 (IAtom (AStr name)) w.1 = (w.1, Ok (RetValue (VArray a))) ∧
         alen a = length l ∧
         (plain l = true → cells w.1 a = l) ∧
         keys w.2 = (if decide (name ∈ keys t) then keys t else keys t ++ [name]) ∧
         (∀ k, k ≠ name → columns_get w.2 k = columns_get t k) ∧
         (∀ b, valid s b → cells w.1 b = cells s b).
Proof.
  assert (∀ w, Table_setitem (IAtom (AStr name)) (VSeq l) (s, t) = (w, Ok tt) →
            w = (s ++ [l], columns_set t name (Array (length s) (seq 0 (length l)))) ∧
            Forall (λ c, alen c = length l) (values t)) as Hinv.
  { intros w H. apply Table_setitem_name_Ok in H as (a & s1 & Hma & -> & Hall).
    simpl in Hma. injection Hma as <- <-. split; [done|].
    eapply Forall_impl; [exact Hall|]. intros c ->. unfold alen. simpl. by rewrite length_seq. }
  split.
  - split.
    + intros Hall. eexists. unfold Table_setitem, bind, on_store, ma_array, alloc, get_table.
      cbn [fst snd].
      assert (check_shapes (values t) (Array (length s) (seq 0 (length l))) = Ok tt) as ->; [|done].
      apply check_shapes_Ok. eapply Forall_impl; [exact Hall|]. intros c ->.
      unfold alen. simpl. by rewrite length_seq.
    + intros [w H]. by apply Hinv in H as [_ ?].
  - intros w H. apply Hinv in H as [-> _]. cbn [fst snd].
    exists (Array (length s) (seq 0 (length l))). split; [|split; [|split; [|split; [|split]]]].
    + apply Table_getitem_name. rewrite columns_get_set_any. by rewrite decide_True.
    + unfold alen. simpl. apply length_seq.
    + intros _. apply cells_alloc_new.
    + apply columns_set_keys.
    + intros k Hk. rewrite columns_get_set_any. by rewrite decide_False.
    + intros b Hb. by apply cells_alloc.
Qed.

Lemma Table_setitem_getitem_witness :
  ∃ a, Table_getitem
         [("a", Array 0 [0; 1]); ("b", Array 2 [0; 1])] (IAtom (AStr "b"))
         [[Int 1; Int 2]; [Int 3; Int 4]; [Int 5; Int 6]]
       = ([[Int 1; Int 2]; [Int 3; Int 4]; [Int 5; Int 6]], Ok (RetValue (VArray a))) ∧
       cells [[Int 1; Int 2]; [Int 3; Int 4]; [Int 5; Int 6]] a = [Int 5; Int 6].
Proof.
  destruct (proj2 (Table_setitem_getitem "b" [Int 5; Int 6] [[Int 1; Int 2]; [Int 3; Int 4]]
                     [("a", Array 0 [0; 1]); ("b", Array 1 [0; 1])])
              ([[Int 1; Int 2]; [Int 3; Int 4]; [Int 5; Int 6]],
               [("a", Array 0 [0; 1]); ("b", Array 2 [0; 1])]) eq_refl)
    as (a & Hget & _ & Hcells & _).
  exists a. split; [exact Hget|]. apply Hcells. reflexivity.
Defined.

Lemma Table_delitem_run name s t :
  name ∈ keys t →
  Table_delitem (IAtom (AStr name)) (s, t) = ((s, columns_del t name), Ok tt).
Proof.
  intros Hk. unfold Table_delitem, bind, get_table, put_table. cbn [fst snd].
  destruct (columns_get t name) as [a|] eqn:E; [done|].
  apply columns_get_None in E. done.
Qed.

(** X7: Deleting a name that is not a column raises [KeyError] and changes
    nothing.  Deleting a column removes it and nothing else: the other
    columns keep their order and their arrays, the store is not written,
    and reading the name afterwards raises [KeyError]. *)
Theorem Table_delitem_name name s t :
  NoDup (keys t) →
  (name ∉ keys t → Table_delitem (IAtom (AStr name)) (s, t) = ((s, t), Raise KeyError)) ∧
  (name ∈ keys t →
   ∃ t', Table_delitem (IAtom (AStr name)) (s, t) = ((s, t'), Ok tt) ∧
         keys t' = filter (λ k, k ≠ name) (keys t) ∧
         S (length t') = length t ∧
         (∀ k, k ≠ name → columns_get t' k = columns_get t k) ∧
         Table_getitem t' (IAtom (AStr name)) s = (s, Raise KeyError)).
Proof.
  intros Hnd. split.
  - intros Hk. unfold Table_delitem, bind, get_table, put_table. cbn [fst snd].
    apply columns_get_None in Hk. by rewrite Hk.
  - intros Hk. exists (columns_del t name). split; [by apply Table_delitem_run|].
    split; [by apply columns_del_keys|]. split; [|split].
    + clear -Hk. unfold keys in Hk. induction t as [|[x b] t IH]; [by apply elem_of_nil in Hk|].
      simpl in *. destruct (decide (x = name)) as [->|Hne]; [done|]. simpl. f_equal.
      apply IH. apply elem_of_cons in Hk as [?|?]; [congruence|done].
    + intros k Hne. rewrite columns_get_del by done. by rewrite decide_False.
    + unfold Table_getitem, bind, column_read. rewrite columns_get_del by done.
      by rewrite decide_True.
Qed.

Lemma Table_delitem_name_witness :
  ∃ t', Table_delitem (IAtom (AStr "b")) (ex_store, ex_table) = ((ex_store, t'), Ok tt) ∧
        keys t' = ["a"; "c"].
Proof.
  assert (NoDup (keys ex_table)) as Hnd by (apply (bool_decide_unpack _); vm_compute; exact I).
  assert ("b" ∈ keys ex_table) as Hin by (apply (bool_decide_unpack _); vm_compute; exact I).
  destruct (proj2 (Table_delitem_name "b" ex_store ex_table Hnd) Hin) as (t' & Hdel & Hkeys & _).
  exists t'. split; [exact Hdel|exact Hkeys].
Defined.

(** X8: A column assigned under a new name and deleted again leaves the
    table as it was.  A column deleted and assigned again is the last
    one: only assigning to a name the table has keeps the order. *)
Theorem Table_setitem_delitem name value s t :
  NoDup (keys t) →
  (name ∉ keys t → ∀ w,
     Table_setitem (IAtom (AStr name)) value (s, t) = (w, Ok tt) →
     Table_delitem (IAtom (AStr name)) w = ((w.1, t), Ok tt)) ∧
  (name ∈ keys t → ∀ w w',
     Table_delitem (IAtom (AStr name)) (s, t) = (w, Ok tt) →
     Table_setitem (IAtom (AStr name)) value w = (w', Ok tt) →
     keys w'.2 = filter (λ k, k ≠ name) (keys t) ++ [name]).
Proof.
  intros Hnd. split.
  - intros Hk w H. apply Table_setitem_name_Ok in H as (a & s1 & _ & -> & _).
    unfold Table_delitem, bind, get_table, put_table. cbn [fst snd].
    rewrite columns_get_set_any, decide_True by done.
    by rewrite columns_del_set_new.
  - intros Hk w w' Hdel Hset.
    rewrite Table_delitem_run in Hdel by done. injection Hdel as <-.
    apply Table_setitem_name_Ok in Hset as (a & s1 & _ & -> & _). cbn [fst snd].
    rewrite columns_set_keys, columns_del_keys by done. rewrite decide_False; [done|].
    intros Hin. apply list_elem_of_filter in Hin as [Hne _]. done.
Qed.

Lemma Table_setitem_delitem_witness :
  Table_delitem (IAtom (AStr "d"))
    (ex_store ++ [[Int 6; Int 7; Int 8; Int 9; Int 0]],
     ex_table ++ [("d", Array 3 [0; 1; 2; 3; 4])])
  = ((ex_store ++ [[Int 6; Int 7; Int 8; Int 9; Int 0]], ex_table), Ok tt).
Proof.
  assert (NoDup (keys ex_table)) as Hnd by (apply (bool_decide_unpack _); vm_compute; exact I).
  assert ("d" ∉ keys ex_table) as Hnew by (apply (bool_decide_unpack _); vm_compute; exact I).
  exact (proj1 (Table_setitem_delitem "d" (VSeq [Int 6; Int 7; Int 8; Int 9; Int 0])
                  ex_store ex_table Hnd) Hnew
           (ex_store ++ [[Int 6; Int 7; Int 8; Int 9; Int 0]],
            ex_table ++ [("d", Array 3 [0; 1; 2; 3; 4])]) eq_refl).
Defined.

(** ** Errors *)

(** X9: A name that is not a column cannot be read, written or deleted:
    reading it whole, reading or assigning a part of it, selecting it
    as the column of chosen rows and deleting it all raise [KeyError],
    and neither the store nor the table changes. *)
Theorem Table_missing_column t name s :
  name ∉ keys t →
  Table_getitem t (IAtom (AStr name)) s = (s, Raise KeyError) ∧
  (∀ sel rest, sel ≠ ANone →
     Table_getitem t (ITuple (AStr name :: sel :: rest)) s = (s, Raise KeyError)) ∧
  (∀ i rest, Table_getitem t (ITuple (AInt i :: AStr name :: rest)) s = (s, Raise KeyError)) ∧
  (∀ sl rest, Table_getitem t (ITuple (ASlice sl :: AStr name :: rest)) s = (s, Raise KeyError)) ∧
  (∀ i value,
     Table_setitem (ITuple [AStr name; AInt i]) value (s, t) = ((s, t), Raise KeyError)) ∧
  (∀ sl value,
     Table_setitem (ITuple [AStr name; ASlice sl]) value (s, t) = ((s, t), Raise KeyError)) ∧
  Table_delitem (IAtom (AStr name)) (s, t) = ((s, t), Raise KeyError).
Proof.
  intros Hk. apply columns_get_None in Hk.
  assert (∀ sel, column_read t name sel s = (s, Raise KeyError)) as Hread.
  { intros sel. unfold column_read. by rewrite Hk. }
  split; [|split; [|split; [|split; [|split; [|split]]]]].
  - unfold Table_getitem, bind. by rewrite Hread.
  - intros sel rest Hsel. unfold Table_getitem, bind, item, ret. cbn [lookup list_lookup].
    destruct sel; try done; by rewrite Hread.
  - intros i rest. unfold Table_getitem, Table_getitem_table, Table_selection.
    unfold bind, item, ret. cbn [lookup list_lookup mapM_].
    unfold bind, read_column, bind. by rewrite Hread.
  - intros sl rest. unfold Table_getitem, Table_getitem_table, Table_selection.
    unfold bind, item, ret. cbn [lookup list_lookup mapM_].
    unfold bind, read_column, bind. by rewrite Hread.
  - intros i value. unfold Table_setitem, bind, item, ret, get_table. cbn [lookup list_lookup fst snd].
    by rewrite Hk.
  - intros sl value. unfold Table_setitem, bind, item, ret, get_table. cbn [lookup list_lookup fst snd].
    by rewrite Hk.
  - unfold Table_delitem, bind, get_table. cbn [fst snd]. by rewrite Hk.
Qed.

Lemma Table_missing_column_witness :
  Table_getitem ex_table (IAtom (AStr "z")) ex_store = (ex_store, Raise KeyError).
Proof.
  assert ("z" ∉ keys ex_table) as Hnew by (apply (bool_decide_unpack _); vm_compute; exact I).
  exact (proj1 (Table_missing_column ex_table "z" ex_store Hnew)).
Defined.

(** X10: What [__setitem__] refuses, always with the world as it was.  A
    value of no or of several dimensions under a name, an index that is
    not a name or a tuple, a tuple whose first member is not a name or
    whose second is not an integer or a slice, and a longer tuple all
    raise [ValueError]; a tuple too short to have the member asked for
    raises [IndexError]. *)
Theorem Table_setitem_refused value w :
  (∀ name c, Table_setitem (IAtom (AStr name)) (VScalar c) w
             = (w, Raise (ValueError (CannotAssign 0 name)))) ∧
  (∀ name extra, Table_setitem (IAtom (AStr name)) (VNested extra) w
                 = (w, Raise (ValueError (CannotAssign (2 + extra) name)))) ∧
  (∀ a, (∀ name, a ≠ AStr name) →
        Table_setitem (IAtom a) value w = (w, Raise (ValueError UnsupportedKey))) ∧
  (∀ i0 rest, (∀ name, i0 ≠ AStr name) →
        Table_setitem (ITuple (i0 :: rest)) value w = (w, Raise (ValueError UnsupportedKey))) ∧
  (∀ name i1 rest, (∀ i, i1 ≠ AInt i) → (∀ sl, i1 ≠ ASlice sl) →
        Table_setitem (ITuple (AStr name :: i1 :: rest)) value w
        = (w, Raise (ValueError UnsupportedKey))) ∧
  (∀ name i1 i2 rest, (∃ i, i1 = AInt i) ∨ (∃ sl, i1 = ASlice sl) →
        Table_setitem (ITuple (AStr name :: i1 :: i2 :: rest)) value w
        = (w, Raise (ValueError Unpack))) ∧
  Table_setitem (ITuple []) value w = (w, Raise IndexError) ∧
  (∀ name, Table_setitem (ITuple [AStr name]) value w = (w, Raise IndexError)).
Proof.
  destruct w as [s t].
  split; [done|]. split; [done|]. split; [|split; [|split; [|split; [|split]]]].
  - intros a Ha. destruct a; try done. by destruct (Ha s0).
  - intros i0 rest Ha. unfold Table_setitem, bind, item, ret. cbn [lookup list_lookup].
    destruct i0; try done. by destruct (Ha s0).
  - intros name i1 rest Hi Hsl. unfold Table_setitem, bind, item, ret. cbn [lookup list_lookup].
    destruct i1; try done; [by destruct (Hi z)|by destruct (Hsl sl)].
  - intros name i1 i2 rest [[i ->]|[sl ->]]; done.
  - done.
  - done.
Qed.

(** ** Assigning an element *)

Lemma omap_insert_at (b : list cell) q c (ps : list nat) : ∀ p,
  NoDup ps → Forall (λ x, x < length b) ps → ps !! p = Some q →
  omap (λ x, <[q := c]> b !! x) ps = <[p := c]> (omap (λ x, b !! x) ps).
Proof.
  induction ps as [|x ps IH]; intros p Hnd Hall Hp; [done|].
  apply NoDup_cons in Hnd as [Hx Hnd]. apply Forall_cons in Hall as [Hxb Hall].
  destruct (b !! x) as [y|] eqn:Ey; [|apply lookup_ge_None in Ey; lia].
  destruct p as [|p]; simpl in Hp.
  - injection Hp as ->. simpl. rewrite list_lookup_insert_eq by done. rewrite Ey. simpl.
    f_equal. apply list_omap_ext. apply Forall2_same_length_lookup. split; [done|].
    intros i x1 x2 H1 H2. rewrite H1 in H2. injection H2 as <-.
    apply list_lookup_insert_ne. intros ->. apply Hx. by eapply list_elem_of_lookup_2.
  - simpl. rewrite list_lookup_insert_ne.
    + rewrite Ey. simpl. f_equal. by apply IH.
    + intros ->. apply Hx. by eapply list_elem_of_lookup_2.
Qed.

Lemma broadcast_length s value n cs : broadcast s value n = Some cs → length cs = n.
Proof.
  assert (∀ l : list cell,
            (if decide (length l = n) then Some l
             else match l with [c] => Some (replicate n c) | _ => None end) = Some cs →
            length cs = n) as G.
  { intros l. destruct (decide (length l = n)) as [E|E]; [by intros [= <-]|].
    destruct l as [|c [|? ?]]; try done. intros [= <-]. apply length_replicate. }
  destruct value as [c|l|v|k]; simpl; [|apply G|apply G|done].
  intros [= <-]. apply length_replicate.
Qed.

(** An assignment at one position writes at most that position. *)
Lemma array_setitem_one a s i p value s' r :
  valid s a → NoDup (positions a) → wrap_index (alen a) i = Some p → p < alen a →
  array_setitem a (AInt i) value s = (s', r) →
  (s' = s ∨ ∃ c, cells s' a = <[p := c]> (cells s a)) ∧
  (∀ b, buffer b ≠ buffer a → cells s' b = cells s b).
Proof.
  intros (b & Hb & Hall) Hnd Hw Hp. unfold array_setitem. rewrite Hw.
  cbn [length]. destruct (broadcast s value 1) as [cs|] eqn:Eb; intros [= <- <-].
  2:{ split; [by left|done]. }
  apply broadcast_length in Eb. destruct cs as [|c [|? ?]]; try done.
  unfold view. cbn [positions omap list_omap].
  destruct (positions a !! p) as [q|] eqn:Eq.
  2:{ apply lookup_ge_None in Eq. unfold alen in Hp. lia. }
  cbn [zip zip_with]. split.
  - right. exists c. unfold write. rewrite Hb. cbn [foldl fst snd]. unfold cells.
    rewrite list_lookup_insert_eq by (by eapply lookup_lt_Some). rewrite Hb.
    by apply omap_insert_at.
  - intros b' Hb'. by apply cells_write.
Qed.

Lemma wrap_index_lt n i p : wrap_index n i = Some p → p < n.
Proof.
  unfold wrap_index.
  destruct (0 <=? i)%Z eqn:E0; destruct (i <? Z.of_nat n)%Z eqn:E1; simpl.
  - intros [= <-]. apply Z.leb_le in E0. apply Z.ltb_lt in E1. lia.
  - destruct (- Z.of_nat n <=? i)%Z eqn:E2; destruct (i <? 0)%Z eqn:E3; simpl; try done.
    apply Z.leb_le in E0. apply Z.ltb_lt in E3. lia.
  - destruct (- Z.of_nat n <=? i)%Z eqn:E2; destruct (i <? 0)%Z eqn:E3; simpl; try done.
    intros [= <-]. apply Z.leb_le in E2. apply Z.ltb_lt in E3. lia.
  - destruct (- Z.of_nat n <=? i)%Z eqn:E2; destruct (i <? 0)%Z eqn:E3; simpl; try done.
    intros [= <-]. apply Z.leb_le in E2. apply Z.ltb_lt in E3. lia.
Qed.

Lemma wrap_index_cases n i :
  ((0 ≤ i < Z.of_nat n)%Z ∧ wrap_index n i = Some (Z.to_nat i)) ∨
  ((- Z.of_nat n ≤ i < 0)%Z ∧ wrap_index n i = Some (Z.to_nat (i + Z.of_nat n))) ∨
  ((i < - Z.of_nat n ∨ Z.of_nat n ≤ i)%Z ∧ wrap_index n i = None).
Proof.
  unfold wrap_index.
  destruct (0 <=? i)%Z eqn:E0; destruct (i <? Z.of_nat n)%Z eqn:E1;
    destruct (- Z.of_nat n <=? i)%Z eqn:E2; destruct (i <? 0)%Z eqn:E3; simpl;
    repeat match goal with
           | H : (_ <=? _)%Z = true |- _ => apply Z.leb_le in H
           | H : (_ <=? _)%Z = false |- _ => apply Z.leb_gt in H
           | H : (_ <? _)%Z = true |- _ => apply Z.ltb_lt in H
           | H : (_ <? _)%Z = false |- _ => apply Z.ltb_ge in H
           end;
    first [left; split; [lia|done] | right; left; split; [lia|done]
          | right; right; split; [lia|done] | lia].
Qed.

(** X11: [table[name, i] = value] writes in place and at one position at
    most: element [i] for [0 <= i < n], and element [i + n], counted
    from the end, for [-n <= i < 0], so that [-1] is the last element.
    Whether the call returns or raises, every other element of the
    column, the length of the column, every other buffer and the columns
    of the table are as they were; nothing is stated on the element
    stored at that position, which numpy converts to the dtype of the
    column.  For any other [i] and a scalar the call raises
    [IndexError] and writes nothing. *)
Theorem Table_setitem_element t s name a i :
  columns_get t name = Some a → valid s a → NoDup (positions a) →
  (∀ value w' r,
     Table_setitem (ITuple [AStr name; AInt i]) value (s, t) = (w', r) →
     w'.2 = t ∧ length (cells w'.1 a) = length (cells s a) ∧
     (∀ b, buffer b ≠ buffer a → cells w'.1 b = cells s b) ∧
     ((0 ≤ i < Z.of_nat (alen a))%Z →
      ∀ q, q ≠ Z.to_nat i → cells w'.1 a !! q = cells s a !! q) ∧
     ((- Z.of_nat (alen a) ≤ i < 0)%Z →
      ∀ q, q ≠ Z.to_nat (i + Z.of_nat (alen a)) → cells w'.1 a !! q = cells s a !! q)) ∧
  ((i < - Z.of_nat (alen a) ∨ Z.of_nat (alen a) ≤ i)%Z →
   ∀ c, Table_setitem (ITuple [AStr name; AInt i]) (VScalar c) (s, t)
        = ((s, t), Raise IndexError)).
Proof.
  intros Hget Hv Hnd.
  assert (∀ value, Table_setitem (ITuple [AStr name; AInt i]) value (s, t)
                   = (let (s', r) := array_setitem a (AInt i) value s in ((s', t), r))) as Hrun.
  { intros value. unfold Table_setitem, bind, item, ret, get_table, on_store. simpl.
    rewrite Hget. done. }
  assert (∀ p, wrap_index (alen a) i = Some p → ∀ value w' r,
     Table_setitem (ITuple [AStr name; AInt i]) value (s, t) = (w', r) →
     w'.2 = t ∧ length (cells w'.1 a) = length (cells s a) ∧
     (∀ b, buffer b ≠ buffer a → cells w'.1 b = cells s b) ∧
     ∀ q, q ≠ p → cells w'.1 a !! q = cells s a !! q) as G.
  { intros p Hw value w' r H. rewrite Hrun in H.
    destruct (array_setitem a (AInt i) value s) as [s' r'] eqn:E. injection H as <- <-.
    pose proof (wrap_index_lt _ _ _ Hw) as Hp.
    destruct (array_setitem_one a s i p value s' r' Hv Hnd Hw Hp E) as [Hc Hother].
    split; [done|]. cbn [fst].
    destruct Hc as [->|[c ->]]; [done|].
    split; [apply length_insert|]. split; [done|].
    intros q Hq. by apply list_lookup_insert_ne. }
  destruct (wrap_index_cases (alen a) i) as [[Hi Hw]|[[Hi Hw]|[Hi Hw]]].
  - split; [|intros; lia]. intros value w' r H.
    destruct (G _ Hw value w' r H) as (? & ? & ? & ?).
    split; [done|]. split; [done|]. split; [done|]. split; [done|]. intros; lia.
  - split; [|intros; lia]. intros value w' r H.
    destruct (G _ Hw value w' r H) as (? & ? & ? & ?).
    split; [done|]. split; [done|]. split; [done|]. split; [intros; lia|done].
  - assert (∀ value, Table_setitem (ITuple [AStr name; AInt i]) value (s, t)
                     = ((s, t), Raise IndexError)) as Hout.
    { intros value. rewrite Hrun. unfold array_setitem. by rewrite Hw. }
    split; [|intros _ c; apply Hout]. intros value w' r H.
    rewrite Hout in H. injection H as <- <-.
    split; [done|]. split; [done|]. split; [done|]. split; intros; lia.
Qed.

Lemma Table_setitem_element_witness :
  Table_setitem (ITuple [AStr "a"; AInt (-1)]) (VScalar (Int 99)) (ex_store, ex_table)
    = ((<[0 := [Int 10; Int 20; Int 30; Int 40; Int 99]]> ex_store, ex_table), Ok tt) ∧
  cells (<[0 := [Int 10; Int 20; Int 30; Int 40; Int 99]]> ex_store) (Array 0 [0; 1; 2; 3; 4]) !! 0
    = cells ex_store (Array 0 [0; 1; 2; 3; 4]) !! 0.
Proof.
  assert (valid ex_store (Array 0 [0; 1; 2; 3; 4])) as Hv.
  { eexists. split; [reflexivity|]. repeat constructor. }
  assert (NoDup (positions (Array 0 [0; 1; 2; 3; 4]))) as Hnd
    by (apply (bool_decide_unpack _); vm_compute; exact I).
  split; [reflexivity|].
  apply (proj2 (proj2 (proj2 (proj2
           (proj1 (Table_setitem_element ex_table ex_store "a" (Array 0 [0; 1; 2; 3; 4])
                     (-1) eq_refl Hv Hnd)
              (VScalar (Int 99))
              (<[0 := [Int 10; Int 20; Int 30; Int 40; Int 99]]> ex_store, ex_table)
              (Ok tt) eq_refl))))).
  - split; [discriminate|reflexivity].
  - discriminate.
Defined.

(** ** Rows selected by a slice *)

Lemma slice_positions_nat (first last : option nat) n :
  slice_positions (Slice (Z.of_nat <$> first) (Z.of_nat <$> last) None) n
  = Some (seq (min (default 0 first) n)
              (min (default n last) n - min (default 0 first) n)).
Proof.
  unfold slice_positions. cbn [step start stop default]. simpl. f_equal.
  set (i := min (default 0 first) n). set (j := min (default n last) n).
  assert ((match Z.of_nat <$> first with
           | Some b => if (b <? 0)%Z then Z.max (b + Z.of_nat n) 0 else Z.min b (Z.of_nat n)
           | None => 0%Z
           end) = Z.of_nat i) as ->.
  { unfold i. destruct first as [x|]; simpl; [|done].
    destruct (Z.of_nat x <? 0)%Z eqn:E; [apply Z.ltb_lt in E; lia|]. lia. }
  assert ((match Z.of_nat <$> last with
           | Some b => if (b <? 0)%Z then Z.max (b + Z.of_nat n) 0 else Z.min b (Z.of_nat n)
           | None => Z.of_nat n
           end) = Z.of_nat j) as ->.
  { unfold j. destruct last as [x|]; simpl; [|lia].
    destruct (Z.of_nat x <? 0)%Z eqn:E; [apply Z.ltb_lt in E; lia|]. lia. }
  destruct (decide (i ≤ j)) as [Hij|Hij].
  - rewrite range_unit by lia. f_equal; lia.
  - rewrite range_empty by lia. replace (j - i) with 0 by lia. done.
Qed.

Lemma take_drop_clip {A} (l : list A) i j :
  take (min j (length l) - min i (length l)) (drop (min i (length l)) l)
  = take (j - i) (drop i l).
Proof.
  destruct (decide (length l ≤ i)) as [Hi|Hi].
  - rewrite !drop_ge by lia. by rewrite !take_nil.
  - replace (min i (length l)) with i by lia.
    destruct (decide (length l ≤ j)) as [Hj|Hj].
    + rewrite !take_ge; [done| |]; rewrite length_drop; lia.
    + by replace (min j (length l)) with j by lia.
Qed.

Lemma view_table_all t : same_length t → view_table t (seq 0 (len t)) = t.
Proof.
  intros Hsame. unfold view_table.
  rewrite <- (list_fmap_id t) at 2. apply list_fmap_ext.
  intros i [k a] Hi. simpl. f_equal. rewrite <- (len_of t a Hsame).
  - apply view_all.
  - apply list_elem_of_fmap. exists (k, a). split; [done|]. by eapply list_elem_of_lookup_2.
Qed.

(** X12: [table[first:last]] with bounds that are absent or not negative never
    raises and writes nothing.  The table it returns has the names of
    [table] in their order; each column is a view of the column it comes
    from, in the same buffer, and holds its elements from [first]
    (default 0) up to [last] (default the number of rows), bounds beyond
    the end being cut to the end. *)
Theorem Table_getitem_rows t s (first last : option nat) :
  wf_table t → valid_table s t →
  ∃ u, Table_getitem t (IAtom (ASlice (Slice (Z.of_nat <$> first) (Z.of_nat <$> last) None))) s
       = (s, Ok (RetTable u)) ∧
       keys u = keys t ∧
       ∀ k a, columns_get t k = Some a →
         ∃ b, columns_get u k = Some b ∧ buffer b = buffer a ∧
              cells s b = take (default (len t) last - default 0 first)
                               (drop (default 0 first) (cells s a)).
Proof.
  intros Hwf Hv. eexists. split.
  - apply Table_getitem_slice; [done|]. apply slice_positions_nat.
  - split; [apply keys_view_table|]. intros k a Hget.
    eexists. split; [by apply columns_get_view_table|]. split; [done|].
    assert (valid s a) as Ha.
    { unfold valid_table in Hv. rewrite Forall_forall in Hv.
      by eapply Hv, columns_get_values. }
    assert (length (cells s a) = len t) as Hlen.
    { rewrite cells_length by done. apply len_of; [apply Hwf|by eapply columns_get_values]. }
    rewrite cells_view by done. rewrite omap_lookup_seq by lia.
    rewrite <- Hlen. apply take_drop_clip.
Qed.

Lemma Table_getitem_rows_witness :
  ∃ u, Table_getitem ex_table (IAtom (ASlice (Slice (Some 1%Z) (Some 3%Z) None))) ex_store
       = (ex_store, Ok (RetTable u)) ∧
       ∃ b, columns_get u "b" = Some b ∧ cells ex_store b = [Text "q"; Text "r"].
Proof.
  assert (wf_table ex_table) as Hwf.
  { apply (Table_init_wf ex_source IndexFalse [] ex_store). reflexivity. }
  assert (valid_table ex_store ex_table) as Hv.
  { repeat constructor; eexists; (split; [reflexivity|]); repeat constructor. }
  destruct (Table_getitem_rows ex_table ex_store (Some 1) (Some 3) Hwf Hv) as (u & Hu & _ & Hc).
  exists u. split; [exact Hu|].
  destruct (Hc "b" (Array 1 [0; 1; 2; 3; 4]) eq_refl) as (b & Hb & _ & Hcells).
  exists b. split; [exact Hb|exact Hcells].
Defined.

(** ** Copies that share *)

Lemma mapM_read_all t s rest :
  (∀ k a, (k, a) ∈ rest → columns_get t k = Some a) →
  mapM_ (λ key, column_read t key (ASlice slice_all)) (rest.*1) s
  = (s, Ok (VArray <$> rest.*2)).
Proof.
  induction rest as [|[k a] rest IH]; intros H; [done|].
  rewrite !fmap_cons, mapM_cons_run. cbn [fst snd].
  unfold column_read at 1. rewrite (H k a) by (apply elem_of_cons; by left).
  unfold array_getitem. rewrite slice_positions_all. unfold ret. rewrite view_all.
  rewrite IH; [done|]. intros k' a' Hin. apply H. apply elem_of_cons. by right.
Qed.

Lemma Table_store_arrays t s :
  wf_table t → Table_store (keys t) (VArray <$> values t) s = (s, Ok t).
Proof.
  intros Hwf. pose proof (Table_store_views t (seq 0 (len t)) s Hwf) as H.
  rewrite view_table_all in H by apply Hwf. rewrite <- H. f_equal.
  apply list_fmap_ext. intros i a Hi. f_equal. rewrite <- (len_of t a).
  - symmetry. apply view_all.
  - apply Hwf.
  - by eapply list_elem_of_lookup_2.
Qed.

(** X13: Neither [table[:]] nor [Table(table)] copies any data: each returns
    a table with the names of [table] whose columns are the arrays of
    [table] themselves, views of the same buffers, and allocates
    nothing. *)
Theorem Table_copy_shares t s index :
  wf_table t →
  Table_getitem t (IAtom (ASlice slice_all)) s = (s, Ok (RetTable t)) ∧
  Table_init (SrcTable t) index s = (s, Ok t).
Proof.
  intros Hwf. split.
  - rewrite (Table_getitem_slice t slice_all (seq 0 (len t)) s Hwf).
    + by rewrite view_table_all by apply Hwf.
    + apply slice_positions_all.
  - unfold Table_init, bind, source_items, bind. unfold keys at 1.
    rewrite mapM_read_all.
    + unfold ret. cbn [fst snd]. by apply Table_store_arrays.
    + intros k a Hin. apply columns_get_elem; [apply Hwf|done].
Qed.

Lemma Table_copy_shares_witness :
  Table_init (SrcTable ex_table) IndexFalse ex_store = (ex_store, Ok ex_table).
Proof.
  assert (wf_table ex_table) as Hwf.
  { apply (Table_init_wf ex_source IndexFalse [] ex_store). reflexivity. }
  exact (proj2 (Table_copy_shares ex_table ex_store IndexFalse Hwf)).
Defined.

(** ** Columns selected by a list of names *)

Lemma sub_table t (names : list string) :
  (∀ k, k ∈ names → k ∈ keys t) →
  ∃ rest : table, keys rest = names ∧ ∀ k a, (k, a) ∈ rest → columns_get t k = Some a.
Proof.
  induction names as [|k names IH]; intros Hin.
  - exists []. split; [done|]. intros k a H. by apply elem_of_nil in H.
  - destruct IH as (rest & Hk & Hget).
    { intros k' Hk'. apply Hin, elem_of_cons. by right. }
    destruct (columns_get t k) as [a|] eqn:E.
    + exists ((k, a) :: rest). split; [simpl; by rewrite <- Hk|].
      intros k' a' H. apply elem_of_cons in H as [[= -> ->]|H]; auto.
    + apply columns_get_None in E. destruct E. apply Hin, elem_of_cons. by left.
Qed.

Lemma view_table_same (t : table) n :
  (∀ a, a ∈ values t → alen a = n) → view_table t (seq 0 n) = t.
Proof.
  intros Hn. unfold view_table.
  rewrite <- (list_fmap_id t) at 2. apply list_fmap_ext.
  intros i [k a] Hi. simpl. f_equal. rewrite <- (Hn a).
  - apply view_all.
  - apply list_elem_of_fmap. exists (k, a). split; [done|]. by eapply list_elem_of_lookup_2.
Qed.

(** X14: [table[names]] for a list of names reads the names as numpy gives
    them back, without the NUL characters at their end.  When these are
    distinct names of columns, it returns the columns named, in the
    order of the list and whatever their order in [table]: the names of
    the new table are those of the list, and each column is the array
    that [table] holds under its name.  Nothing is written.  For a list
    of names that do not end with a NUL character these are the names
    of the list themselves. *)
Theorem Table_getitem_names t s (names : list string) :
  wf_table t → names ≠ [] → NoDup (rstrip_nul <$> names) →
  (∀ k, k ∈ rstrip_nul <$> names → k ∈ keys t) →
  ∃ u, Table_getitem t (IAtom (AList (EStr <$> names))) s = (s, Ok (RetTable u)) ∧
       keys u = rstrip_nul <$> names ∧
       (Forall (λ k, rstrip_nul k = k) names → keys u = names) ∧
       ∀ k, k ∈ rstrip_nul <$> names → columns_get u k = columns_get t k.
Proof.
  intros Hwf Hne Hnd Hin.
  destruct (sub_table t (rstrip_nul <$> names) Hin) as (rest & Hkeys & Hget).
  assert (∀ a, a ∈ values rest → alen a = len t) as Hlen.
  { intros a Ha. apply list_elem_of_fmap in Ha as ([k a'] & -> & Hka).
    apply (len_of t); [apply Hwf|]. eapply columns_get_values. by apply Hget. }
  assert (wf_table rest) as Hwfr.
  { split; [by rewrite Hkeys|]. intros a b Ha Hb. by rewrite (Hlen a), (Hlen b). }
  exists rest. split; [|split; [done|split]].
  - unfold Table_getitem, Table_getitem_table, Table_selection.
    assert (existsb is_str (EStr <$> names) = true) as ->.
    { destruct names; [done|reflexivity]. }
    unfold bind at 1. unfold ret at 1.
    rewrite Table_getitem_table_unfold by done.
    assert (elem_str <$> (EStr <$> names) = rstrip_nul <$> names) as ->.
    { by rewrite <- list_fmap_compose. }
    rewrite <- Hkeys. unfold keys.
    rewrite (mapM_read_views t slice_all (seq 0 (len t)) s rest).
    + replace (((λ ka : string * array, (ka.1, VArray (view ka.2 (seq 0 (len t))))) <$> rest).*1)
        with (keys rest) by (unfold keys; by rewrite <- !list_fmap_compose).
      replace (((λ ka : string * array, (ka.1, VArray (view ka.2 (seq 0 (len t))))) <$> rest).*2)
        with ((λ a, VArray (view a (seq 0 (len t)))) <$> values rest)
        by (unfold values; by rewrite <- !list_fmap_compose).
      rewrite Table_store_views by done. by rewrite view_table_same.
    + intros k a Hka. split; [by apply Hget|].
      rewrite (Hlen a); [apply slice_positions_all|].
      apply list_elem_of_fmap. by exists (k, a).
  - intros Hnul. by rewrite Hkeys, rstrip_nul_fmap.
  - intros k Hk. rewrite <- Hkeys in Hk. apply list_elem_of_fmap in Hk as ([k' a] & -> & Hka).
    simpl. rewrite (Hget _ _ Hka). apply columns_get_elem; [apply Hwfr|done].
Qed.

Lemma Table_getitem_names_witness :
  ∃ u, Table_getitem ex_table (IAtom (AList [EStr "c"; EStr "a"])) ex_store
       = (ex_store, Ok (RetTable u)) ∧
       keys u = ["c"; "a"].
Proof.
  assert (wf_table ex_table) as Hwf.
  { apply (Table_init_wf ex_source IndexFalse [] ex_store). reflexivity. }
  destruct (Table_getitem_names ex_table ex_store ["c"; "a"] Hwf) as (u & Hu & Hk & _).
  - discriminate.
  - apply (bool_decide_unpack _). vm_compute. exact I.
  - intros k Hk. apply (bool_decide_unpack _).
    apply elem_of_cons in Hk as [->|Hk]; [vm_compute; exact I|].
    apply elem_of_cons in Hk as [->|Hk]; [vm_compute; exact I|].
    apply elem_of_nil in Hk. destruct Hk.
  - exists u. split; [exact Hu|exact Hk].
Defined.

(** ** Rows selected by a list of positions *)

Lemma all_ints_EInt (l : list Z) : all_ints (EInt <$> l) = Some l.
Proof.
  unfold all_ints. induction l as [|z l IH]; [done|].
  rewrite fmap_cons. cbn [mapM]. rewrite IH. done.
Qed.

Lemma mapM_wrap_index_lt n (l : list Z) (ps : list nat) :
  mapM (wrap_index n) l = Some ps → Forall (λ p, p < n) ps ∧ length ps = length l.
Proof.
  intros H. split.
  - apply mapM_Some in H. apply Forall_forall. intros p Hp.
    apply list_elem_of_lookup_1 in Hp as [j Hj].
    destruct (Forall2_lookup_r _ _ _ _ _ H Hj) as (z & _ & Hz).
    by eapply wrap_index_lt.
  - symmetry. by eapply length_mapM.
Qed.

Lemma omap_lookup_total {A} (cs : list A) (ps : list nat) :
  Forall (λ p, p < length cs) ps → length (omap (λ p, cs !! p) ps) = length ps.
Proof.
  induction 1 as [|p ps Hp Hall IH]; simpl; [done|].
  destruct (cs !! p) eqn:E; [|apply lookup_ge_None in E; lia].
  simpl. f_equal. exact IH.
Qed.

(** Reading the columns of [rest] at the positions [ps] allocates one
    copy for each, after the buffers that are there. *)
Lemma mapM_read_copies (t : table) (s : store) (l : list Z) (ps : list nat) (rest : table) :
  ∀ s1 : store,
  s `prefix_of` s1 →
  (∀ k a, (k, a) ∈ rest →
     columns_get t k = Some a ∧ valid s a ∧ mapM (wrap_index (alen a)) l = Some ps) →
  mapM_ (read_column t (AList (EInt <$> l))) (EStr <$> rest.*1) s1
  = (s1 ++ ((λ a, omap (λ p, cells s a !! p) ps) <$> rest.*2),
     Ok (zip (rest.*1)
             (VArray <$> arrays_from (length s1)
                           ((λ a, omap (λ p, cells s a !! p) ps) <$> rest.*2)))).
Proof.
  induction rest as [|[k a] rest IH]; intros s1 Hpre H.
  - simpl. by rewrite app_nil_r.
  - destruct (H k a) as (Hget & Hv & Hps); [apply elem_of_cons; by left|].
    rewrite !fmap_cons, mapM_cons_run. cbn [fst snd].
    unfold read_column at 1. unfold bind, column_read, ret. rewrite Hget.
    unfold array_getitem. rewrite all_ints_EInt. cbn [mbind option_bind]. rewrite Hps.
    unfold alloc. rewrite (cells_prefix s s1 a Hpre Hv).
    rewrite IH.
    + cbn [arrays_from fmap list_fmap zip zip_with]. rewrite <- app_assoc.
      rewrite length_app. cbn [length app]. rewrite Nat.add_1_r. done.
    + etransitivity; [exact Hpre|]. by apply prefix_app_r.
    + intros k' a' Hin. apply H. apply elem_of_cons. by right.
Qed.

(** X15: [table[positions]] for a list of integers that are positions of
    rows, a negative one counting from the end, returns a table with the
    names of [table] whose columns are new arrays in new buffers: each
    holds, in the order of the list, the elements of its column at these
    positions.  No element that was in the store changes.  If one of the
    integers is the position of no row, the read raises [IndexError]. *)
Theorem Table_getitem_positions (t : table) (s : store) (l : list Z) :
  wf_table t → valid_table s t → l ≠ [] →
  (∀ ps : list nat, mapM (wrap_index (len t)) l = Some ps →
     ∃ s' u, Table_getitem t (IAtom (AList (EInt <$> l))) s = (s', Ok (RetTable u)) ∧
       keys u = keys t ∧
       (∀ a, valid s a → cells s' a = cells s a) ∧
       ∀ k a, columns_get t k = Some a →
         ∃ b, columns_get u k = Some b ∧ length s ≤ buffer b ∧ alen b = length l ∧
              cells s' b = omap (λ p, cells s a !! p) ps) ∧
  (mapM (wrap_index (len t)) l = None → t ≠ [] →
     Table_getitem t (IAtom (AList (EInt <$> l))) s = (s, Raise IndexError)).
Proof.
  intros Hwf Hv Hne.
  assert (
     Table_getitem t (IAtom (AList (EInt <$> l))) s
     = match mapM_ (read_column t (AList (EInt <$> l))) (EStr <$> keys t) s with
       | (s1, Ok items) =>
           match Table_store (items.*1) (items.*2) s1 with
           | (s2, Ok u) => (s2, Ok (RetTable u))
           | (s2, Raise e) => (s2, Raise e)
           end
       | (s1, Raise e) => (s1, Raise e)
       end) as Hunfold.
  { unfold Table_getitem, Table_getitem_table, Table_selection.
    assert (existsb is_str (EInt <$> l) = false) as ->.
    { clear. induction l; [done|]. simpl. done. }
    destruct l as [|z l]; [done|]. rewrite fmap_cons.
    unfold bind at 1. unfold ret at 1.
    by rewrite Table_getitem_table_unfold. }
  assert (∀ k a, (k, a) ∈ t → columns_get t k = Some a ∧ valid s a ∧ alen a = len t) as Hcol.
  { intros k a Hka. split; [apply columns_get_elem; [apply Hwf|done]|].
    assert (a ∈ values t) as Ha by (apply list_elem_of_fmap; by exists (k, a)).
    split; [|apply len_of; [apply Hwf|done]].
    unfold valid_table in Hv. rewrite Forall_forall in Hv. auto. }
  split.
  - intros ps Hps. destruct (mapM_wrap_index_lt _ _ _ Hps) as [Hlt Hlen].
    set (ls := (λ a, omap (λ p, cells s a !! p) ps) <$> values t).
    set (arrs := arrays_from (length s) ls).
    assert (length arrs = length (keys t)) as Hlarr.
    { unfold arrs, ls, keys, values. by rewrite arrays_from_length, !length_fmap. }
    assert (∀ a, a ∈ values t → length (omap (λ p, cells s a !! p) ps) = length l) as Hcopy.
    { intros a Ha. rewrite omap_lookup_total; [done|].
      apply list_elem_of_fmap in Ha as ([k a'] & -> & Hka).
      destruct (Hcol _ _ Hka) as (_ & Hva & Hla). simpl.
      rewrite cells_length, Hla by done. done. }
    assert (wf_table (zip (keys t) arrs)) as Hwfu.
    { split.
      - unfold keys at 1. rewrite fst_zip by lia. apply Hwf.
      - assert (∀ b, b ∈ values (zip (keys t) arrs) → alen b = length l) as Hb.
        { intros b Hb. unfold values in Hb. rewrite snd_zip in Hb by lia.
          destruct (arrays_from_spec (length s) s ls b eq_refl Hb) as (_ & j & c & Hj & -> & _).
          unfold alen. cbn [positions]. rewrite length_seq.
          unfold ls in Hj. rewrite list_lookup_fmap in Hj.
          destruct (values t !! j) as [a|] eqn:Ea; [|done]. injection Hj as <-.
          apply Hcopy. by eapply list_elem_of_lookup_2. }
        intros a b Ha Hb'. by rewrite (Hb a), (Hb b). }
    exists (s ++ ls), (zip (keys t) arrs). split; [|split; [|split]].
    + rewrite Hunfold. unfold keys at 1.
      rewrite (mapM_read_copies t s l ps t s); [| done |].
      * fold (values t). fold ls. fold arrs. fold (keys t).
        rewrite fst_zip by (rewrite length_fmap; lia).
        rewrite snd_zip by (rewrite length_fmap; lia).
        pose proof (Table_store_arrays (zip (keys t) arrs) (s ++ ls) Hwfu) as Hst.
        unfold keys at 1 in Hst. unfold values in Hst.
        rewrite fst_zip, snd_zip in Hst by lia. by rewrite Hst.
      * intros k a Hka. destruct (Hcol _ _ Hka) as (? & ? & ->). done.
    + unfold keys at 1. by rewrite fst_zip by lia.
    + intros a Ha. apply cells_prefix; [by apply prefix_app_r|done].
    + intros k a Hget. pose proof (columns_get_Some _ _ _ Hget) as Hka.
      apply list_elem_of_lookup_1 in Hka as [j Hj].
      assert (ls !! j = Some (omap (λ p, cells s a !! p) ps)) as Hlj.
      { unfold ls, values. by rewrite !list_lookup_fmap, Hj. }
      pose proof (arrays_from_lookup (length s) ls j _ Hlj) as Haj.
      eexists. split; [|split; [|split]].
      * apply columns_get_elem; [apply Hwfu|].
        eapply list_elem_of_lookup_2. apply lookup_zip_with_Some.
        eexists _, _. split; [done|]. split; [|exact Haj].
        unfold keys. by rewrite list_lookup_fmap, Hj.
      * simpl. lia.
      * unfold alen. cbn [positions]. rewrite length_seq. apply Hcopy.
        by eapply columns_get_values.
      * by apply cells_arrays_from.
  - intros Hnone Ht. rewrite Hunfold. destruct t as [|[k a] t']; [done|].
    unfold keys. rewrite !fmap_cons, mapM_cons_run. cbn [fst snd].
    destruct (Hcol k a) as (Hget & _ & Hla); [apply elem_of_cons; by left|].
    unfold read_column. unfold bind, column_read. rewrite Hget.
    unfold array_getitem. rewrite all_ints_EInt. cbn [mbind option_bind].
    by rewrite Hla, Hnone.
Qed.

Lemma Table_getitem_positions_witness :
  ∃ s' u, Table_getitem ex_table (IAtom (AList [EInt (-1); EInt 0])) ex_store
          = (s', Ok (RetTable u)) ∧
          ∃ b, columns_get u "a" = Some b ∧ cells s' b = [Int 50; Int 10].
Proof.
  assert (wf_table ex_table) as Hwf.
  { apply (Table_init_wf ex_source IndexFalse [] ex_store). reflexivity. }
  assert (valid_table ex_store ex_table) as Hv.
  { repeat constructor; eexists; (split; [reflexivity|]); repeat constructor. }
  destruct (proj1 (Table_getitem_positions ex_table ex_store [(-1)%Z; 0%Z] Hwf Hv
                     ltac:(discriminate)) [4; 0] eq_refl)
    as (s' & u & Hu & _ & _ & Hc).
  exists s', u. split; [exact Hu|].
  destruct (Hc "a" (Array 0 [0; 1; 2; 3; 4]) eq_refl) as (b & Hb & _ & _ & Hcells).
  exists b. split; [exact Hb|exact Hcells].
Defined.

(** ** Tables made of a mapping and of a matrix *)

Lemma sorted_insert_perm {A} (kv : string * A) l : sorted_insert kv l ≡ₚ kv :: l.
Proof.
  induction l as [|x l IH]; simpl; [done|].
  destruct (String_as_OT.compare kv.1 x.1); try done.
  rewrite IH. apply Permutation_swap.
Qed.

Lemma sorted_items_perm {A} (l : list (string * A)) : sorted_items l ≡ₚ l.
Proof.
  unfold sorted_items. induction l as [|kv l IH]; simpl; [done|].
  by rewrite sorted_insert_perm, IH.
Qed.

Lemma sorted_insert_sorted {A} (kv : string * A) l :
  kv.1 ∉ l.*1 → StronglySorted String_as_OT.lt (l.*1) →
  StronglySorted String_as_OT.lt ((sorted_insert kv l).*1).
Proof.
  induction l as [|x l IH]; simpl; intros Hk Hs.
  - repeat constructor.
  - apply not_elem_of_cons in Hk as [Hne Hk].
    apply StronglySorted_inv in Hs as [Hs Hall].
    destruct (String_as_OT.compare_spec kv.1 x.1) as [E|L|G].
    + by destruct Hne.
    + simpl. constructor; [by constructor|]. constructor; [done|].
      eapply Forall_impl; [exact Hall|]. intros z Hz. simpl in Hz. by etransitivity.
    + simpl. constructor; [by apply IH|]. apply Forall_forall. intros z Hz.
      apply list_elem_of_fmap in Hz as (y & -> & Hy).
      rewrite sorted_insert_perm in Hy. apply elem_of_cons in Hy as [->|Hy]; [done|].
      rewrite Forall_forall in Hall. apply Hall. apply list_elem_of_fmap. by exists y.
Qed.

Lemma sorted_items_sorted {A} (l : list (string * A)) :
  NoDup (l.*1) → StronglySorted String_as_OT.lt ((sorted_items l).*1).
Proof.
  unfold sorted_items. induction l as [|kv l IH]; simpl; intros Hnd; [constructor|].
  apply NoDup_cons in Hnd as [Hk Hnd]. apply sorted_insert_sorted; [|by apply IH].
  intros Hin. apply Hk. apply list_elem_of_fmap in Hin as (y & -> & Hy).
  apply list_elem_of_fmap. exists y. split; [done|].
  fold (sorted_items l) in Hy. by rewrite sorted_items_perm in Hy.
Qed.

Lemma sorted_insert_fmap {A B} (f : A → B) (kv : string * A) l :
  sorted_insert (prod_map id f kv) (prod_map id f <$> l)
  = prod_map id f <$> sorted_insert kv l.
Proof.
  induction l as [|x l IH]; [done|].
  rewrite fmap_cons. cbn [sorted_insert].
  change ((prod_map id f kv).1) with kv.1. change ((prod_map id f x).1) with x.1.
  destruct (String_as_OT.compare kv.1 x.1); try done.
  by rewrite IH.
Qed.

Lemma sorted_items_fmap {A B} (f : A → B) (l : list (string * A)) :
  sorted_items (prod_map id f <$> l) = prod_map id f <$> sorted_items l.
Proof.
  unfold sorted_items. induction l as [|kv l IH]; [done|].
  rewrite fmap_cons. cbn [foldr]. rewrite IH. apply sorted_insert_fmap.
Qed.

(** X16: A table made of a mapping whose values are sequences of one length
    has its columns in the lexicographic order of the keys, whatever the
    order in which the mapping gives them.  The column of a key is as
    long as the value of that key, and holds its elements when the value
    is a sequence that numpy stores as it is given ([plain]). *)
Theorem Table_init_mapping (items : list (string * list cell)) L index (s : store) :
  NoDup (items.*1) → Forall (λ kl, length kl.2 = L) items →
  ∃ s' t,
    Table_init (SrcMapping (prod_map id VSeq <$> items)) index s = (s', Ok t) ∧
    keys t ≡ₚ items.*1 ∧ StronglySorted String_as_OT.lt (keys t) ∧
    ∀ k l, (k, l) ∈ items →
      ∃ a, columns_get t k = Some a ∧ alen a = length l ∧
           (plain l = true → cells s' a = l).
Proof.
  intros Hnd Hlen.
  set (sorted := sorted_items items).
  assert (sorted ≡ₚ items) as Hperm by apply sorted_items_perm.
  assert (NoDup (sorted.*1)) as Hnds by (by rewrite Hperm).
  assert (Table_store (sorted.*1) (VSeq <$> sorted.*2) s
          = (s ++ sorted.*2, Ok (zip (sorted.*1) (arrays_from (length s) (sorted.*2))))) as Hst.
  { rewrite (Table_store_seqs L).
    - by rewrite dedup_NoDup_id.
    - by rewrite !length_fmap.
    - apply Forall_fmap. rewrite Hperm. exact Hlen. }
  set (t := zip (sorted.*1) (arrays_from (length s) (sorted.*2))) in *.
  assert (keys t = sorted.*1) as Hkeys.
  { apply fst_zip. by rewrite arrays_from_length, !length_fmap. }
  exists (s ++ sorted.*2), t. split; [|split; [|split]].
  - unfold Table_init, bind, source_items, ret. rewrite sorted_items_fmap. fold sorted.
    cbn [fst snd].
    replace ((prod_map id VSeq <$> sorted).*1) with (sorted.*1)
      by (rewrite <- !list_fmap_compose; by apply list_fmap_ext; intros ? []).
    replace ((prod_map id VSeq <$> sorted).*2) with (VSeq <$> sorted.*2)
      by (rewrite <- !list_fmap_compose; by apply list_fmap_ext; intros ? []).
    exact Hst.
  - by rewrite Hkeys, Hperm.
  - rewrite Hkeys. by apply sorted_items_sorted.
  - intros k l Hkl. rewrite <- Hperm in Hkl. apply list_elem_of_lookup_1 in Hkl as [j Hj].
    assert (sorted.*2 !! j = Some l) as Hlj by (by rewrite list_lookup_fmap, Hj).
    exists (Array (length s + j) (seq 0 (length l))).
    split; [|split; [unfold alen; simpl; apply length_seq|intros _; by apply cells_arrays_from]].
    apply columns_get_elem; [by rewrite Hkeys|].
    eapply list_elem_of_lookup_2. apply lookup_zip_with_Some.
    exists k, (Array (length s + j) (seq 0 (length l))). split; [done|]. split.
    + by rewrite list_lookup_fmap, Hj.
    + by apply arrays_from_lookup.
Qed.

Lemma Table_init_mapping_witness :
  ∃ s' t,
    Table_init (SrcMapping (prod_map id VSeq <$> [("b", [Int 1; Int 2]); ("a", [Int 3; Int 4])]))
               IndexFalse [] = (s', Ok t) ∧
    keys t ≡ₚ ["b"; "a"] ∧ StronglySorted String_as_OT.lt (keys t) ∧
    ∃ a, columns_get t "a" = Some a ∧ cells s' a = [Int 3; Int 4].
Proof.
  destruct (Table_init_mapping [("b", [Int 1; Int 2]); ("a", [Int 3; Int 4])] 2 IndexFalse [])
    as (s' & t & Hrun & Hperm & Hsorted & Hc).
  - apply (bool_decide_unpack _). vm_compute. exact I.
  - repeat constructor.
  - exists s', t. split; [exact Hrun|]. split; [exact Hperm|]. split; [exact Hsorted|].
    destruct (Hc "a" [Int 3; Int 4]) as (a & Ha & _ & Hcells).
    + apply elem_of_cons. right. apply elem_of_cons. left. reflexivity.
    + exists a. split; [exact Ha|]. apply Hcells. reflexivity.
Defined.

Lemma str_nat_inj : Inj (=) (=) str_nat.
Proof.
  intros i j H. unfold str_nat in H.
  assert (Nat.to_uint i = Nat.to_uint j) as E.
  { apply (f_equal NilEmpty.uint_of_string) in H. rewrite !NilEmpty.usu in H. congruence. }
  apply (f_equal Nat.of_uint) in E. by rewrite !Unsigned.of_to in E.
Qed.

(** X17: A table can be made of a numpy array of two dimensions only: any
    other number of dimensions raises [ValueError].  The columns of a
    matrix become the columns of the table, as the views they are and
    without a copy, under the names ["0"], ["1"], ... in order, which
    are distinct and so are never altered. *)
Theorem Table_init_ndarray ndim (columns : list array) index (s : store) :
  (ndim ≠ 2 →
   Table_init (SrcNdarray ndim columns) index s = (s, Raise (ValueError OnlyTwoDimensional))) ∧
  (ndim = 2 → (∀ a b, a ∈ columns → b ∈ columns → alen a = alen b) →
   ∃ t, Table_init (SrcNdarray ndim columns) index s = (s, Ok t) ∧
        keys t = str_nat <$> seq 0 (length columns) ∧ values t = columns).
Proof.
  split.
  - intros Hn. unfold Table_init, bind, source_items. by rewrite decide_True.
  - intros -> Hsame.
    set (t := zip (str_nat <$> seq 0 (length columns)) columns).
    assert (keys t = str_nat <$> seq 0 (length columns)) as Hk.
    { apply fst_zip. by rewrite length_fmap, length_seq. }
    assert (values t = columns) as Hv.
    { apply snd_zip. by rewrite length_fmap, length_seq. }
    exists t. split; [|done].
    unfold Table_init, bind, source_items. rewrite decide_False by (intros H; by apply H).
    unfold ret. cbn [fst snd].
    assert (wf_table t) as Hwf.
    { split.
      - rewrite Hk. apply NoDup_fmap; [apply str_nat_inj|apply NoDup_seq].
      - unfold same_length. rewrite Hv. exact Hsame. }
    pose proof (Table_store_arrays t s Hwf) as H. by rewrite Hk, Hv in H.
Qed.

Lemma Table_init_ndarray_witness :
  Table_init (SrcNdarray 3 [Array 0 [0; 1]]) IndexFalse [[Int 1; Int 2]]
    = ([[Int 1; Int 2]], Raise (ValueError OnlyTwoDimensional)) ∧
  ∃ t, Table_init (SrcNdarray 2 [Array 0 [0; 2]; Array 0 [1; 3]]) IndexFalse
         [[Int 1; Int 2; Int 3; Int 4]]
       = ([[Int 1; Int 2; Int 3; Int 4]], Ok t) ∧
       keys t = ["0"; "1"] ∧ values t = [Array 0 [0; 2]; Array 0 [1; 3]].
Proof.
  split.
  - apply (proj1 (Table_init_ndarray 3 [Array 0 [0; 1]] IndexFalse [[Int 1; Int 2]])).
    discriminate.
  - apply (proj2 (Table_init_ndarray 2 [Array 0 [0; 2]; Array 0 [1; 3]] IndexFalse
                    [[Int 1; Int 2; Int 3; Int 4]]) eq_refl).
    intros a b Ha Hb.
    apply elem_of_cons in Ha as [->|Ha]; [|apply elem_of_cons in Ha as [->|Ha];
                                            [|apply elem_of_nil in Ha; destruct Ha]];
      (apply elem_of_cons in Hb as [->|Hb]; [|apply elem_of_cons in Hb as [->|Hb];
                                               [|apply elem_of_nil in Hb; destruct Hb]]);
      reflexivity.
Defined.

(** ** Renamed names keep the name they had *)

Lemma string_app_nil_r (s : string) : s +:+ EmptyString = s.
Proof.
  induction s as [|c s IH]; [done|].
  change (String c (s +:+ EmptyString) = String c s). by rewrite IH.
Qed.

Lemma string_app_assoc (a b c : string) : (a +:+ b) +:+ c = a +:+ (b +:+ c).
Proof.
  induction a as [|x a IH]; [done|].
  change (String x ((a +:+ b) +:+ c) = String x (a +:+ (b +:+ c))). by rewrite IH.
Qed.

Section Prefix.

Variable orig : list string.

Lemma rename_steps_prefix key (idxs : list nat) : ∀ st,
  NoDup idxs → (∀ i, i ∈ idxs → st_keys st !! i = Some key) →
  starts_with orig st → starts_with orig (foldl (rename_step key) st idxs).
Proof.
  induction idxs as [|i idxs IH]; intros st Hnd Hkey Hst; [done|].
  apply NoDup_cons in Hnd as [Hi Hnd]. simpl. apply IH; [done| |].
  - intros j Hj. assert (j ≠ i) as Hne by (intros ->; done).
    unfold rename_step. destruct (decide (key ∈ st_reserved st)); simpl.
    + rewrite list_lookup_insert_ne by done. apply Hkey. apply elem_of_cons. by right.
    + apply Hkey. apply elem_of_cons. by right.
  - intros j k Hj. destruct (Hst j k Hj) as [tail Htail].
    unfold rename_step. destruct (decide (key ∈ st_reserved st)); simpl; [|eauto].
    destruct (decide (j = i)) as [->|Hne].
    + rewrite list_lookup_insert_eq by (by eapply lookup_lt_Some).
      rewrite (Hkey i) in Htail by (apply elem_of_cons; by left).
      injection Htail as ->. unfold suffixed. rewrite string_app_assoc. eauto.
    + rewrite list_lookup_insert_ne by done. eauto.
Qed.

Lemma rename_pass_prefix st key : starts_with orig st → starts_with orig (rename_pass st key).
Proof.
  intros Hst. unfold rename_pass. apply rename_steps_prefix.
  - apply flatnonzero_NoDup.
  - intros i Hi. by apply elem_of_flatnonzero in Hi.
  - exact Hst.
Qed.

Lemma rename_passes_prefix (later : list string) : ∀ st,
  starts_with orig st → starts_with orig (foldl rename_pass st later).
Proof.
  induction later as [|key later IH]; intros st Hst; [done|].
  simpl. apply IH. by apply rename_pass_prefix.
Qed.

End Prefix.

(** X18: The renaming never replaces a name, it only appends to it: the name
    stored at a position starts with the name given at that position,
    for every list of names.  Names that were made unique are not
    altered when they are made unique again. *)
Theorem dedup_prefix (names : list string) :
  dedup (dedup names) = dedup names ∧
  ∀ i k, names !! i = Some k → ∃ tail, dedup names !! i = Some (k +:+ tail).
Proof.
  split; [apply dedup_NoDup_id, dedup_NoDup|].
  unfold dedup. apply rename_passes_prefix.
  intros i k Hk. exists EmptyString. simpl. by rewrite string_app_nil_r.
Qed.

(** ** The shape of a file that was read *)

Lemma foldr_min_spec (rest : list (list string)) n0 :
  foldr (λ row n, min (length row) n) n0 rest ≤ n0 ∧
  Forall (λ row, foldr (λ row n, min (length row) n) n0 rest ≤ length row) rest ∧
  (foldr (λ row n, min (length row) n) n0 rest = n0 ∨
   ∃ row, row ∈ rest ∧ length row = foldr (λ row n, min (length row) n) n0 rest).
Proof.
  induction rest as [|r rest (Hle & Hall & Hat)]; simpl.
  - split; [done|]. split; [constructor|by left].
  - split; [lia|]. split.
    + constructor; [lia|]. eapply Forall_impl; [exact Hall|]. simpl. intros. lia.
    + destruct (decide (length r ≤ foldr (λ row n, min (length row) n) n0 rest)) as [Hr|Hr].
      * right. exists r. split; [apply elem_of_cons; by left|lia].
      * replace (min (length r) (foldr (λ row n, min (length row) n) n0 rest))
          with (foldr (λ row n, min (length row) n) n0 rest) by lia.
        destruct Hat as [?|(row & Hrow & ?)]; [by left|right].
        exists row. split; [apply elem_of_cons; by right|done].
Qed.

Lemma zip_star_width rows w :
  (∀ row, row ∈ rows → w ≤ length row) → (∃ row, row ∈ rows ∧ length row = w) →
  length (zip_star rows) = w.
Proof.
  intros Hle (row & Hrow & Hw). destruct rows as [|r rest]; [by apply elem_of_nil in Hrow|].
  unfold zip_star. rewrite length_fmap, length_seq.
  destruct (foldr_min_spec rest (length r)) as (Hm0 & Hall & Hat).
  rewrite Forall_forall in Hall.
  set (m := foldr (λ row n, min (length row) n) (length r) rest) in *.
  assert (m ≤ w).
  { apply elem_of_cons in Hrow as [->|Hrow]; [lia|]. specialize (Hall _ Hrow). simpl in Hall. lia. }
  assert (w ≤ m).
  { destruct Hat as [->|(row' & Hrow' & <-)].
    - apply Hle. apply elem_of_cons. by left.
    - apply Hle. apply elem_of_cons. by right. }
  lia.
Qed.

Lemma convert_loop_shape (to_float : cell → option float) L ns : ∀ s t,
  (∀ k, k ∈ ns → k ∈ keys t) → valid_table s t → (∀ a, a ∈ values t → alen a = L) →
  ∃ s' t', forM_ (convert_column to_float) ns (s, t) = ((s', t'), Ok tt) ∧
    keys t' = keys t ∧ valid_table s' t' ∧ ∀ a, a ∈ values t' → alen a = L.
Proof.
  induction ns as [|k ns IH]; intros s t Hin Hv HL.
  - by exists s, t.
  - assert (k ∈ keys t) as Hkt by (apply Hin, elem_of_cons; by left).
    destruct (columns_get t k) as [a|] eqn:Ea; [|by apply columns_get_None in Ea].
    pose proof (columns_get_values _ _ _ Ea) as Hav.
    unfold valid_table in Hv. pose proof Hv as Hv'. rewrite Forall_forall in Hv'.
    assert (Forall (λ c, alen c = alen a) (values t)) as Hall.
    { apply Forall_forall. intros c Hc. by rewrite (HL c), (HL a). }
    rewrite forM_cons_run, (convert_column_run to_float k s t a Ea (Hv' a Hav) Hall).
    destruct (mapM to_float (cells s a)) as [fs|] eqn:E.
    + set (b := Array (length s) (seq 0 (length fs))).
      assert (alen b = L) as Hb.
      { unfold b, alen. simpl. rewrite length_seq. apply length_mapM in E. rewrite <- E.
        rewrite cells_length by (by apply Hv'). by apply HL. }
      destruct (IH (s ++ [Float <$> fs]) (columns_set t k b)) as (s' & t' & Hrun & Hkeys & Hvt & HL').
      * intros k' Hk'. rewrite columns_set_keys_in by done. apply Hin, elem_of_cons. by right.
      * apply Forall_forall. intros c Hc. apply columns_set_values in Hc as [->|Hc].
        -- unfold b. rewrite <- (length_fmap Float). apply valid_alloc.
        -- eapply valid_prefix; [by apply prefix_app_r|]. by apply Hv'.
      * intros c Hc. apply columns_set_values in Hc as [->|Hc]; auto.
      * exists s', t'. split; [done|]. split; [by rewrite Hkeys, columns_set_keys_in|done].
    + destruct (IH s t) as (s' & t' & Hrun & Hkeys & Hvt & HL'); try done.
      { intros k' Hk'. apply Hin, elem_of_cons. by right. }
      by exists s', t'.
Qed.

(** X19: [read_csv] returns a table for all rows that the reader yields, with
    and without conversion.  The table has as many columns as the
    shortest row has fields, the fields beyond being dropped, and no
    column when there is no row; every column has one element for each
    row after the first, and lies in the store. *)
Theorem read_csv_shape (to_float : cell → option float) (rows : list (list string)) convert
    (s : store) :
  ∃ s' t,
    read_csv to_float rows convert s = (s', Ok t) ∧
    valid_table s' t ∧
    (rows = [] → t = []) ∧
    (∀ w, (∀ row, row ∈ rows → w ≤ length row) → (∃ row, row ∈ rows ∧ length row = w) →
          length t = w) ∧
    (∀ a, a ∈ values t → alen a = length rows - 1).
Proof.
  set (cols := zip_star rows).
  set (names := hd EmptyString <$> cols).
  set (ls := (λ column : list string, Text <$> tail column) <$> cols).
  assert (Forall (λ l, length l = length rows - 1) ls) as Hls.
  { apply Forall_forall. intros l Hl. apply list_elem_of_fmap in Hl as (c & -> & Hc).
    apply zip_star_length in Hc. rewrite length_fmap. destruct c; simpl in *; lia. }
  assert (Table_store names ((λ column, VSeq (Text <$> tail column)) <$> cols) s
          = (s ++ ls, Ok (zip (dedup names) (arrays_from (length s) ls)))) as Hstore.
  { replace ((λ column, VSeq (Text <$> tail column)) <$> cols) with (VSeq <$> ls)
      by (unfold ls; by rewrite <- list_fmap_compose).
    apply (Table_store_seqs (length rows - 1)); [|done].
    unfold names, ls. by rewrite !length_fmap. }
  set (t0 := zip (dedup names) (arrays_from (length s) ls)) in *.
  assert (length (dedup names) = length (arrays_from (length s) ls)) as Hlen.
  { rewrite dedup_length, arrays_from_length. unfold names, ls. by rewrite !length_fmap. }
  assert (keys t0 = dedup names) as Hkeys0 by (apply fst_zip; lia).
  assert (values t0 = arrays_from (length s) ls) as Hvals0 by (apply snd_zip; lia).
  assert (valid_table (s ++ ls) t0) as Hv0.
  { unfold valid_table. rewrite Hvals0. apply Forall_forall. intros a Ha.
    by apply (arrays_from_spec (length s) s ls a eq_refl) in Ha as [? _]. }
  assert (∀ a, a ∈ values t0 → alen a = length rows - 1) as HL0.
  { intros a Ha. rewrite Hvals0 in Ha.
    apply (arrays_from_spec (length s) s ls a eq_refl) in Ha as (_ & j & l & Hj & -> & _).
    unfold alen. simpl. rewrite length_seq. rewrite Forall_forall in Hls.
    apply Hls. by eapply list_elem_of_lookup_2. }
  assert (∃ s' t, read_csv to_float rows convert s = (s', Ok t) ∧ keys t = keys t0 ∧
                  valid_table s' t ∧ ∀ a, a ∈ values t → alen a = length rows - 1)
    as (s' & t & Hrun & Hkeys & Hv & HL).
  { unfold read_csv. unfold bind at 1. fold cols. fold names. rewrite Hstore.
    destruct convert; [|by exists (s ++ ls), t0].
    destruct (convert_loop_shape to_float (length rows - 1) (keys t0) (s ++ ls) t0)
      as (s' & t' & Hrun & Hkeys & Hv & HL); try done.
    exists s', t'. split; [|done]. unfold with_table. by rewrite Hrun. }
  assert (length t = length cols) as Hw.
  { rewrite <- (length_fmap fst t). fold (keys t). rewrite Hkeys, Hkeys0, dedup_length.
    unfold names. by rewrite length_fmap. }
  exists s', t. split; [done|]. split; [done|]. split; [|split; [|done]].
  - intros ->. destruct t; [done|]. simpl in Hw. done.
  - intros w Hle Hat. rewrite Hw. by apply zip_star_width.
Qed.

(** ** The number of rows *)

Lemma len_columns_set t name a :
  t ≠ [] → Forall (λ c, alen c = alen a) (values t) → len (columns_set t name a) = len t.
Proof.
  destruct t as [|[k c] t]; [done|]. intros _ Hall.
  apply Forall_cons in Hall as [Hc _]. unfold len. simpl.
  destruct (decide (k = name)); simpl; [by symmetry|done].
Qed.

(** X20: Once a table has a column, its number of rows is fixed: no
    assignment, whatever its index and its value and whether it returns
    or raises, changes [len], and no deletion does as long as it leaves
    a column. *)
Theorem len_fixed t s :
  same_length t → t ≠ [] →
  (∀ index value w r, Table_setitem index value (s, t) = (w, r) → len w.2 = len t) ∧
  (∀ key w r, Table_delitem key (s, t) = (w, r) → w.2 ≠ [] → len w.2 = len t).
Proof.
  intros Hsame Hne. split.
  - intros index value w r H.
    apply Table_setitem_table in H as [->|(name & a & _ & _ & Hall & ->)]; [done|].
    by apply len_columns_set.
  - intros key w r H Hw. unfold Table_delitem in H.
    destruct key as [[name| | | | |]|l]; run_in H; try (by injection H as <- <-).
    + destruct (columns_get t name) as [a0|] eqn:E; injection H as <- <-; [|done]. simpl in *.
      destruct (columns_del t name) as [|[k a] t'] eqn:Ed; [done|].
      change (alen a = len t). apply len_of; [done|].
      apply list_elem_of_fmap. exists (k, a). split; [done|].
      apply (columns_del_sub t name). rewrite Ed. apply elem_of_cons. by left.
    + destruct (existsb _ l); by injection H as <- <-.
Qed.

Lemma len_fixed_witness :
  len (columns_set ex_table "b" (Array 3 [0; 1; 2; 3; 4])) = len ex_table.
Proof.
  assert (same_length ex_table) as Hsame.
  { apply (Table_init_wf ex_source IndexFalse [] ex_store). reflexivity. }
  exact (proj1 (len_fixed ex_table ex_store Hsame ltac:(discriminate))
           (IAtom (AStr "b")) (VSeq [Int 6; Int 7; Int 8; Int 9; Int 0])
           (ex_store ++ [[Int 6; Int 7; Int 8; Int 9; Int 0]],
            columns_set ex_table "b" (Array 3 [0; 1; 2; 3; 4])) (Ok tt) eq_refl).
Defined.

(** ** Rows in reverse *)

Lemma range_down n :
  range (Z.of_nat n - 1) (-1) (-1) = (λ k, n - 1 - k) <$> seq 0 n.
Proof.
  unfold range, range_count. simpl.
  destruct (-1 <? Z.of_nat n - 1)%Z eqn:E.
  - apply Z.ltb_lt in E. rewrite Z.div_1_r.
    replace (Z.to_nat (Z.of_nat n - 1 - -1 - 1 + 1)) with n by lia.
    apply list_fmap_ext. intros i k Hk. apply lookup_seq in Hk as [-> Hk]. lia.
  - apply Z.ltb_ge in E. replace n with 0 by lia. done.
Qed.

Lemma slice_positions_reverse n :
  slice_positions (Slice None None (Some (-1)%Z)) n = Some ((λ k, n - 1 - k) <$> seq 0 n).
Proof. unfold slice_positions. simpl. by rewrite range_down. Qed.

Lemma omap_lookup_reverse {A} (l : list A) :
  omap (λ p, l !! p) ((λ k, length l - 1 - k) <$> seq 0 (length l)) = reverse l.
Proof.
  induction l as [|x l IH] using rev_ind; [done|].
  rewrite length_app. simpl. rewrite Nat.add_1_r. rewrite reverse_snoc.
  cbn [seq fmap list_fmap omap list_omap].
  replace (S (length l) - 1 - 0) with (length l) by lia.
  rewrite lookup_app_r, Nat.sub_diag by lia. simpl. f_equal.
  rewrite <- IH, <- fmap_S_seq, <- list_fmap_compose.
  apply list_omap_ext. apply Forall2_fmap. apply Forall_Forall2_diag.
  apply Forall_forall. intros k Hk. apply elem_of_seq in Hk. simpl.
  rewrite lookup_app_l by lia. f_equal. lia.
Qed.

(** X21: [table[::-1]] is the table with its rows in reverse order: the same
    names, and for each column a view of it, in the same buffer, whose
    elements are those of the column from the last to the first. *)
Theorem Table_getitem_reverse t s :
  wf_table t → valid_table s t →
  ∃ u, Table_getitem t (IAtom (ASlice (Slice None None (Some (-1)%Z)))) s
       = (s, Ok (RetTable u)) ∧
       keys u = keys t ∧
       ∀ k a, columns_get t k = Some a →
         ∃ b, columns_get u k = Some b ∧ buffer b = buffer a ∧
              cells s b = reverse (cells s a).
Proof.
  intros Hwf Hv. eexists. split.
  - apply Table_getitem_slice; [done|]. apply slice_positions_reverse.
  - split; [apply keys_view_table|]. intros k a Hget.
    eexists. split; [by apply columns_get_view_table|]. split; [done|].
    assert (valid s a) as Ha.
    { unfold valid_table in Hv. rewrite Forall_forall in Hv.
      by eapply Hv, columns_get_values. }
    assert (length (cells s a) = len t) as Hlen.
    { rewrite cells_length by done. apply len_of; [apply Hwf|by eapply columns_get_values]. }
    rewrite cells_view by done. rewrite <- Hlen. apply omap_lookup_reverse.
Qed.

Lemma Table_getitem_reverse_witness :
  ∃ u, Table_getitem ex_table (IAtom (ASlice (Slice None None (Some (-1)%Z)))) ex_store
       = (ex_store, Ok (RetTable u)) ∧
       ∃ b, columns_get u "a" = Some b ∧
            cells ex_store b = [Int 50; Int 40; Int 30; Int 20; Int 10].
Proof.
  assert (wf_table ex_table) as Hwf.
  { apply (Table_init_wf ex_source IndexFalse [] ex_store). reflexivity. }
  assert (valid_table ex_store ex_table) as Hv.
  { repeat constructor; eexists; (split; [reflexivity|]); repeat constructor. }
  destruct (Table_getitem_reverse ex_table ex_store Hwf Hv) as (u & Hu & _ & Hc).
  exists u. split; [exact Hu|].
  destruct (Hc "a" (Array 0 [0; 1; 2; 3; 4]) eq_refl) as (b & Hb & _ & Hcells).
  exists b. split; [exact Hb|exact Hcells].
Defined.

(** ** Metadata *)

(** X22: [metadata] raises [ValueError] for a name that is not a column and
    leaves the metadata as they are.  For a column it returns the
    dictionary kept for the name, a new and empty one when the name had
    none, without touching the dictionary of any other name; from then
    on every call for that name returns the same dictionary and changes
    nothing, for any table that has a column of that name: the metadata
    of a column outlive its deletion and are found again when a column
    is assigned under the name. *)
Theorem Table_metadata_spec t column m :
  (column ∉ keys t → Table_metadata t column m = (m, inl (UnknownColumnName column))) ∧
  (column ∈ keys t →
   ∃ m' d, Table_metadata t column m = (m', inr d) ∧
     _metadata m' !! column = Some d ∧
     dicts m `prefix_of` dicts m' ∧
     (∀ k, k ≠ column → _metadata m' !! k = _metadata m !! k) ∧
     (_metadata m !! column = None → length (dicts m) ≤ d ∧ dicts m' !! d = Some ∅) ∧
     (∀ t', column ∈ keys t' → Table_metadata t' column m' = (m', inr d))).
Proof.
  unfold Table_metadata. split.
  - intros Hk. by rewrite decide_True.
  - intros Hk. rewrite decide_False by (intros H; by apply H).
    destruct (_metadata m !! column) as [d|] eqn:E.
    + exists m, d. split; [done|]. split; [done|]. split; [done|]. split; [done|].
      split; [done|]. intros t' Hk'. rewrite decide_False by (intros H; by apply H).
      by rewrite E.
    + eexists _, _. split; [done|]. simpl. split; [by rewrite lookup_insert_eq|].
      split; [by apply prefix_app_r|]. split; [|split].
      * intros k Hne. by rewrite lookup_insert_ne.
      * intros _. split; [done|]. by rewrite lookup_app_r, Nat.sub_diag by lia.
      * intros t' Hk'. rewrite decide_False by (intros H; by apply H).
        simpl. by rewrite lookup_insert_eq.
Qed.

(** ** Tables made of a sequence of columns *)

Lemma forM_app_run {S A} (f : A → M S unit) (l1 l2 : list A) w :
  forM_ f (l1 ++ l2) w =
  match forM_ f l1 w with
  | (w1, Ok _) => forM_ f l2 w1
  | (w1, Raise e) => (w1, Raise e)
  end.
Proof.
  revert w. induction l1 as [|x l1 IH]; intros w; [done|].
  rewrite <- app_comm_cons, !forM_cons_run.
  destruct (f x w) as [w1 [[]|e]]; [apply IH|done].
Qed.

Lemma fmap_prod_map_fst {A B} (f : A → B) (l : list (string * A)) :
  (prod_map id f <$> l).*1 = l.*1.
Proof. rewrite <- !list_fmap_compose. by apply list_fmap_ext; intros ? []. Qed.

Lemma fmap_prod_map_snd {A B} (f : A → B) (l : list (string * A)) :
  (prod_map id f <$> l).*2 = f <$> l.*2.
Proof. rewrite <- !list_fmap_compose. by apply list_fmap_ext; intros ? []. Qed.

(** X23: A table made of a sequence of pairs of a name and a sequence, or of
    an ordered dictionary of them, keeps every column at its place and
    changes no element that was in the store.  When all sequences have
    one length, the column at each position is as long as the sequence
    given at that position, and holds its elements when numpy stores
    that sequence as it is given ([plain]); the names are those the
    renaming makes of the names given.  When the sequences before one
    have one length and that one has another, nothing is built:
    [ValueError] is raised with the two lengths. *)
Theorem Table_init_sequence (items : list (string * list cell)) L index (s : store) :
  (Forall (λ kl, length kl.2 = L) items →
   ∃ s' t,
     Table_init (SrcSequence (prod_map id VSeq <$> items)) index s = (s', Ok t) ∧
     Table_init (SrcOrdered (prod_map id VSeq <$> items)) index s = (s', Ok t) ∧
     (∀ b, valid s b → cells s' b = cells s b) ∧
     keys t = dedup (items.*1) ∧
     ∀ j k l, items !! j = Some (k, l) →
       ∃ k' a, t !! j = Some (k', a) ∧ alen a = length l ∧
               (plain l = true → cells s' a = l)) ∧
  (∀ pre k l post, items = pre ++ (k, l) :: post → pre ≠ [] →
     Forall (λ kl, length kl.2 = L) pre → length l ≠ L →
     ∃ s',
       Table_init (SrcSequence (prod_map id VSeq <$> items)) index s
       = (s', Raise (ValueError (ExpectedReceived L (length l)))) ∧
       ∀ b, valid s b → cells s' b = cells s b).
Proof.
  assert (∀ ordered,
    Table_init (if ordered : bool then SrcOrdered (prod_map id VSeq <$> items)
                else SrcSequence (prod_map id VSeq <$> items)) index s
    = Table_store (items.*1) (VSeq <$> items.*2) s) as Hinit.
  { intros []; unfold Table_init, bind, source_items, ret; cbn [fst snd];
      by rewrite fmap_prod_map_fst, fmap_prod_map_snd. }
  split.
  - intros Hall.
    assert (Table_store (items.*1) (VSeq <$> items.*2) s
            = (s ++ items.*2,
               Ok (zip (dedup (items.*1)) (arrays_from (length s) (items.*2))))) as Hst.
    { apply (Table_store_seqs L); [by rewrite !length_fmap|]. by apply Forall_fmap. }
    eexists _, _. split; [|split; [|split; [|split]]].
    + rewrite (Hinit false). exact Hst.
    + rewrite (Hinit true). exact Hst.
    + intros b Hb. apply cells_prefix; [by apply prefix_app_r|done].
    + apply fst_zip. by rewrite dedup_length, arrays_from_length, !length_fmap.
    + intros j k l Hj.
      assert (items.*2 !! j = Some l) as Hlj by (by rewrite list_lookup_fmap, Hj).
      destruct (dedup (items.*1) !! j) as [k'|] eqn:Hk.
      2:{ apply lookup_ge_None in Hk. rewrite dedup_length, length_fmap in Hk.
          apply lookup_lt_Some in Hj. lia. }
      exists k', (Array (length s + j) (seq 0 (length l))). split; [|split].
      * apply lookup_zip_with_Some. eexists _, _. split; [done|]. split; [done|].
        by apply arrays_from_lookup.
      * unfold alen. simpl. apply length_seq.
      * intros _. by apply cells_arrays_from.
  - intros pre k l post -> Hpre Hall Hl. exists (s ++ pre.*2 ++ [l]). split.
    2:{ intros b Hb. apply cells_prefix; [by apply prefix_app_r|done]. }
    rewrite (Hinit false).
    unfold Table_store, with_table.
    set (dn := dedup ((pre ++ (k, l) :: post).*1)).
    assert (length dn = length pre + S (length post)) as Hdn.
    { unfold dn. by rewrite dedup_length, length_fmap, length_app. }
    assert (NoDup dn) as Hnd by apply dedup_NoDup.
    rewrite <- (take_drop (length pre) dn) in Hnd |- *.
    destruct (drop (length pre) dn) as [|d dn2] eqn:Ed.
    { apply (f_equal length) in Ed. rewrite length_drop in Ed. simpl in Ed. lia. }
    rewrite !fmap_app, !fmap_cons. cbn [snd].
    rewrite zip_with_app by (rewrite length_take, !length_fmap; lia).
    cbn [zip_with]. rewrite forM_app_run.
    rewrite (forM_setitem_seqs L (pre.*2) (take (length pre) dn) s []).
    + rewrite forM_cons_run. cbn [fst snd app].
      unfold Table_setitem, bind, on_store, ma_array, alloc, get_table. cbn [fst snd].
      unfold values. rewrite snd_zip by (rewrite arrays_from_length, length_take, !length_fmap; lia).
      destruct pre as [|[k0 l0] pre']; [done|]. apply Forall_cons in Hall as [Hl0 _].
      rewrite fmap_cons. cbn [arrays_from snd]. rewrite check_shapes_first.
      * unfold alen. cbn [positions]. rewrite !length_seq.
        simpl in Hl0. rewrite Hl0. unfold raise. by rewrite <- app_assoc.
      * unfold alen. cbn [positions]. rewrite !length_seq. simpl in Hl0. lia.
    + rewrite length_take, !length_fmap. lia.
    + simpl. apply NoDup_app in Hnd as (? & _ & _). done.
    + by apply Forall_fmap.
    + constructor.
Qed.

Lemma Table_init_sequence_witness :
  (∃ s' t, Table_init (SrcSequence (prod_map id VSeq <$>
                       [("x", [Int 1; Int 2]); ("x", [Int 3; Int 4])])) IndexFalse []
        = (s', Ok t) ∧
        keys t = ["x"; "x-1"] ∧
        ∃ k' a, t !! 1 = Some (k', a) ∧ cells s' a = [Int 3; Int 4]) ∧
  ∃ s', Table_init (SrcSequence (prod_map id VSeq <$>
                 [("x", [Int 1; Int 2]); ("y", [Int 3])])) IndexFalse []
        = (s', Raise (ValueError (ExpectedReceived 2 1))).
Proof.
  split.
  - destruct (proj1 (Table_init_sequence [("x", [Int 1; Int 2]); ("x", [Int 3; Int 4])]
                       2 IndexFalse [])) as (s' & t & Hrun & _ & _ & Hkeys & Hc).
    + repeat constructor.
    + exists s', t. split; [exact Hrun|]. split; [exact Hkeys|].
      destruct (Hc 1 "x" [Int 3; Int 4] eq_refl) as (k' & a & Ht & _ & Hcells).
      exists k', a. split; [exact Ht|]. apply Hcells. reflexivity.
  - destruct (proj2 (Table_init_sequence [("x", [Int 1; Int 2]); ("y", [Int 3])] 2 IndexFalse [])
                [("x", [Int 1; Int 2])] "y" [Int 3] [] eq_refl) as (s' & Hrun & _).
    + discriminate.
    + repeat constructor.
    + discriminate.
    + exists s'. exact Hrun.
Defined.
